(** * FontCharMap: the cmap table parser and the character-map queries

    A shallow embedding of [vcl/source/font/fontcharmap.cxx]:
    the big-endian readers, [ParseCMAP], the [ImplFontCharMap]
    constructor, the default maps and the queries of [FontCharMap].

    C++ integers are integers of [Z] with the wrap-around of their type
    written out ([to_int], [to_u32], [to_u16], [to_s16]); [/] on [int] is
    [Z.quot].  Arrays are lists; a pointer that can be null is an [option],
    and the range-code pointer keeps apart the two static default arrays,
    since [isDefaultMap] compares addresses.  A read of the cmap buffer is
    checked: the parser lives in the [option] monad and [None] stands for a
    read outside of the buffer. *)

From Stdlib Require Import ZArith List Bool Lia Sorted.
From Stdlib Require Import Strings.Byte.
Import ListNotations.
Local Open Scope Z_scope.

(** ** Machine integers *)

Module CInt.

Definition to_int (x : Z) : Z := (x + 2 ^ 31) mod 2 ^ 32 - 2 ^ 31.
Definition to_u32 (x : Z) : Z := x mod 2 ^ 32.
Definition to_u16 (x : Z) : Z := x mod 2 ^ 16.
Definition to_s16 (x : Z) : Z := (x + 2 ^ 15) mod 2 ^ 16 - 2 ^ 15.

Definition INT_MAX : Z := 2 ^ 31 - 1.
Definition SAL_MAX_UINT16 : Z := 0xFFFF.

End CInt.
Import CInt.

(** ** Arrays *)

(** [l.[i]]: the cell [i] of an array.  The queries only index inside of
    the array on a well-formed map; outside of it the model reads 0. *)
Definition cell (l : list Z) (i : Z) : Z :=
  if i <? 0 then 0 else nth (Z.to_nat i) l 0.

Notation "l .[ i ]" := (cell l i) (at level 1, left associativity, format "l .[ i ]").

(** ** The data model *)

Definition aDefaultUnicodeRanges : list Z := [0x0020; 0xD800; 0xE000; 0xFFF0].
Definition aDefaultSymbolRanges : list Z := [0x0020; 0x0100; 0xF020; 0xF100].

(** [const sal_UCS4*]: null, one of the two static arrays, or an array
    allocated by the parser. *)
Inductive RangeCodesPtr : Type :=
| codes_null
| codes_aDefaultUnicodeRanges
| codes_aDefaultSymbolRanges
| codes_new (cells : list Z).

Definition deref (p : RangeCodesPtr) : list Z :=
  match p with
  | codes_null => []
  | codes_aDefaultUnicodeRanges => aDefaultUnicodeRanges
  | codes_aDefaultSymbolRanges => aDefaultSymbolRanges
  | codes_new cells => cells
  end.

(** [class CmapResult]; its fields carry the prefix [cr_], the names
    without prefix are those of [ImplFontCharMap]. *)
Record CmapResult : Type := mkCmapResult {
  cr_mpRangeCodes : RangeCodesPtr;
  cr_mpStartGlyphs : option (list Z);
  cr_mpGlyphIds : option (list Z);
  cr_mnRangeCount : Z;
  cr_mbSymbolic : bool;
  cr_mbRecoded : bool
}.

(** [CmapResult::CmapResult(bSymbolic, pRangeCodes, nRangeCount)] *)
Definition CmapResult_ctor (bSymbolic : bool) (pRangeCodes : RangeCodesPtr)
    (nRangeCount : Z) : CmapResult :=
  mkCmapResult pRangeCodes None None nRangeCount bSymbolic false.

Record ImplFontCharMap : Type := mkImplFontCharMap {
  mpRangeCodes : RangeCodesPtr;
  mpStartGlyphs : option (list Z);
  mpGlyphIds : option (list Z);
  mnRangeCount : Z;
  mnCharCount : Z;
  m_bSymbolic : bool
}.

(** The loop of the constructor: [for (i = mnRangeCount; --i >= 0; pRangePtr += 2)]. *)
Fixpoint ctor_loop (n : nat) (codes : list Z) (pRangePtr : Z) (nCharCount : Z) : Z :=
  match n with
  | O => nCharCount
  | S n' =>
      let cFirst := codes.[pRangePtr] in
      let cLast := codes.[pRangePtr + 1] in
      ctor_loop n' codes (pRangePtr + 2) (to_int (nCharCount + to_u32 (cLast - cFirst)))
  end.

(** [ImplFontCharMap::ImplFontCharMap(const CmapResult&)] *)
Definition ImplFontCharMap_ctor (rCR : CmapResult) : ImplFontCharMap :=
  mkImplFontCharMap
    (cr_mpRangeCodes rCR) (cr_mpStartGlyphs rCR) (cr_mpGlyphIds rCR)
    (cr_mnRangeCount rCR)
    (ctor_loop (Z.to_nat (cr_mnRangeCount rCR)) (deref (cr_mpRangeCodes rCR)) 0 0)
    (cr_mbSymbolic rCR).

(** [ImplFontCharMap::isDefaultMap]: a comparison of addresses. *)
Definition isDefaultMap (m : ImplFontCharMap) : bool :=
  match mpRangeCodes m with
  | codes_aDefaultUnicodeRanges | codes_aDefaultSymbolRanges => true
  | _ => false
  end.

(** ** The queries of FontCharMap

    A [FontCharMap] holds a reference to its [ImplFontCharMap]; the queries
    take the referenced object. *)

Module FontCharMap.

Definition codes (m : ImplFontCharMap) : list Z := deref (mpRangeCodes m).

(** The [while (nLower < nUpper)] loop of [findRangeIndex]; every turn
    shrinks [nUpper - nLower], [fuel] bounds the number of turns. *)
Fixpoint findRangeIndex_loop (fuel : nat) (rc : list Z) (cChar nLower nMid nUpper : Z) : Z :=
  match fuel with
  | O => nMid
  | S fuel' =>
      if nLower <? nUpper then
        let nLower' := if cChar >=? rc.[nMid] then nMid else nLower in
        let nUpper' := if cChar >=? rc.[nMid] then nUpper else nMid - 1 in
        findRangeIndex_loop fuel' rc cChar nLower' ((nLower' + nUpper' + 1) ÷ 2) nUpper'
      else nMid
  end.

Definition findRangeIndex (m : ImplFontCharMap) (cChar : Z) : Z :=
  findRangeIndex_loop (Z.to_nat (2 * mnRangeCount m)) (codes m) cChar
    0 (mnRangeCount m) (2 * mnRangeCount m - 1).

(** The tail of [GetGlyphIndex], from "check that we are inside a range".
    The cells of [mpStartGlyphs] and [mpGlyphIds] are read with [cell],
    which gives 0 outside of the list, while the C++ reads whatever lies
    behind the array there: the value of a lookup has a meaning only when
    [nRange / 2] is the index of a cell of [mpStartGlyphs] and, with an
    indirect origin, [nGlyphIndex - nStartIndex] the index of a cell of
    [mpGlyphIds].  The statements on the value of a lookup inside of a
    range carry these two conditions. *)
Definition glyph_in_range (m : ImplFontCharMap) (starts : list Z) (cChar nRange : Z) : Z :=
  if negb (Z.land nRange 1 =? 0) then 0
  else
    let nGlyphIndex := to_int (to_u32 (cChar - (codes m).[nRange])) in
    let nStartIndex := starts.[nRange ÷ 2] in
    if nStartIndex >=? 0 then to_int (nGlyphIndex + nStartIndex)
    else
      match mpGlyphIds m with
      | Some ids => ids.[nGlyphIndex - nStartIndex]
      | None => 0 (* a null [mpGlyphIds]; the parser never leaves one with start glyphs *)
      end.

Definition GetGlyphIndex (m : ImplFontCharMap) (cChar : Z) : Z :=
  match mpStartGlyphs m with
  | None => -1
  | Some starts =>
      let nRange := findRangeIndex m cChar in
      if (nRange =? 0) && (cChar <? (codes m).[0]) then
        let bSymbolic :=
          (cChar <=? 0xFF) && ((codes m).[0] >=? 0xF000) && ((codes m).[1] <=? 0xF0FF) in
        if negb bSymbolic then 0
        else
          let cChar := Z.lor cChar 0xF000 in
          let nRange := findRangeIndex m cChar in
          if (nRange =? 0) && (cChar <? (codes m).[0]) then 0
          else glyph_in_range m starts cChar nRange
      else glyph_in_range m starts cChar nRange
  end.

Definition HasChar (m : ImplFontCharMap) (cChar : Z) : bool :=
  match mpStartGlyphs m with
  | None =>
      let nRange := findRangeIndex m cChar in
      if (nRange =? 0) && (cChar <? (codes m).[0]) then false
      else Z.land nRange 1 =? 0
  | Some _ => negb (GetGlyphIndex m cChar =? 0)
  end.

Definition GetCharCount (m : ImplFontCharMap) : Z := mnCharCount m.

Definition GetFirstChar (m : ImplFontCharMap) : Z := (codes m).[0].

Definition GetLastChar (m : ImplFontCharMap) : Z :=
  to_u32 ((codes m).[2 * mnRangeCount m - 1] - 1).

Fixpoint GetIndexFromChar_loop (n : nat) (rc : list Z) (cChar pRange nCharIndex : Z) : Z :=
  match n with
  | O => -1
  | S n' =>
      let cFirst := rc.[pRange] in
      let cLast := rc.[pRange + 1] in
      if cChar >=? cLast then
        GetIndexFromChar_loop n' rc cChar (pRange + 2)
          (to_int (nCharIndex + to_u32 (cLast - cFirst)))
      else if cChar >=? cFirst then to_int (nCharIndex + to_u32 (cChar - cFirst))
      else -1
  end.

Definition GetIndexFromChar (m : ImplFontCharMap) (cChar : Z) : Z :=
  GetIndexFromChar_loop (Z.to_nat (mnRangeCount m)) (codes m) cChar 0 0.

Fixpoint GetCharFromIndex_loop (n : nat) (rc : list Z) (pRange nIndex : Z) : Z :=
  match n with
  | O => rc.[0]
  | S n' =>
      let cFirst := rc.[pRange] in
      let cLast := rc.[pRange + 1] in
      let nIndex' := to_int (nIndex - to_u32 (cLast - cFirst)) in
      if nIndex' <? 0 then to_u32 (cLast + nIndex')
      else GetCharFromIndex_loop n' rc (pRange + 2) nIndex'
  end.

Definition GetCharFromIndex (m : ImplFontCharMap) (nIndex : Z) : Z :=
  GetCharFromIndex_loop (Z.to_nat (mnRangeCount m)) (codes m) 0 nIndex.

(** [FontCharMap::IsDefaultMap] and [FontCharMap::isSymbolic]. *)
Definition IsDefaultMap (m : ImplFontCharMap) : bool := isDefaultMap m.
Definition isSymbolic (m : ImplFontCharMap) : bool := m_bSymbolic m.

(** [for (i = nRangeMin; i <= nRangeMax; i += 2)] of [CountCharsInRange];
    every turn moves [i] up, [fuel] bounds the number of turns. *)
Fixpoint CountCharsInRange_loop (fuel : nat) (rc : list Z) (i nRangeMax nCount : Z) : Z :=
  match fuel with
  | O => nCount
  | S fuel' =>
      if i <=? nRangeMax then
        CountCharsInRange_loop fuel' rc (i + 2) nRangeMax
          (to_int (nCount + to_u32 (rc.[i + 1] - rc.[i])))
      else nCount
  end.

Definition CountCharsInRange (m : ImplFontCharMap) (cMin cMax : Z) : Z :=
  let nCount := 0 in
  (* find and adjust range and char count for cMin *)
  let nRangeMin := findRangeIndex m cMin in
  let bMinOdd := negb (Z.land nRangeMin 1 =? 0) in
  let nCount :=
    if bMinOdd then nCount
    else if cMin >? (codes m).[nRangeMin]
         then to_int (nCount - to_u32 (cMin - (codes m).[nRangeMin]))
         else nCount in
  let nRangeMin := if bMinOdd then nRangeMin + 1 else nRangeMin in
  (* find and adjust range and char count for cMax *)
  let nRangeMax := findRangeIndex m cMax in
  let bMaxOdd := negb (Z.land nRangeMax 1 =? 0) in
  let nCount :=
    if bMaxOdd then nCount
    else to_int (nCount - to_u32 ((codes m).[nRangeMax + 1] - cMax - 1)) in
  let nRangeMax := if bMaxOdd then nRangeMax - 1 else nRangeMax in
  (* count chars in complete ranges between cMin and cMax *)
  CountCharsInRange_loop (Z.to_nat (nRangeMax - nRangeMin + 2)) (codes m)
    nRangeMin nRangeMax nCount.

Definition GetNextChar (m : ImplFontCharMap) (cChar : Z) : Z :=
  if cChar <? GetFirstChar m then GetFirstChar m
  else if cChar >=? GetLastChar m then GetLastChar m
  else
    let nRange := findRangeIndex m (to_u32 (cChar + 1)) in
    if negb (Z.land nRange 1 =? 0) then (codes m).[nRange + 1]
    else to_u32 (cChar + 1).

Definition GetPrevChar (m : ImplFontCharMap) (cChar : Z) : Z :=
  if cChar <=? GetFirstChar m then GetFirstChar m
  else if cChar >? GetLastChar m then GetLastChar m
  else
    let nRange := findRangeIndex m (to_u32 (cChar - 1)) in
    if negb (Z.land nRange 1 =? 0) then to_u32 ((codes m).[nRange] - 1)
    else to_u32 (cChar - 1).

End FontCharMap.

(** ** The big-endian readers *)

Notation "x <- e ;; k" := (match e with Some x => k | None => None end)
  (at level 61, e at next level, right associativity, only parsing).

Module Reader.

(** [p[off]]: [None] when [off] is outside of the buffer. *)
Definition byte_at (pCmap : list byte) (off : Z) : option Z :=
  if off <? 0 then None
  else option_map (fun b => Z.of_N (Byte.to_N b)) (nth_error pCmap (Z.to_nat off)).

Definition GetUInt (pCmap : list byte) (p : Z) : option Z :=
  b0 <- byte_at pCmap p ;;
  b1 <- byte_at pCmap (p + 1) ;;
  b2 <- byte_at pCmap (p + 2) ;;
  b3 <- byte_at pCmap (p + 3) ;;
  Some (to_u32 (Z.shiftl b0 24 + Z.shiftl b1 16 + Z.shiftl b2 8 + b3)).

Definition GetUShort (pCmap : list byte) (p : Z) : option Z :=
  b0 <- byte_at pCmap p ;;
  b1 <- byte_at pCmap (p + 1) ;;
  Some (Z.lor (Z.shiftl b0 8) b1).

Definition GetSShort (pCmap : list byte) (p : Z) : option Z :=
  b0 <- byte_at pCmap p ;;
  b1 <- byte_at pCmap (p + 1) ;;
  Some (to_s16 (Z.lor (Z.shiftl b0 8) b1)).

(** A table written as a list of byte values. *)
Definition bytes_of (l : list Z) : list byte :=
  map (fun z => match Byte.of_N (Z.to_N z) with Some b => b | None => x00 end) l.

End Reader.
Import Reader.

(** ** The text converter of the runtime library

    [rtl_createTextToUnicodeConverter], [rtl_createTextToUnicodeContext]
    and [rtl_convertTextToUnicode] belong to the runtime library, not to
    this file: the parser takes them as a parameter.  A handle stands for
    the converter together with its context; creation yields [None] when
    one of the two is null. *)

Inductive rtl_TextEncoding : Type :=
| RTL_TEXTENCODING_UNICODE
| RTL_TEXTENCODING_SHIFT_JIS
| RTL_TEXTENCODING_GB_18030
| RTL_TEXTENCODING_BIG5
| RTL_TEXTENCODING_MS_949
| RTL_TEXTENCODING_MS_1361.

Definition is_unicode (e : rtl_TextEncoding) : bool :=
  match e with RTL_TEXTENCODING_UNICODE => true | _ => false end.

Record TextToUnicode : Type := mkTextToUnicode {
  cvt_handle : Type;
  rtl_createTextToUnicodeConverter : rtl_TextEncoding -> option cvt_handle;
  rtl_convertTextToUnicode : cvt_handle -> list Z -> list Z * cvt_handle
}.

(** ** ParseCMAP *)

Module Parser.

(** The state of the search for the most interesting subtable. *)
Record Selection : Type := mkSelection {
  eRecodeFrom : rtl_TextEncoding;
  nOffset : Z;
  nFormat : Z;
  nBestVal : Z;
  mbSymbolic : bool
}.

Definition Selection0 : Selection :=
  mkSelection RTL_TEXTENCODING_UNICODE 0 (-1) 0 false.

(** The [switch (nPlatformEncoding)]: the value, the encoding to recode
    from, and whether the case sets [rResult.mbSymbolic]. *)
Definition platform_encoding (nPlatformEncoding : Z) : Z * rtl_TextEncoding * bool :=
  if nPlatformEncoding =? 0x000 then (20, RTL_TEXTENCODING_UNICODE, false)
  else if nPlatformEncoding =? 0x001 then (21, RTL_TEXTENCODING_UNICODE, false)
  else if nPlatformEncoding =? 0x002 then (22, RTL_TEXTENCODING_UNICODE, false)
  else if nPlatformEncoding =? 0x003 then (23, RTL_TEXTENCODING_UNICODE, false)
  else if nPlatformEncoding =? 0x004 then (24, RTL_TEXTENCODING_UNICODE, false)
  else if nPlatformEncoding =? 0x100 then (22, RTL_TEXTENCODING_UNICODE, false)
  else if nPlatformEncoding =? 0x103 then (23, RTL_TEXTENCODING_UNICODE, false)
  else if nPlatformEncoding =? 0x300 then (5, RTL_TEXTENCODING_UNICODE, true)
  else if nPlatformEncoding =? 0x301 then (28, RTL_TEXTENCODING_UNICODE, false)
  else if nPlatformEncoding =? 0x30A then (29, RTL_TEXTENCODING_UNICODE, false)
  else if nPlatformEncoding =? 0x302 then (11, RTL_TEXTENCODING_SHIFT_JIS, false)
  else if nPlatformEncoding =? 0x303 then (12, RTL_TEXTENCODING_GB_18030, false)
  else if nPlatformEncoding =? 0x304 then (11, RTL_TEXTENCODING_BIG5, false)
  else if nPlatformEncoding =? 0x305 then (11, RTL_TEXTENCODING_MS_949, false)
  else if nPlatformEncoding =? 0x306 then (11, RTL_TEXTENCODING_MS_1361, false)
  else (0, RTL_TEXTENCODING_UNICODE, false).

Definition set_symbolic (b : bool) (st : Selection) : Selection :=
  if b then mkSelection (eRecodeFrom st) (nOffset st) (nFormat st) (nBestVal st) true
  else st.

Definition take_best (st : Selection) (nValue nTmpOffset nTmpFormat : Z)
    (eTmpEncoding : rtl_TextEncoding) : Selection :=
  if nBestVal st <? nValue then
    mkSelection eTmpEncoding nTmpOffset nTmpFormat nValue (mbSymbolic st)
  else st.

(** One turn of the loop over the subtable records; [p] is the offset of
    the record. *)
Definition select_step (pCmap : list byte) (nLength : Z) (p : Z) (st : Selection)
    : option Selection :=
  nPlatform <- GetUShort pCmap p ;;
  nEncoding <- GetUShort pCmap (p + 2) ;;
  let nPlatformEncoding := Z.shiftl nPlatform 8 + nEncoding in
  let '(nValue, eTmpEncoding, bSym) := platform_encoding nPlatformEncoding in
  let st := set_symbolic bSym st in
  if nValue <=? 0 then Some st
  else
    u <- GetUInt pCmap (p + 4) ;;
    let nTmpOffset := to_int u in
    if (nTmpOffset >? nLength - 2) || (nTmpOffset <? 0) then Some st
    else
      nTmpFormat <- GetUShort pCmap nTmpOffset ;;
      if nTmpFormat =? 12 then
        Some (take_best st (nValue + 3) nTmpOffset nTmpFormat eTmpEncoding)
      else if negb (nTmpFormat =? 4) then Some st
      else Some (take_best st nValue nTmpOffset nTmpFormat eTmpEncoding).

(** [for (p = pCmap + 4; --nSubTables >= 0; p += 8)] *)
Fixpoint select_loop (pCmap : list byte) (nLength : Z) (nSubTables : nat) (p : Z)
    (st : Selection) : option Selection :=
  match nSubTables with
  | O => Some st
  | S n =>
      st' <- select_step pCmap nLength p st ;;
      select_loop pCmap nLength n (p + 8) st'
  end.

(** What the decoding of the best subtable leaves: the code pairs written
    through [pCP], the cells of [pStartGlyphs] written so far (cell [i] is
    written in turn [i], so writing is appending) and [aGlyphIdArray]. *)
Record Decoded : Type := mkDecoded {
  nRangeCount : Z;
  pCodePairs : option (list Z);
  pStartGlyphs : option (list Z);
  aGlyphIdArray : list Z
}.

Record SegState : Type := mkSegState {
  seg_pCP : list Z;
  seg_pStartGlyphs : list Z;
  seg_aGlyphIdArray : list Z
}.

(** [for (c = cMinChar; c <= cMaxChar; ++c, pGlyphIdPtr += 2)], [n] turns. *)
Fixpoint glyph_id_loop (pCmap : list byte) (n : nat) (pGlyphIdPtr nGlyphDelta : Z)
    (ids : list Z) : option (list Z) :=
  match n with
  | O => Some ids
  | S n' =>
      v <- GetUShort pCmap pGlyphIdPtr ;;
      let nGlyphIndex := v + nGlyphDelta in
      glyph_id_loop pCmap n' (pGlyphIdPtr + 2) nGlyphDelta (ids ++ [to_u16 nGlyphIndex])
  end.

(** The loop over the segments of a format 4 subtable; a [break] returns
    the state. *)
Fixpoint format4_loop (pCmap : list byte) (nLength : Z)
    (pLimitBase pBeginBase pDeltaBase pOffsetBase : Z)
    (n : nat) (i : Z) (st : SegState) : option SegState :=
  match n with
  | O => Some st
  | S n' =>
      cMinChar <- GetUShort pCmap (pBeginBase + 2 * i) ;;
      cMaxChar <- GetUShort pCmap (pLimitBase + 2 * i) ;;
      nGlyphDelta <- GetSShort pCmap (pDeltaBase + 2 * i) ;;
      nRangeOffset <- GetUShort pCmap (pOffsetBase + 2 * i) ;;
      if cMinChar >? cMaxChar then Some st
      else if cMaxChar =? 0xFFFF then Some st
      else
        let accept (st : SegState) :=
          format4_loop pCmap nLength pLimitBase pBeginBase pDeltaBase pOffsetBase n' (i + 1)
            (mkSegState (seg_pCP st ++ [cMinChar; to_u32 (cMaxChar + 1)])
               (seg_pStartGlyphs st) (seg_aGlyphIdArray st)) in
        if nRangeOffset =? 0 then
          accept (mkSegState (seg_pCP st)
                    (seg_pStartGlyphs st ++ [Z.land (cMinChar + nGlyphDelta) 0xFFFF])
                    (seg_aGlyphIdArray st))
        else
          let st := mkSegState (seg_pCP st)
                      (seg_pStartGlyphs st
                         ++ [- to_int (Z.of_nat (length (seg_aGlyphIdArray st)))])
                      (seg_aGlyphIdArray st) in
          let pGlyphIdPtr := pOffsetBase + 2 * i + nRangeOffset in
          let nRemainingSize := if nLength >=? pGlyphIdPtr then nLength - pGlyphIdPtr else 0 in
          let nMaxPossibleRecords := nRemainingSize ÷ 2 in
          if nMaxPossibleRecords =? 0 then Some st
          else
            let nMaxLegalChar := cMinChar + nMaxPossibleRecords - 1 in
            if cMaxChar >? nMaxLegalChar then Some st
            else
              ids <- glyph_id_loop pCmap (Z.to_nat (cMaxChar - cMinChar + 1)) pGlyphIdPtr
                       nGlyphDelta (seg_aGlyphIdArray st) ;;
              accept (mkSegState (seg_pCP st) (seg_pStartGlyphs st) ids)
  end.

(** The range count a format 4 subtable is decoded with. *)
Definition format4_count (nLength nOffset nSegCountX2 : Z) : Z :=
  let nRangeCount := nSegCountX2 ÷ 2 - 1 in
  let nRangeCount := if nRangeCount <? 0 then 0 else nRangeCount in
  let pOffsetBase := nOffset + 14 + nSegCountX2 + 2 + nSegCountX2 + nSegCountX2 in
  let nOffsetBaseStart := to_int pOffsetBase in
  let nRemainingLen := to_int (nLength - nOffsetBaseStart) in
  let nMaxPossibleRangeOffsets := nRemainingLen ÷ 2 in
  if nRangeCount >? nMaxPossibleRangeOffsets then Z.max 0 nMaxPossibleRangeOffsets
  else nRangeCount.

Definition decode_format4 (pCmap : list byte) (nLength nOffset : Z) : option Decoded :=
  nSegCountX2 <- GetUShort pCmap (nOffset + 6) ;;
  let nRangeCount := format4_count nLength nOffset nSegCountX2 in
  let pLimitBase := nOffset + 14 in
  let pBeginBase := pLimitBase + nSegCountX2 + 2 in
  let pDeltaBase := pBeginBase + nSegCountX2 in
  let pOffsetBase := pDeltaBase + nSegCountX2 in
  st <- format4_loop pCmap nLength pLimitBase pBeginBase pDeltaBase pOffsetBase
          (Z.to_nat nRangeCount) 0 (mkSegState [] [] [0]) ;;
  Some (mkDecoded (Z.of_nat (length (seg_pCP st)) ÷ 2) (Some (seg_pCP st))
          (Some (seg_pStartGlyphs st)) (seg_aGlyphIdArray st)).

(** The loop over the groups of a format 12 subtable. *)
Fixpoint format12_loop (pCmap : list byte) (n : nat) (pGroup : Z)
    (pCP starts : list Z) : option (list Z * list Z) :=
  match n with
  | O => Some (pCP, starts)
  | S n' =>
      cMinChar <- GetUInt pCmap (pGroup + 0) ;;
      cMaxChar <- GetUInt pCmap (pGroup + 4) ;;
      u <- GetUInt pCmap (pGroup + 8) ;;
      let nGlyphId := to_int u in
      if cMinChar >? cMaxChar then Some (pCP, starts)
      else
        format12_loop pCmap n' (pGroup + 12)
          (pCP ++ [cMinChar; to_u32 (cMaxChar + 1)]) (starts ++ [nGlyphId])
  end.

(** The range count a format 12 subtable is decoded with; [nGroups] is the
    32-bit field as read. *)
Definition format12_count (nLength nOffset nGroups : Z) : Z :=
  let nRangeCount := to_int nGroups in
  let nRangeCount := if nRangeCount <? 0 then 0 else nRangeCount in
  let nGroupOffset := to_int (nOffset + 16) in
  let nRemainingLen := to_int (nLength - nGroupOffset) in
  let nMaxPossiblePairs := nRemainingLen ÷ 12 in
  if nRangeCount >? nMaxPossiblePairs then Z.max 0 nMaxPossiblePairs
  else nRangeCount.

Definition decode_format12 (pCmap : list byte) (nLength nOffset : Z) : option Decoded :=
  nGroups <- GetUInt pCmap (nOffset + 12) ;;
  let nRangeCount := format12_count nLength nOffset nGroups in
  let nGroupOffset := to_int (nOffset + 16) in
  r <- format12_loop pCmap (Z.to_nat nRangeCount) nGroupOffset [] [] ;;
  Some (mkDecoded (Z.of_nat (length (fst r)) ÷ 2) (Some (fst r)) (Some (snd r)) [0]).

(** "parse the best CMAP subtable" *)
Definition decode_best (pCmap : list byte) (nLength : Z) (sel : Selection) : option Decoded :=
  if (nFormat sel =? 4) && (to_int (nOffset sel + 16) <? nLength) then
    decode_format4 pCmap nLength (nOffset sel)
  else if (nFormat sel =? 12) && (to_int (nOffset sel + 16) <? nLength) then
    decode_format12 pCmap nLength (nOffset sel)
  else Some (mkDecoded 0 None None [0]).

(** *** Recoding to Unicode *)

Definition NINSIZE : nat := 64.
Definition NOUTSIZE : nat := 64.

(** [static_cast<char>]: the low eight bits. *)
Definition to_char (x : Z) : Z := x mod 2 ^ 8.

(** [o3tl::sorted_vector::insert]: ascending, without duplicates. *)
Fixpoint sorted_insert (x : Z) (v : list Z) : list Z :=
  match v with
  | [] => [x]
  | y :: t =>
      if x <? y then x :: v
      else if x =? y then v
      else y :: sorted_insert x t
  end.

(** [for (j = 0; (cMin < cEnd) && (j < NINSIZE); ++cMin, ++j)], [j] turns left. *)
Fixpoint input_loop (j : nat) (cMin cEnd : Z) (cCharsInp : list Z) : Z * list Z :=
  match j with
  | O => (cMin, cCharsInp)
  | S j' =>
      if cMin <? cEnd then
        let inp := if cMin >=? 0x0100 then cCharsInp ++ [to_char (Z.shiftr cMin 8)]
                   else cCharsInp in
        let inp := if (cMin >=? 0x0100) || (cMin <? 0x00A0) then inp ++ [to_char cMin]
                   else inp in
        input_loop j' (cMin + 1) cEnd inp
      else (cMin, cCharsInp)
  end.

(** [std::vector::back], and the assignment to it. *)
Definition back (v : list Z) : Z := last v 0.
Definition set_back (v : list Z) (x : Z) : list Z := removelast v ++ [x].

(** "convert the set of supported code points to ranges" *)
Fixpoint supported_ranges (points : list Z) (aSupportedRanges : list Z) : list Z :=
  match points with
  | [] => aSupportedRanges
  | supportedPoint :: rest =>
      let v :=
        if (match aSupportedRanges with [] => true | _ => false end)
           || negb (back aSupportedRanges =? supportedPoint)
        then aSupportedRanges ++ [supportedPoint; 0]
        else aSupportedRanges in
      supported_ranges rest (set_back v (to_u32 (supportedPoint + 1)))
  end.

Section WithConverter.

Variable cv : TextToUnicode.

(** [while (cMin < cEnd && cMin <= SAL_MAX_UINT16)]: every turn moves [cMin]
    up, [fuel] bounds the number of turns.  [cCharsOut] is an array of
    [NOUTSIZE] cells of 16 bits. *)
Fixpoint convert_loop (fuel : nat) (h : cvt_handle cv) (cMin cEnd : Z)
    (aSupportedCodePoints : list Z) : list Z * cvt_handle cv :=
  match fuel with
  | O => (aSupportedCodePoints, h)
  | S fuel' =>
      if (cMin <? cEnd) && (cMin <=? SAL_MAX_UINT16) then
        let '(cMin', cCharsInp) := input_loop NINSIZE cMin cEnd [] in
        let '(out, h') := rtl_convertTextToUnicode cv h cCharsInp in
        let cCharsOut := firstn NOUTSIZE (map to_u16 out) in
        convert_loop fuel' h' cMin' cEnd
          (fold_left (fun v c => sorted_insert c v) cCharsOut aSupportedCodePoints)
      else (aSupportedCodePoints, h)
  end.

(** The loop over the decoded ranges, [pCP] walking over the code pairs. *)
Fixpoint recode_loop (n : nat) (h : cvt_handle cv) (pairs : list Z) (pCP : Z)
    (aSupportedCodePoints : list Z) : list Z :=
  match n with
  | O => aSupportedCodePoints
  | S n' =>
      let cMin := pairs.[pCP] in
      let cEnd := pairs.[pCP + 1] in
      let '(points, h') :=
        convert_loop (Z.to_nat (Z.min cEnd (SAL_MAX_UINT16 + 1) - cMin)) h cMin cEnd
          aSupportedCodePoints in
      recode_loop n' h' pairs (pCP + 2) points
  end.

Definition array_of (p : option (list Z)) : list Z :=
  match p with Some l => l | None => [] end.

(** [ParseCMAP] from "check if any subtable resulted in something usable". *)
Definition finish (sel : Selection) (dec : Decoded) : bool * CmapResult :=
  if nRangeCount dec <=? 0 then
    if mbSymbolic sel then
      (true, mkCmapResult (codes_new [0x0020; 0x0100; 0xF020; 0xF100]) None None 2 true false)
    else (false, mkCmapResult codes_null None None 0 false false)
  else
    let mbRecoded := negb (is_unicode (eRecodeFrom sel)) in
    let aConverter :=
      if mbRecoded then rtl_createTextToUnicodeConverter cv (eRecodeFrom sel) else None in
    match aConverter with
    | Some h =>
        let aSupportedCodePoints :=
          recode_loop (Z.to_nat (nRangeCount dec)) h (array_of (pCodePairs dec)) 0 [] in
        let aSupportedRanges := supported_ranges aSupportedCodePoints [] in
        let nRangeCount := Z.of_nat (length aSupportedRanges) ÷ 2 in
        if nRangeCount <=? 0 then
          (false, mkCmapResult codes_null None None 0 (mbSymbolic sel) mbRecoded)
        else
          (true, mkCmapResult (codes_new aSupportedRanges) None None nRangeCount
                   (mbSymbolic sel) mbRecoded)
    | None =>
        (true, mkCmapResult (codes_new (array_of (pCodePairs dec))) (pStartGlyphs dec)
                 (match aGlyphIdArray dec with [] => None | ids => Some ids end)
                 (nRangeCount dec) (mbSymbolic sel) mbRecoded)
    end.

(** What [rResult] is reset to at the entry. *)
Definition rResult0 : CmapResult := mkCmapResult codes_null None None 0 false false.

(** "parse the table header and check for validity": the buffer and the
    subtable count when the header passes. *)
Definition check_header (pCmap : option (list byte)) (nLength : Z)
    : option (option (list byte * Z)) :=
  match pCmap with
  | None => Some None
  | Some buf =>
      if nLength <? 24 then Some None
      else
        version <- GetUShort buf 0 ;;
        if negb (version =? 0x0000) then Some None
        else
          nSubTables <- GetUShort buf 2 ;;
          if (nSubTables <=? 0) || (nSubTables >? (nLength - 24) ÷ 8) then Some None
          else Some (Some (buf, nSubTables))
  end.

(** The selection and the decoding of the best subtable. *)
Definition decode_stage (buf : list byte) (nLength nSubTables : Z)
    : option (Selection * Decoded) :=
  sel <- select_loop buf nLength (Z.to_nat nSubTables) 4 Selection0 ;;
  dec <- decode_best buf nLength sel ;;
  Some (sel, dec).

(** [bool ParseCMAP(pCmap, nLength, rResult)]: the returned flag with the
    final [rResult]; [None] when a read left the buffer. *)
Definition ParseCMAP (pCmap : option (list byte)) (nLength : Z) : option (bool * CmapResult) :=
  hdr <- check_header pCmap nLength ;;
  match hdr with
  | None => Some (false, rResult0)
  | Some (buf, nSubTables) =>
      sd <- decode_stage buf nLength nSubTables ;;
      Some (finish (fst sd) (snd sd))
  end.

End WithConverter.

End Parser.

(** ** The default maps and their handles

    [ImplFontCharMapRef] and [FontCharMapRef] are intrusive reference
    counting pointers.  The store keeps the live [ImplFontCharMap] objects
    with their reference counts; [new] takes an address above every live
    one, and an object whose count drops to zero leaves the store. *)

Module DefaultMap.

(** The object [getDefaultMap] constructs. *)
Definition default_map (bSymbols : bool) : ImplFontCharMap :=
  let pRangeCodes := if bSymbols then codes_aDefaultSymbolRanges
                     else codes_aDefaultUnicodeRanges in
  let nCodesCount := Z.of_nat (length (deref pRangeCodes)) in
  ImplFontCharMap_ctor (CmapResult_ctor bSymbols pRangeCodes (nCodesCount ÷ 2)).

Definition addr : Type := nat.

Record World : Type := mkWorld {
  heap : list (addr * (ImplFontCharMap * nat));
  g_pDefaultImplFontCharMap : option addr
}.

Definition World0 : World := mkWorld [] None.

Definition keys (h : list (addr * (ImplFontCharMap * nat))) : list addr := map fst h.

Definition lookup (a : addr) (h : list (addr * (ImplFontCharMap * nat)))
    : option (ImplFontCharMap * nat) :=
  option_map snd (find (fun e => Nat.eqb (fst e) a) h).

Definition fresh (h : list (addr * (ImplFontCharMap * nat))) : addr :=
  fold_right (fun e a => Nat.max (S (fst e)) a) O h.

(** Copying a reference. *)
Definition acquire (a : addr) (h : list (addr * (ImplFontCharMap * nat)))
    : list (addr * (ImplFontCharMap * nat)) :=
  map (fun e => if Nat.eqb (fst e) a then (fst e, (fst (snd e), S (snd (snd e)))) else e) h.

(** Dropping a reference; the last one destroys the object. *)
Fixpoint release (a : addr) (h : list (addr * (ImplFontCharMap * nat)))
    : list (addr * (ImplFontCharMap * nat)) :=
  match h with
  | [] => []
  | e :: t =>
      if Nat.eqb (fst e) a then
        match snd (snd e) with
        | S (S n) => (fst e, (fst (snd e), S n)) :: release a t
        | _ => release a t
        end
      else e :: release a t
  end.

(** [ImplFontCharMap::getDefaultMap]: a new object is constructed, the
    global reference is assigned to it (which drops the reference the global
    held before), and the global is returned. *)
Definition getDefaultMap (bSymbols : bool) (w : World) : addr * World :=
  let a := fresh (heap w) in
  let h := (a, (default_map bSymbols, 1%nat)) :: heap w in
  let h := match g_pDefaultImplFontCharMap w with
           | Some old => release old h
           | None => h
           end in
  (a, mkWorld h (Some a)).

(** A [FontCharMap] object: its reference to the implementation. *)
Record FontCharMapObj : Type := mkFontCharMap { mpImplFontCharMap : addr }.

(** [FontCharMap::GetDefaultMap]: the constructor of the new [FontCharMap]
    takes a copy of the global reference. *)
Definition GetDefaultMap (bSymbol : bool) (w : World) : FontCharMapObj * World :=
  let '(a, w1) := getDefaultMap bSymbol w in
  (mkFontCharMap a, mkWorld (acquire a (heap w1)) (g_pDefaultImplFontCharMap w1)).

(** The global reference, when set, refers to a live object. *)
Definition wf_world (w : World) : Prop :=
  match g_pDefaultImplFontCharMap w with
  | Some a => In a (keys (heap w))
  | None => True
  end.

End DefaultMap.

(** ** Predicates of the statements *)

Module Spec.
Import FontCharMap Parser.

Definition strictly_increasing (l : list Z) : Prop :=
  forall i, 0 <= i -> i + 1 < Z.of_nat (length l) -> l.[i] < l.[i + 1].

(** The Range Table invariant of a map. *)
Definition wf_ranges (m : ImplFontCharMap) : Prop :=
  1 <= mnRangeCount m /\
  Z.of_nat (length (codes m)) = 2 * mnRangeCount m /\
  strictly_increasing (codes m).

(** All boundaries are code points an [int] holds. *)
Definition codes_fit_int (m : ImplFontCharMap) : Prop :=
  0 <= (codes m).[0] /\ (codes m).[2 * mnRangeCount m - 1] < 2 ^ 31.

Definition in_range (m : ImplFontCharMap) (c k : Z) : Prop :=
  0 <= k < mnRangeCount m /\ (codes m).[2 * k] <= c < (codes m).[2 * k + 1].

Definition in_gap_after (m : ImplFontCharMap) (c k : Z) : Prop :=
  0 <= k < mnRangeCount m /\ (codes m).[2 * k + 1] <= c /\
  (k = mnRangeCount m - 1 \/ c < (codes m).[2 * k + 2]).

Definition outside_every_range (m : ImplFontCharMap) (c : Z) : Prop :=
  forall k, ~ in_range m c k.

(** A list of code pairs, each pair related by [P]. *)
Inductive code_pairs (P : Z -> Z -> Prop) : list Z -> Prop :=
| code_pairs_nil : code_pairs P []
| code_pairs_cons a b l : P a b -> code_pairs P l -> code_pairs P (a :: b :: l).

(** The invariant of [aSupportedCodePoints]: ascending without duplicates,
    every element a 16-bit unit. *)
Definition sorted_units (v : list Z) : Prop :=
  StronglySorted Z.lt v /\ Forall (fun x => 0 <= x < 65536) v.

(** The selection holds an offset inside of the buffer. *)
Definition selection_in_bounds (nLength : Z) (st : Selection) : Prop :=
  0 <= nOffset st <= nLength - 2.

(** The buffer has [nLength] bytes. *)
Definition buffer_of_length (pCmap : option (list byte)) (nLength : Z) : Prop :=
  match pCmap with
  | Some buf => Z.of_nat (length buf) = nLength
  | None => True
  end.

(** [nOffset + 16] does not overflow [int] for an offset of the buffer: the
    offsets the parser accepts are at most [nLength - 2]. *)
Definition offsets_fit_int (nLength : Z) : Prop := nLength - 2 + 16 <= INT_MAX.

Definition header_violation (pCmap : option (list byte)) (nLength : Z) : Prop :=
  match pCmap with
  | None => True
  | Some buf =>
      nLength < 24 \/
      GetUShort buf 0 <> Some 0 \/
      exists n, GetUShort buf 2 = Some n /\ (n <= 0 \/ n > (nLength - 24) / 8)
  end.

(** The parse went through the recoding block. *)
Definition recoded_by (cv : TextToUnicode) (sel : Selection) : Prop :=
  is_unicode (eRecodeFrom sel) = false /\
  exists h, rtl_createTextToUnicodeConverter cv (eRecodeFrom sel) = Some h.

(** The state of the search for the best subtable: nothing selected yet, or
    a subtable of format 4 or 12 whose format field, at the selected offset
    inside of the buffer, is the selected format. *)
Definition selected_subtable (buf : list byte) (nLength : Z) (st : Selection) : Prop :=
  (nFormat st = -1 /\ nBestVal st = 0 /\ nOffset st = 0 /\
   eRecodeFrom st = RTL_TEXTENCODING_UNICODE) \/
  ((nFormat st = 4 \/ nFormat st = 12) /\ 5 <= nBestVal st <= 32 /\
   0 <= nOffset st <= nLength - 2 /\
   GetUShort buf (nOffset st) = Some (nFormat st)).

(** The subtable record [i] of the header is eligible for the selection:
    its platform and encoding have a value above 0, its offset lies inside
    of the buffer with two bytes left, and the subtable there is of format
    4 or 12.  [nValue] is the value it competes with (3 more for format
    12), [nTmpOffset] and [nTmpFormat] its offset and format, [e] the
    encoding to recode from. *)
Definition eligible_record (buf : list byte) (nLength i : Z)
    (nValue nTmpOffset nTmpFormat : Z) (e : rtl_TextEncoding) : Prop :=
  exists nPlatform nEncoding u nValue0 bSym,
    GetUShort buf (4 + 8 * i) = Some nPlatform /\
    GetUShort buf (4 + 8 * i + 2) = Some nEncoding /\
    platform_encoding (Z.shiftl nPlatform 8 + nEncoding) = (nValue0, e, bSym) /\
    0 < nValue0 /\
    GetUInt buf (4 + 8 * i + 4) = Some u /\
    nTmpOffset = to_int u /\ 0 <= nTmpOffset <= nLength - 2 /\
    GetUShort buf nTmpOffset = Some nTmpFormat /\
    (nTmpFormat = 4 \/ nTmpFormat = 12) /\
    nValue = nValue0 + (if nTmpFormat =? 12 then 3 else 0).

(** What the search over the records [0 .. n - 1] leaves: no eligible
    record has a value above the best value; and either nothing is
    selected, or the selection is the first eligible record of the best
    value.  A record that is not eligible has no part in it. *)
Definition best_eligible_record (buf : list byte) (nLength n : Z) (sel : Selection) : Prop :=
  (forall i v off fmt e,
     0 <= i < n -> eligible_record buf nLength i v off fmt e -> v <= nBestVal sel) /\
  ((nBestVal sel = 0 /\ nFormat sel = -1 /\ nOffset sel = 0 /\
    eRecodeFrom sel = RTL_TEXTENCODING_UNICODE) \/
   exists i,
     0 <= i < n /\
     eligible_record buf nLength i (nBestVal sel) (nOffset sel) (nFormat sel)
       (eRecodeFrom sel) /\
     forall j v off fmt e,
       0 <= j < i -> eligible_record buf nLength j v off fmt e -> v < nBestVal sel).

(** The segment [k] of a format 4 subtable is accepted: its first code is
    not above its last code [cMax], which is not [0xFFFF], and with a range
    offset other than 0 its glyph ids, one cell of two bytes per code
    point, end inside of the buffer. *)
Definition accepted_segment (buf : list byte) (nLength : Z)
    (pLimitBase pBeginBase pOffsetBase k cMin cMax : Z) : Prop :=
  GetUShort buf (pBeginBase + 2 * k) = Some cMin /\
  GetUShort buf (pLimitBase + 2 * k) = Some cMax /\
  cMin <= cMax /\ cMax <> 0xFFFF /\
  exists nRangeOffset,
    GetUShort buf (pOffsetBase + 2 * k) = Some nRangeOffset /\
    (nRangeOffset = 0 \/
     pOffsetBase + 2 * k + nRangeOffset + 2 * (cMax - cMin + 1) <= nLength).

(** The segment [k] is offending: one of the conditions of
    [accepted_segment] fails. *)
Definition offending_segment (buf : list byte) (nLength : Z)
    (pLimitBase pBeginBase pOffsetBase k : Z) : Prop :=
  exists cMin cMax nRangeOffset,
    GetUShort buf (pBeginBase + 2 * k) = Some cMin /\
    GetUShort buf (pLimitBase + 2 * k) = Some cMax /\
    GetUShort buf (pOffsetBase + 2 * k) = Some nRangeOffset /\
    (cMax < cMin \/ cMax = 0xFFFF \/
     (nRangeOffset <> 0 /\
      nLength < pOffsetBase + 2 * k + nRangeOffset + 2 * (cMax - cMin + 1))).

(** What the decoding of the format 4 subtable at [nOffset] leaves: the
    count used is the declared count [segCountX2 / 2 - 1], or the number of
    range offset cells the buffer holds where that is less; the ranges are
    those of the accepted segments before the first offending one. *)
Definition truncated_format4 (buf : list byte) (nLength nOffset : Z) (dec : Decoded)
    : Prop :=
  exists nSegCountX2 pairs,
    GetUShort buf (nOffset + 6) = Some nSegCountX2 /\
    pCodePairs dec = Some pairs /\
    let nDeclared := Z.max 0 (nSegCountX2 ÷ 2 - 1) in
    let pLimitBase := nOffset + 14 in
    let pBeginBase := pLimitBase + nSegCountX2 + 2 in
    let pOffsetBase := pBeginBase + nSegCountX2 + nSegCountX2 in
    let nUsed := Z.min nDeclared (Z.max 0 ((nLength - pOffsetBase) ÷ 2)) in
    0 <= nRangeCount dec <= nUsed /\
    Z.of_nat (length pairs) = 2 * nRangeCount dec /\
    (forall k, 0 <= k < nRangeCount dec ->
       exists cMin cMax,
         accepted_segment buf nLength pLimitBase pBeginBase pOffsetBase k cMin cMax /\
         pairs.[2 * k] = cMin /\ pairs.[2 * k + 1] = cMax + 1) /\
    (nRangeCount dec < nUsed ->
       offending_segment buf nLength pLimitBase pBeginBase pOffsetBase (nRangeCount dec)).

(** What the decoding of the format 12 subtable at [nOffset] leaves: the
    count used is the declared group count (0 when it is negative as an
    [int]), or the number of groups the buffer holds where that is less;
    the ranges are those of the groups before the first one whose first
    code is above its last code. *)
Definition truncated_format12 (buf : list byte) (nLength nOffset : Z) (dec : Decoded)
    : Prop :=
  exists nGroups pairs,
    GetUInt buf (nOffset + 12) = Some nGroups /\
    pCodePairs dec = Some pairs /\
    let nDeclared := Z.max 0 (to_int nGroups) in
    let nUsed := Z.min nDeclared (Z.max 0 ((nLength - (nOffset + 16)) ÷ 12)) in
    0 <= nRangeCount dec <= nUsed /\
    Z.of_nat (length pairs) = 2 * nRangeCount dec /\
    (forall k, 0 <= k < nRangeCount dec ->
       exists cMin cMax,
         GetUInt buf (nOffset + 16 + 12 * k) = Some cMin /\
         GetUInt buf (nOffset + 16 + 12 * k + 4) = Some cMax /\
         cMin <= cMax /\
         pairs.[2 * k] = cMin /\ pairs.[2 * k + 1] = to_u32 (cMax + 1)) /\
    (nRangeCount dec < nUsed ->
       exists cMin cMax,
         GetUInt buf (nOffset + 16 + 12 * nRangeCount dec) = Some cMin /\
         GetUInt buf (nOffset + 16 + 12 * nRangeCount dec + 4) = Some cMax /\
         cMax < cMin).

(** [nPlatformEncoding] of the subtable record at the offset [p]. *)
Definition record_key (buf : list byte) (p : Z) : option Z :=
  nPlatform <- GetUShort buf p ;;
  nEncoding <- GetUShort buf (p + 2) ;;
  Some (Z.shiftl nPlatform 8 + nEncoding).

(** The bytes a code point is handed to the converter as: both bytes from
    [0x0100] on, the low byte below [0x00A0], nothing in between. *)
Definition input_bytes (c : Z) : list Z :=
  if c >=? 0x0100 then [to_char (Z.shiftr c 8); to_char c]
  else if c <? 0x00A0 then [to_char c]
  else [].

(** The [n] code points from [lo] on. *)
Definition code_points (lo : Z) (n : nat) : list Z :=
  map (fun i => lo + Z.of_nat i) (seq 0 n).

(** [x] lies in one of the half-open ranges of a flat boundary array. *)
Definition covered_by (l : list Z) (x : Z) : Prop :=
  exists k, 0 <= k /\ 2 * k + 1 < Z.of_nat (length l) /\ l.[2 * k] <= x < l.[2 * k + 1].

(** Every range has a Glyph Origin: a direct one of 16 bits, or an indirect
    one whose cells, one per code point of the range, lie inside of the
    glyph id table behind its cell 0. *)
Definition origins_in_table (pairs starts : list Z) (nIds : Z) : Prop :=
  forall k, 0 <= k -> 2 * k + 1 < Z.of_nat (length pairs) ->
    k < Z.of_nat (length starts) /\
    (0 <= starts.[k] <= 0xFFFF \/
     (1 <= - starts.[k] /\ - starts.[k] + (pairs.[2 * k + 1] - pairs.[2 * k]) <= nIds)).

(** [c] is a code point of one of the ranges. *)
Definition covered (m : ImplFontCharMap) (c : Z) : Prop := exists k, in_range m c k.

(** [f lo + f (lo + 1) + ... ], [n] summands. *)
Fixpoint zsum (f : Z -> Z) (lo : Z) (n : nat) : Z :=
  match n with
  | O => 0
  | S n' => f lo + zsum f (lo + 1) n'
  end.

(** The number of code points of the range [k]. *)
Definition range_width (m : ImplFontCharMap) (k : Z) : Z :=
  (codes m).[2 * k + 1] - (codes m).[2 * k].

(** The number of code points of the range [k] inside of [cMin .. cMax]. *)
Definition covered_in (m : ImplFontCharMap) (cMin cMax k : Z) : Z :=
  Z.max 0 (Z.min ((codes m).[2 * k + 1] - 1) cMax - Z.max (codes m).[2 * k] cMin + 1).

(** The number of code points of the map inside of [cMin .. cMax]. *)
Definition covered_count (m : ImplFontCharMap) (cMin cMax : Z) : Z :=
  zsum (covered_in m cMin cMax) 0 (Z.to_nat (mnRangeCount m)).

(** The number of code points of the map. *)
Definition total_count (m : ImplFontCharMap) : Z :=
  zsum (range_width m) 0 (Z.to_nat (mnRangeCount m)).

End Spec.

(** ** Sample tables and converters *)

Module Samples.
Import Parser.

(** A converter that hands every input byte back as one unit. *)
Definition bytewise : TextToUnicode :=
  mkTextToUnicode unit (fun _ => Some tt) (fun h inp => (inp, h)).

(** One subtable (Windows, UCS-2) of format 4 with [segCountX2 = 4]: the
    segment [0x41..0x41], delta 0, range offset 0, and the final segment
    [0xFFFF..0xFFFF]. *)
Definition table_A : list byte := bytes_of
  [0;0; 0;1;  0;3; 0;1; 0;0;0;12;
   0;4; 0;32; 0;0; 0;4; 0;4; 0;1; 0;0;
   0;0x41; 0xFF;0xFF;  0;0;  0;0x41; 0xFF;0xFF;  0;0; 0;1;  0;0; 0;0].

(** The same subtable declaring the one segment only, [segCountX2 = 2]. *)
Definition table_A_single : list byte := bytes_of
  [0;0; 0;1;  0;3; 0;1; 0;0;0;12;
   0;4; 0;24; 0;0; 0;2; 0;2; 0;0; 0;0;
   0;0x41;  0;0;  0;0x41;  0;0;  0;0].

(** [table_A_single] under the Windows Symbol encoding. *)
Definition table_symbol : list byte := bytes_of
  [0;0; 0;1;  0;3; 0;0; 0;0;0;12;
   0;4; 0;24; 0;0; 0;2; 0;2; 0;0; 0;0;
   0;0x41;  0;0;  0;0x41;  0;0;  0;0].

(** Windows UCS-2, format 4: the segment [0xF020..0xF07F] with delta
    [0x0FE1], so that the glyph of [0xF020] is 1, and the final segment. *)
Definition table_pua : list byte := bytes_of
  [0;0; 0;1;  0;3; 0;1; 0;0;0;12;
   0;4; 0;32; 0;0; 0;4; 0;4; 0;1; 0;0;
   0xF0;0x7F; 0xFF;0xFF;  0;0;  0xF0;0x20; 0xFF;0xFF;  0x0F;0xE1; 0;1;  0;0; 0;0].

(** Windows UCS-2, format 4: the segments [0x50..0x50] and [0x41..0x41], in
    this order, and the final segment. *)
Definition table_unsorted : list byte := bytes_of
  [0;0; 0;1;  0;3; 0;1; 0;0;0;12;
   0;4; 0;40; 0;0; 0;6; 0;4; 0;1; 0;2;
   0;0x50; 0;0x41; 0xFF;0xFF;  0;0;  0;0x50; 0;0x41; 0xFF;0xFF;
   0;0; 0;0; 0;1;  0;0; 0;0; 0;0].

(** Windows Shift-JIS, format 4: the segment [0x41..0x43] and the final
    segment. *)
Definition table_sjis : list byte := bytes_of
  [0;0; 0;1;  0;3; 0;2; 0;0;0;12;
   0;4; 0;32; 0;0; 0;4; 0;4; 0;1; 0;0;
   0;0x43; 0xFF;0xFF;  0;0;  0;0x41; 0xFF;0xFF;  0;0; 0;1;  0;0; 0;0].

(** Windows UCS-4, format 12: the groups [0x41..0x5A] from glyph 36 and
    [0x1F600..0x1F600] with glyph 900. *)
Definition table_format12 : list byte := bytes_of
  [0;0; 0;1;  0;3; 0;10; 0;0;0;12;
   0;12; 0;0; 0;0;0;40; 0;0;0;0; 0;0;0;2;
   0;0;0;0x41; 0;0;0;0x5A; 0;0;0;36;
   0;1;0xF6;0; 0;1;0xF6;0; 0;0;3;0x84].

(** Two records and the format 4 subtable of [table_A] at the offset 20.
    The first record (Windows UCS-2, the better value) has the offset 53,
    one byte before the end of the buffer of 54 bytes; the second one
    (Unicode UCS-2) has the offset of the subtable. *)
Definition table_skipped_best : list byte := bytes_of
  [0;0; 0;2;  0;3; 0;1; 0;0;0;53;  0;0; 0;3; 0;0;0;20;
   0;4; 0;32; 0;0; 0;4; 0;4; 0;1; 0;0;
   0;0x41; 0xFF;0xFF;  0;0;  0;0x41; 0xFF;0xFF;  0;0; 0;1;  0;0; 0;0;
   0;4].

(** One record (Windows UCS-2) with the offset [0x7FFFFFFD], [n] bytes of
    padding, and the format 4 in the last two bytes: with [n = 2147483633]
    a buffer of [INT_MAX] bytes whose record points at its last two bytes. *)
Definition table_padded (n : nat) : list byte :=
  bytes_of [0;0; 0;1;  0;3; 0;1; 0x7F;0xFF;0xFF;0xFD] ++ repeat x00 n ++ bytes_of [0;4].

(** The map a table parses to; the empty map when the parse fails. *)
Definition map_of (t : list byte) : ImplFontCharMap :=
  match ParseCMAP bytewise (Some t) (Z.of_nat (length t)) with
  | Some (true, r) => ImplFontCharMap_ctor r
  | _ => ImplFontCharMap_ctor (rResult0)
  end.

End Samples.

(** * Properties *)

Import FontCharMap DefaultMap Parser Spec Samples.

(** ** Integers and arrays *)

Lemma to_int_id x : - 2 ^ 31 <= x < 2 ^ 31 -> to_int x = x.
Proof. intros H. unfold to_int. rewrite Z.mod_small; lia. Qed.

Lemma to_u32_id x : 0 <= x < 2 ^ 32 -> to_u32 x = x.
Proof. intros H. unfold to_u32. apply Z.mod_small; lia. Qed.

Lemma to_int_sub_to_int a b : to_int (a - to_int b) = to_int (a - b).
Proof.
  unfold to_int.
  replace (a - ((b + 2 ^ 31) mod 2 ^ 32 - 2 ^ 31) + 2 ^ 31)
    with (a + 2 ^ 32 - (b + 2 ^ 31) mod 2 ^ 32) by lia.
  rewrite Zminus_mod_idemp_r.
  replace (a + 2 ^ 32 - (b + 2 ^ 31)) with (a - b + 2 ^ 31) by lia. reflexivity.
Qed.

Lemma quot2_bounds a : 0 <= a -> 2 * (a ÷ 2) <= a < 2 * (a ÷ 2) + 2.
Proof.
  intros H. rewrite Z.quot_div_nonneg by lia.
  pose proof (Z.div_mod a 2). pose proof (Z.mod_pos_bound a 2). lia.
Qed.

Lemma land1_even r : (Z.land r 1 =? 0) = Z.even r.
Proof.
  change 1 with (Z.ones 1). rewrite Z.land_ones by lia.
  change (2 ^ 1) with 2. rewrite Zmod_even. destruct (Z.even r); reflexivity.
Qed.

Lemma even_double_ex r : 0 <= r -> Z.even r = true -> exists k, 0 <= k /\ r = 2 * k.
Proof.
  intros Hr He. apply Z.even_spec in He. destruct He as [k ->]. exists k. lia.
Qed.

Lemma odd_double_ex r : 0 <= r -> Z.odd r = true -> exists k, 0 <= k /\ r = 2 * k + 1.
Proof.
  intros Hr He. apply Z.odd_spec in He. destruct He as [k ->]. exists k. lia.
Qed.

Lemma cell_app_l (l r : list Z) i :
  0 <= i < Z.of_nat (length l) -> (l ++ r).[i] = l.[i].
Proof.
  intros H. unfold cell. destruct (i <? 0) eqn:E; [reflexivity|].
  apply app_nth1. lia.
Qed.

Lemma cell_app_r (l r : list Z) i :
  Z.of_nat (length l) <= i -> (l ++ r).[i] = r.[i - Z.of_nat (length l)].
Proof.
  intros H. unfold cell.
  destruct (i <? 0) eqn:E; [lia|].
  destruct (i - Z.of_nat (length l) <? 0) eqn:E'; [lia|].
  rewrite app_nth2 by lia. f_equal. lia.
Qed.

Lemma strictly_increasing_lt l :
  strictly_increasing l ->
  forall i j, 0 <= i -> i < j -> j < Z.of_nat (length l) -> l.[i] < l.[j].
Proof.
  intros Hs i j Hi Hij Hj.
  replace j with (i + 1 + Z.of_nat (Z.to_nat (j - i - 1))) in * by lia.
  generalize dependent (Z.to_nat (j - i - 1)). intros n. induction n as [|n IH]; intros _ Hj.
  - replace (i + 1 + Z.of_nat 0) with (i + 1) in * by lia. apply Hs; lia.
  - assert (l.[i] < l.[i + 1 + Z.of_nat n]) by (apply IH; lia).
    assert (l.[i + 1 + Z.of_nat n] < l.[i + 1 + Z.of_nat n + 1]) by (apply Hs; lia).
    replace (i + 1 + Z.of_nat (S n)) with (i + 1 + Z.of_nat n + 1) by lia. lia.
Qed.

(** ** findRangeIndex *)

Lemma findRangeIndex_loop_inv rc c L0 H0 :
  forall fuel lo mid hi,
    hi - lo <= Z.of_nat fuel -> 0 <= lo -> lo <= mid <= hi -> (lo < hi -> lo < mid) ->
    (lo = L0 \/ rc.[lo] <= c) -> (hi = H0 \/ c < rc.[hi + 1]) ->
    let r := findRangeIndex_loop fuel rc c lo mid hi in
    lo <= r <= hi /\ (r = L0 \/ rc.[r] <= c) /\ (r = H0 \/ c < rc.[r + 1]).
Proof.
  induction fuel as [|fuel IH]; intros lo mid hi Hf Hlo Hmid Hlt Ha Hb; simpl.
  - assert (lo = hi) by lia. assert (mid = lo) by lia. subst. auto with zarith.
  - destruct (lo <? hi) eqn:E; [apply Z.ltb_lt in E | apply Z.ltb_ge in E].
    2:{ assert (lo = hi) by lia. assert (mid = lo) by lia. subst. auto with zarith. }
    specialize (Hlt E).
    destruct (c >=? rc.[mid]) eqn:Ec;
      [apply Z.geb_le in Ec | rewrite Z.geb_leb in Ec; apply Z.leb_gt in Ec].
    + pose proof (quot2_bounds (mid + hi + 1) ltac:(lia)) as Q.
      destruct (IH mid ((mid + hi + 1) ÷ 2) hi) as (R1 & R2 & R3);
        [lia | lia | lia | lia | auto | auto | ].
      repeat split; auto; lia.
    + pose proof (quot2_bounds (lo + (mid - 1) + 1) ltac:(lia)) as Q.
      destruct (IH lo ((lo + (mid - 1) + 1) ÷ 2) (mid - 1)) as (R1 & R2 & R3);
        [lia | lia | lia | lia | auto | right; replace (mid - 1 + 1) with mid by lia; lia | ].
      repeat split; auto; lia.
Qed.

(** The loop has left when the fuel of [findRangeIndex] is spent: more fuel
    changes nothing. *)
Lemma findRangeIndex_loop_fuel rc c :
  forall fuel extra lo mid hi,
    hi - lo <= Z.of_nat fuel -> 0 <= lo -> lo <= mid <= hi -> (lo < hi -> lo < mid) ->
    findRangeIndex_loop (fuel + extra) rc c lo mid hi = findRangeIndex_loop fuel rc c lo mid hi.
Proof.
  induction fuel as [|fuel IH]; intros extra lo mid hi Hf Hlo Hmid Hlt.
  - destruct extra; simpl; [reflexivity|].
    destruct (lo <? hi) eqn:E; [apply Z.ltb_lt in E; lia | reflexivity].
  - simpl. destruct (lo <? hi) eqn:E; [apply Z.ltb_lt in E | reflexivity].
    specialize (Hlt E).
    destruct (c >=? rc.[mid]).
    + pose proof (quot2_bounds (mid + hi + 1) ltac:(lia)). apply IH; lia.
    + pose proof (quot2_bounds (lo + (mid - 1) + 1) ltac:(lia)). apply IH; lia.
Qed.

Lemma findRangeIndex_inv m c :
  1 <= mnRangeCount m ->
  let r := findRangeIndex m c in
  0 <= r <= 2 * mnRangeCount m - 1 /\
  (r = 0 \/ (codes m).[r] <= c) /\
  (r = 2 * mnRangeCount m - 1 \/ c < (codes m).[r + 1]).
Proof.
  intros HN. unfold findRangeIndex.
  apply findRangeIndex_loop_inv; auto; lia.
Qed.

Lemma default_map_wf bSymbols : wf_ranges (default_map bSymbols).
Proof.
  destruct bSymbols; (split; [vm_compute; discriminate | split; [reflexivity|] ]);
    intros i H0 H1; change (Z.of_nat (length _)) with 4 in H1;
    (assert (i = 0 \/ i = 1 \/ i = 2) as [-> | [-> | ->]] by lia); vm_compute; reflexivity.
Qed.

(** Below the first boundary the search returns 0. *)
Lemma findRangeIndex_below m c :
  wf_ranges m -> c < (codes m).[0] -> findRangeIndex m c = 0.
Proof.
  intros (HN & Hlen & Hs) Hc.
  destruct (findRangeIndex_inv m c HN) as (Hr & Ha & _).
  destruct Ha as [Ha | Ha]; [assumption|].
  destruct (Z.eq_dec (findRangeIndex m c) 0) as [|Hne]; [assumption|].
  pose proof (strictly_increasing_lt _ Hs 0 (findRangeIndex m c)) as Hlt.
  rewrite Hlen in Hlt. lia.
Qed.

(** From the first boundary on it returns the greatest index whose
    boundary is not above [c]. *)
Lemma findRangeIndex_above m c :
  wf_ranges m -> (codes m).[0] <= c ->
  let r := findRangeIndex m c in
  0 <= r < 2 * mnRangeCount m /\
  (codes m).[r] <= c /\
  (r = 2 * mnRangeCount m - 1 \/ c < (codes m).[r + 1]) /\
  (forall j, 0 <= j < 2 * mnRangeCount m -> (codes m).[j] <= c -> j <= r).
Proof.
  intros (HN & Hlen & Hs) Hc r.
  destruct (findRangeIndex_inv m c HN) as (Hr & Ha & Hb). fold r in Hr, Ha, Hb.
  pose proof (strictly_increasing_lt _ Hs) as Hlt. rewrite Hlen in Hlt.
  split; [lia|]. split; [destruct Ha as [-> | Ha]; assumption|]. split; [exact Hb|].
  intros j Hj Hjc. destruct Hb as [Hb | Hb]; [lia|].
  destruct (Z_le_gt_dec j r) as [|G]; [assumption|].
  destruct (Z.eq_dec j (r + 1)) as [->|]; [lia|].
  specialize (Hlt (r + 1) j). lia.
Qed.

(** The result is even exactly on the code points of the ranges. *)
Lemma findRangeIndex_even m c :
  wf_ranges m -> (codes m).[0] <= c ->
  (Z.even (findRangeIndex m c) = true <-> exists k, in_range m c k).
Proof.
  intros W Hc. destruct (findRangeIndex_above m c W Hc) as (Hr & Hrc & Hb & Hgreat).
  destruct W as (HN & Hlen & Hs).
  pose proof (strictly_increasing_lt _ Hs) as Hlt. rewrite Hlen in Hlt.
  set (r := findRangeIndex m c) in *. split.
  - intros He. destruct (even_double_ex r ltac:(lia) He) as (k & Hk & Ek).
    exists k. unfold in_range. rewrite <- Ek.
    destruct Hb as [Hb | Hb]; lia.
  - intros (k & Hk & Hkc).
    assert (2 * k <= r) by (apply Hgreat; lia).
    destruct (Z.eq_dec r (2 * k)) as [->|Hne].
    + rewrite Z.even_mul. reflexivity.
    + destruct (Z.eq_dec r (2 * k + 1)) as [E|Hne2]; [rewrite E in Hrc; lia|].
      specialize (Hlt (2 * k + 1) r). lia.
Qed.

(** C5 (amended).  On a map whose boundaries are strictly increasing,
    [findRangeIndex c] is 0 for a code point below the first boundary;
    from the first boundary on it is the greatest index [r] with
    [boundary[r] <= c], it is even exactly when [c] lies in a range and odd
    exactly when [c] lies in the gap that follows a range. *)
Theorem findRangeIndex_greatest m c :
  wf_ranges m ->
  let r := findRangeIndex m c in
  (c < (codes m).[0] -> r = 0) /\
  ((codes m).[0] <= c ->
     0 <= r < 2 * mnRangeCount m /\
     (codes m).[r] <= c /\
     (forall j, 0 <= j < 2 * mnRangeCount m -> (codes m).[j] <= c -> j <= r) /\
     (Z.even r = true <-> exists k, in_range m c k) /\
     (Z.odd r = true <-> exists k, in_gap_after m c k)).
Proof.
  intros W r. split; [apply findRangeIndex_below; exact W|].
  intros Hc.
  destruct (findRangeIndex_above m c W Hc) as (Hr & Hrc & Hb & Hgreat). fold r in Hr, Hrc, Hb, Hgreat.
  split; [exact Hr|]. split; [exact Hrc|]. split; [exact Hgreat|].
  split; [apply findRangeIndex_even; assumption|].
  destruct W as (HN & Hlen & Hs).
  pose proof (strictly_increasing_lt _ Hs) as Hlt. rewrite Hlen in Hlt.
  split.
  - intros Ho. destruct (odd_double_ex r ltac:(lia) Ho) as (k & Hk & Ek).
    exists k. unfold in_gap_after. rewrite <- Ek.
    replace (2 * k + 2) with (r + 1) by lia.
    destruct Hb as [Hb | Hb]; lia.
  - intros (k & Hk & Hkc & Hnext).
    assert (2 * k + 1 <= r) by (apply Hgreat; lia).
    destruct (Z.eq_dec r (2 * k + 1)) as [E|Hne].
    + rewrite E, Z.odd_add, Z.odd_mul. reflexivity.
    + destruct Hnext as [Hl | Hl]; [lia|].
      destruct (Z.eq_dec r (2 * k + 2)) as [E|Hne2]; [rewrite E in Hrc; lia|].
      specialize (Hlt (2 * k + 2) r). lia.
Qed.

Lemma findRangeIndex_greatest_witness :
  wf_ranges (default_map true) /\
  let r := findRangeIndex (default_map true) 0xF041 in
  (0xF041 < (codes (default_map true)).[0] -> r = 0) /\
  ((codes (default_map true)).[0] <= 0xF041 ->
     0 <= r < 2 * mnRangeCount (default_map true) /\
     (codes (default_map true)).[r] <= 0xF041 /\
     (forall j, 0 <= j < 2 * mnRangeCount (default_map true) ->
                (codes (default_map true)).[j] <= 0xF041 -> j <= r) /\
     (Z.even r = true <-> exists k, in_range (default_map true) 0xF041 k) /\
     (Z.odd r = true <-> exists k, in_gap_after (default_map true) 0xF041 k)).
Proof.
  assert (W : wf_ranges (default_map true)).
  { split; [vm_compute; discriminate | split; [reflexivity|] ].
    intros i H0 H1; change (Z.of_nat (length _)) with 4 in H1.
    assert (i = 0 \/ i = 1 \/ i = 2) as [-> | [-> | ->]] by lia; vm_compute; reflexivity. }
  split; [exact W | exact (findRangeIndex_greatest (default_map true) 0xF041 W)].
Defined.

(** C5 as stated fails below the first boundary: on the symbol default
    map [findRangeIndex 0x10] is 0, an even index, while [boundary[0]] is
    [0x20] and [0x10] lies in no range. *)
Lemma findRangeIndex_below_first :
  wf_ranges (default_map true) /\
  let r := findRangeIndex (default_map true) 0x10 in
  r = 0 /\ Z.even r = true /\
  ~ (codes (default_map true)).[r] <= 0x10 /\
  ~ exists k, in_range (default_map true) 0x10 k.
Proof.
  split; [apply default_map_wf|].
  change (findRangeIndex (default_map true) 16) with 0.
  repeat split.
  - vm_compute. intros H. apply H. reflexivity.
  - intros (k & Hk & Hc). change (mnRangeCount (default_map true)) with 2 in Hk.
    assert (k = 0 \/ k = 1) as [-> | ->] by lia; vm_compute in Hc;
      destruct Hc as [Hc _]; apply Hc; reflexivity.
Qed.

(** ** Maps without Glyph Origin data *)

Lemma finish_no_glyphs cv sel dec r :
  finish cv sel dec = (true, r) ->
  nRangeCount dec <= 0 \/ recoded_by cv sel ->
  cr_mpStartGlyphs r = None.
Proof.
  unfold finish. intros H Hor.
  destruct (nRangeCount dec <=? 0) eqn:E.
  - destruct (mbSymbolic sel); inversion H; reflexivity.
  - apply Z.leb_gt in E. destruct Hor as [Hle | (Hu & h & Hh)]; [lia|].
    rewrite Hu, Hh in H. simpl in H.
    match type of H with (if ?b then _ else _) = _ => destruct b end;
      inversion H; reflexivity.
Qed.

Lemma ParseCMAP_stages cv buf nLength nSubTables sel dec :
  check_header (Some buf) nLength = Some (Some (buf, nSubTables)) ->
  decode_stage buf nLength nSubTables = Some (sel, dec) ->
  ParseCMAP cv (Some buf) nLength = Some (finish cv sel dec).
Proof.
  intros Hh Hd. unfold ParseCMAP. rewrite Hh, Hd. reflexivity.
Qed.

(** C1 (amended).  On a map without Glyph Origin data (null start-glyph
    array) [GetGlyphIndex] returns -1 for every code point; this is so for
    the map of the symbolic fallback and for a map that went through the
    recoding block, which drops the Glyph Origin data. *)
Theorem GetGlyphIndex_without_glyph_origin cv :
  (forall m c, mpStartGlyphs m = None -> GetGlyphIndex m c = -1) /\
  (forall buf nLength nSubTables sel dec r,
     check_header (Some buf) nLength = Some (Some (buf, nSubTables)) ->
     decode_stage buf nLength nSubTables = Some (sel, dec) ->
     ParseCMAP cv (Some buf) nLength = Some (true, r) ->
     nRangeCount dec <= 0 \/ recoded_by cv sel ->
     mpStartGlyphs (ImplFontCharMap_ctor r) = None /\
     forall c, GetGlyphIndex (ImplFontCharMap_ctor r) c = -1).
Proof.
  assert (A : forall m c, mpStartGlyphs m = None -> GetGlyphIndex m c = -1).
  { intros m c H. unfold GetGlyphIndex. rewrite H. reflexivity. }
  split; [exact A|].
  intros buf nLength nSubTables sel dec r Hh Hd Hp Hor.
  rewrite (ParseCMAP_stages cv _ _ _ _ _ Hh Hd) in Hp.
  assert (F : finish cv sel dec = (true, r)) by congruence.
  pose proof (finish_no_glyphs cv sel dec r F Hor) as Hn.
  split; [exact Hn | intros c; apply A; exact Hn].
Qed.

Lemma GetGlyphIndex_without_glyph_origin_witness :
  GetGlyphIndex (default_map true) 0x41 = -1 /\
  GetGlyphIndex (map_of table_symbol) 0x41 = -1 /\
  GetGlyphIndex (map_of table_sjis) 0x41 = -1.
Proof.
  destruct (GetGlyphIndex_without_glyph_origin bytewise) as [A B].
  split; [apply A; reflexivity|].
  split.
  - refine (proj2 (B table_symbol 36 1
             (mkSelection RTL_TEXTENCODING_UNICODE 12 4 5 true)
             (mkDecoded 0 (Some []) (Some []) [0])
             (mkCmapResult (codes_new [0x0020; 0x0100; 0xF020; 0xF100]) None None 2 true false)
             _ _ _ _) 0x41);
      [vm_compute; reflexivity | vm_compute; reflexivity | vm_compute; reflexivity
      | left; vm_compute; discriminate].
  - refine (proj2 (B table_sjis 44 1
             (mkSelection RTL_TEXTENCODING_SHIFT_JIS 12 4 11 false)
             (mkDecoded 1 (Some [0x41; 0x44]) (Some [0x41]) [0])
             (mkCmapResult (codes_new [0x41; 0x44]) None None 1 false true)
             _ _ _ _) 0x41);
      [vm_compute; reflexivity | vm_compute; reflexivity | vm_compute; reflexivity
      | right; split; [reflexivity | exists tt; reflexivity] ].
Defined.

(** C1 as stated fails: the symbol default map has no Glyph Origin data
    and [GetGlyphIndex] returns -1 on it, not 0; so does the map of the
    symbolic fallback. *)
Lemma GetGlyphIndex_without_glyph_origin_not_zero :
  mpStartGlyphs (default_map true) = None /\
  GetGlyphIndex (default_map true) 0x41 = -1 /\
  GetGlyphIndex (default_map true) 0x41 <> 0 /\
  ParseCMAP bytewise (Some table_symbol) 36 =
    Some (true, mkCmapResult (codes_new [0x0020; 0x0100; 0xF020; 0xF100]) None None 2 true false) /\
  GetGlyphIndex (map_of table_symbol) 0x41 <> 0.
Proof.
  repeat split; try (vm_compute; discriminate).
Qed.

(** ** GetGlyphIndex outside of the ranges *)

Lemma lor_F000_above c : 0 <= c -> 0xFF < Z.lor c 0xF000.
Proof.
  intros Hc.
  assert (Hn : 0 <= Z.lor c 0xF000) by (apply Z.lor_nonneg; lia).
  pose proof (Z.log2_lor c 0xF000 Hc ltac:(lia)) as Hl.
  change (Z.log2 0xF000) with 15 in Hl.
  destruct (Z.eq_dec (Z.lor c 0xF000) 0) as [E | E].
  - rewrite E in Hl. change (Z.log2 0) with 0 in Hl. lia.
  - pose proof (Z.log2_spec (Z.lor c 0xF000) ltac:(lia)) as [Hs _].
    assert (2 ^ 15 <= 2 ^ Z.log2 (Z.lor c 0xF000)) by (apply Z.pow_le_mono_r; lia).
    lia.
Qed.

Lemma glyph_in_range_odd m starts c r :
  Z.even r = false -> glyph_in_range m starts c r = 0.
Proof.
  intros H. unfold glyph_in_range. rewrite land1_even, H. reflexivity.
Qed.

(** C4 (amended).  On a map with Glyph Origin data and strictly increasing
    boundaries, for a code point [c] outside of every range: when
    [c <= 0xFF], [boundary[0] >= 0xF000] and [boundary[1] <= 0xF0FF], then
    [GetGlyphIndex c] is the result of the lookup of [c | 0xF000], whatever
    the symbolic flag of the map; when [c > 0xFF] or [boundary[0] < 0xF000]
    or [boundary[1] > 0xF100], it is 0. *)
Theorem GetGlyphIndex_outside_ranges m starts c :
  wf_ranges m ->
  mpStartGlyphs m = Some starts ->
  0 <= c ->
  outside_every_range m c ->
  (c <= 0xFF -> 0xF000 <= (codes m).[0] -> (codes m).[1] <= 0xF0FF ->
     GetGlyphIndex m c = GetGlyphIndex m (Z.lor c 0xF000)) /\
  (0xFF < c \/ (codes m).[0] < 0xF000 \/ 0xF100 < (codes m).[1] ->
     GetGlyphIndex m c = 0).
Proof.
  intros W Hg Hc Hout.
  pose proof (findRangeIndex_below m c W) as Hlow.
  split.
  - intros H1 H2 H3.
    specialize (Hlow ltac:(lia)).
    pose proof (lor_F000_above c Hc) as Habove.
    unfold GetGlyphIndex at 1. rewrite Hg. cbv zeta. rewrite Hlow.
    replace (c <? (codes m).[0]) with true by (symmetry; apply Z.ltb_lt; lia).
    replace (c <=? 0xFF) with true by (symmetry; apply Z.leb_le; lia).
    replace ((codes m).[0] >=? 0xF000) with true
      by (symmetry; rewrite Z.geb_leb; apply Z.leb_le; lia).
    replace ((codes m).[1] <=? 0xF0FF) with true by (symmetry; apply Z.leb_le; lia).
    cbn [Z.eqb andb negb].
    unfold GetGlyphIndex. rewrite Hg. cbv zeta.
    destruct ((findRangeIndex m (Z.lor c 0xF000) =? 0)
              && (Z.lor c 0xF000 <? (codes m).[0])); [|reflexivity].
    replace (Z.lor c 0xF000 <=? 0xFF) with false by (symmetry; apply Z.leb_gt; lia).
    reflexivity.
  - intros Hcase.
    unfold GetGlyphIndex. rewrite Hg. cbv zeta.
    destruct (Z_lt_le_dec c (codes m).[0]) as [Hlt | Hge].
    + rewrite (Hlow Hlt).
      replace (c <? (codes m).[0]) with true by (symmetry; apply Z.ltb_lt; lia).
      cbn [Z.eqb andb].
      replace ((c <=? 0xFF) && ((codes m).[0] >=? 0xF000) && ((codes m).[1] <=? 0xF0FF))
        with false; [reflexivity|].
      symmetry. rewrite !andb_false_iff, Z.geb_leb, !Z.leb_gt. lia.
    + replace (c <? (codes m).[0]) with false by (symmetry; apply Z.ltb_ge; lia).
      rewrite andb_false_r.
      pose proof (findRangeIndex_even m c W Hge) as Heven.
      apply glyph_in_range_odd.
      destruct (Z.even (findRangeIndex m c)) eqn:E; [|reflexivity].
      destruct (proj1 Heven eq_refl) as (k & Hk). exfalso. exact (Hout k Hk).
Qed.

Lemma map_of_table_pua_wf : wf_ranges (map_of table_pua).
Proof.
  split; [vm_compute; discriminate | split; [reflexivity|] ].
  intros i H0 H1. change (Z.of_nat (length _)) with 2 in H1.
  assert (i = 0) as -> by lia. vm_compute. reflexivity.
Qed.

Lemma map_of_table_pua_outside c :
  c < 0xF020 -> outside_every_range (map_of table_pua) c.
Proof.
  intros Hc k (Hk & Hr). change (mnRangeCount (map_of table_pua)) with 1 in Hk.
  assert (k = 0) as -> by lia.
  change ((codes (map_of table_pua)).[2 * 0]) with 0xF020 in Hr. lia.
Qed.

Lemma GetGlyphIndex_outside_ranges_witness :
  GetGlyphIndex (map_of table_pua) 0x41 = GetGlyphIndex (map_of table_pua) (Z.lor 0x41 0xF000) /\
  GetGlyphIndex (map_of table_pua) 0x141 = 0.
Proof.
  split.
  - refine (proj1 (GetGlyphIndex_outside_ranges (map_of table_pua) [1] 0x41 _ _ _ _) _ _ _).
    + split; [vm_compute; discriminate | split; [reflexivity|] ].
      intros i H0 H1. change (Z.of_nat (length _)) with 2 in H1.
      assert (i = 0) as -> by lia. vm_compute. reflexivity.
    + reflexivity.
    + lia.
    + apply map_of_table_pua_outside. lia.
    + lia.
    + vm_compute. discriminate.
    + vm_compute. discriminate.
  - refine (proj2 (GetGlyphIndex_outside_ranges (map_of table_pua) [1] 0x141 _ _ _ _) _).
    + apply map_of_table_pua_wf.
    + reflexivity.
    + lia.
    + apply map_of_table_pua_outside. lia.
    + left. lia.
Defined.

(** C4 as stated fails: the map parsed from [table_pua] (Windows UCS-2) is
    not symbolic, has Glyph Origin data, and [0x41] lies outside of its one
    range [0xF020, 0xF080); yet [GetGlyphIndex 0x41] is the glyph of
    [0xF041], [0x22], not 0. *)
Lemma GetGlyphIndex_alias_without_symbolic_flag :
  ParseCMAP bytewise (Some table_pua) 44 =
    Some (true, mkCmapResult (codes_new [0xF020; 0xF080]) (Some [1]) (Some [0]) 1 false false) /\
  m_bSymbolic (map_of table_pua) = false /\
  mpStartGlyphs (map_of table_pua) = Some [1] /\
  wf_ranges (map_of table_pua) /\
  outside_every_range (map_of table_pua) 0x41 /\
  GetGlyphIndex (map_of table_pua) 0x41 = 0x22 /\
  GetGlyphIndex (map_of table_pua) 0x41 <> 0.
Proof.
  split; [vm_compute; reflexivity|].
  split; [reflexivity|]. split; [reflexivity|].
  split; [apply map_of_table_pua_wf|].
  split; [apply map_of_table_pua_outside; lia|].
  split; [vm_compute; reflexivity | vm_compute; discriminate].
Qed.

(** ** The round trip of GetIndexFromChar and GetCharFromIndex *)

Lemma HasChar_in_range m c :
  wf_ranges m -> HasChar m c = true -> (codes m).[0] <= c -> exists k, in_range m c k.
Proof.
  intros W H Hge.
  apply (findRangeIndex_even m c W Hge).
  assert (Hlt : (c <? (codes m).[0]) = false) by (apply Z.ltb_ge; lia).
  unfold HasChar in H. destruct (mpStartGlyphs m) as [starts|] eqn:Hg.
  - unfold GetGlyphIndex in H. rewrite Hg in H. cbv zeta in H.
    rewrite Hlt, andb_false_r in H.
    destruct (Z.even (findRangeIndex m c)) eqn:E; [reflexivity|].
    rewrite glyph_in_range_odd in H by assumption. discriminate.
  - cbv zeta in H. rewrite Hlt, andb_false_r, land1_even in H. exact H.
Qed.

Section RoundTrip.

Variables (rc : list Z) (N c : Z).
Hypothesis Hlen : Z.of_nat (length rc) = 2 * N.
Hypothesis Hs : strictly_increasing rc.
Hypothesis Hfirst : 0 <= rc.[0].
Hypothesis Hlast : rc.[2 * N - 1] < 2 ^ 31.

Lemma boundary_bounds i : 0 <= i < 2 * N -> 0 <= rc.[i] < 2 ^ 31.
Proof.
  intros Hi. pose proof (strictly_increasing_lt rc Hs) as Hlt. rewrite Hlen in Hlt.
  assert (rc.[0] <= rc.[i]).
  { destruct (Z.eq_dec i 0) as [->|]; [lia|]. specialize (Hlt 0 i). lia. }
  assert (rc.[i] <= rc.[2 * N - 1]).
  { destruct (Z.eq_dec i (2 * N - 1)) as [->|]; [lia|]. specialize (Hlt i (2 * N - 1)). lia. }
  lia.
Qed.

Lemma round_trip_loop :
  forall n p acc,
    p = 2 * (N - Z.of_nat n) -> 0 <= p -> 0 <= acc ->
    (p = 0 -> acc = 0) -> (0 < p -> acc <= rc.[p - 1] - rc.[0]) ->
    (exists k, p <= 2 * k /\ k < N /\ rc.[2 * k] <= c < rc.[2 * k + 1]) ->
    let r := GetIndexFromChar_loop n rc c p acc in
    acc <= r < 2 ^ 31 /\ GetCharFromIndex_loop n rc p (r - acc) = c.
Proof.
  pose proof (strictly_increasing_lt rc Hs) as Hlt. rewrite Hlen in Hlt.
  induction n as [|n IH]; intros p acc Hp Hp0 Hacc Hz Hpos (k & Hk1 & Hk2 & Hk3).
  - change (Z.of_nat 0) with 0 in Hp. lia.
  - assert (Hn : p + 2 = 2 * (N - Z.of_nat n)) by lia.
    assert (Hp1 : p + 1 < 2 * N) by lia.
    pose proof (boundary_bounds p ltac:(lia)) as Bp.
    pose proof (boundary_bounds (p + 1) ltac:(lia)) as Bp1.
    pose proof (boundary_bounds 0 ltac:(lia)) as B0.
    assert (Hw : rc.[p] < rc.[p + 1]) by (apply Hs; lia).
    assert (Hsum : acc + (rc.[p + 1] - rc.[p]) <= rc.[p + 1] - rc.[0]).
    { destruct (Z.eq_dec p 0) as [E|E].
      - rewrite (Hz E). rewrite E. simpl. lia.
      - specialize (Hpos ltac:(lia)). specialize (Hlt (p - 1) p). lia. }
    cbn [GetIndexFromChar_loop GetCharFromIndex_loop]. cbv zeta.
    rewrite (to_u32_id (rc.[p + 1] - rc.[p])) by lia.
    destruct (c >=? rc.[p + 1]) eqn:E1;
      [apply Z.geb_le in E1 | rewrite Z.geb_leb in E1; apply Z.leb_gt in E1].
    + rewrite (to_int_id (acc + (rc.[p + 1] - rc.[p]))) by lia.
      assert (Hk : p + 2 <= 2 * k).
      { destruct (Z.eq_dec p (2 * k)) as [E|E]; [rewrite <- E in Hk3; lia | lia]. }
      destruct (IH (p + 2) (acc + (rc.[p + 1] - rc.[p]))) as (R1 & R2); try lia.
      { intros _. replace (p + 2 - 1) with (p + 1) by lia. lia. }
      { exists k. auto. }
      split; [lia|].
      set (r := GetIndexFromChar_loop n rc c (p + 2) (acc + (rc.[p + 1] - rc.[p]))) in *.
      rewrite (to_int_id (r - acc - (rc.[p + 1] - rc.[p]))) by lia.
      replace (r - acc - (rc.[p + 1] - rc.[p]) <? 0) with false
        by (symmetry; apply Z.ltb_ge; lia).
      replace (r - acc - (rc.[p + 1] - rc.[p])) with (r - (acc + (rc.[p + 1] - rc.[p]))) by lia.
      exact R2.
    + destruct (c >=? rc.[p]) eqn:E2;
        [apply Z.geb_le in E2 | rewrite Z.geb_leb in E2; apply Z.leb_gt in E2].
      * rewrite (to_u32_id (c - rc.[p])) by lia.
        rewrite (to_int_id (acc + (c - rc.[p]))) by lia.
        split; [lia|].
        replace (acc + (c - rc.[p]) - acc - (rc.[p + 1] - rc.[p])) with (c - rc.[p + 1]) by lia.
        rewrite (to_int_id (c - rc.[p + 1])) by lia.
        replace (c - rc.[p + 1] <? 0) with true by (symmetry; apply Z.ltb_lt; lia).
        replace (rc.[p + 1] + (c - rc.[p + 1])) with c by lia.
        apply to_u32_id. lia.
      * exfalso. destruct (Z.eq_dec p (2 * k)) as [E|E]; [rewrite <- E in Hk3; lia|].
        specialize (Hlt p (2 * k)). lia.
Qed.

End RoundTrip.

(** C3 (amended).  On a map whose boundaries are strictly increasing and
    below 2^31, for every code point [c] with [HasChar c] that is not below
    the first boundary (so [c] is covered by a range, not just accepted by
    the aliasing retry of [GetGlyphIndex]),
    [GetCharFromIndex (GetIndexFromChar c)] is [c]. *)
Theorem GetCharFromIndex_GetIndexFromChar m c :
  wf_ranges m -> codes_fit_int m ->
  HasChar m c = true -> (codes m).[0] <= c ->
  GetCharFromIndex m (GetIndexFromChar m c) = c.
Proof.
  intros W (F0 & F1) H Hge.
  destruct (HasChar_in_range m c W H Hge) as (k & Hk & Hc).
  destruct W as (HN & Hlen & Hs).
  unfold GetCharFromIndex, GetIndexFromChar.
  destruct (round_trip_loop (codes m) (mnRangeCount m) c Hlen Hs F0 F1
              (Z.to_nat (mnRangeCount m)) 0 0) as (_ & R); try lia.
  { exists k. repeat split; lia. }
  rewrite Z.sub_0_r in R. exact R.
Qed.

Lemma GetCharFromIndex_GetIndexFromChar_witness :
  GetCharFromIndex (map_of table_pua) (GetIndexFromChar (map_of table_pua) 0xF041) = 0xF041.
Proof.
  apply (GetCharFromIndex_GetIndexFromChar (map_of table_pua) 0xF041).
  - split; [vm_compute; discriminate | split; [reflexivity|] ].
    intros i H0 H1. change (Z.of_nat (length _)) with 2 in H1.
    assert (i = 0) as -> by lia. vm_compute. reflexivity.
  - split; vm_compute; [discriminate | reflexivity].
  - vm_compute. reflexivity.
  - vm_compute. discriminate.
Defined.

(** C3 as stated fails: on the map parsed from [table_pua], [HasChar 0x41]
    holds through the aliasing retry, [GetIndexFromChar 0x41] is -1 and
    [GetCharFromIndex (-1)] is [0xF01F]. *)
Lemma round_trip_fails_on_alias :
  wf_ranges (map_of table_pua) /\
  HasChar (map_of table_pua) 0x41 = true /\
  GetIndexFromChar (map_of table_pua) 0x41 = -1 /\
  GetCharFromIndex (map_of table_pua) (GetIndexFromChar (map_of table_pua) 0x41) = 0xF01F /\
  GetCharFromIndex (map_of table_pua) (GetIndexFromChar (map_of table_pua) 0x41) <> 0x41.
Proof.
  split; [apply map_of_table_pua_wf|].
  repeat split; vm_compute; discriminate.
Qed.

(** ** The default maps *)

Lemma fresh_above h a : In a (keys h) -> (a < fresh h)%nat.
Proof.
  induction h as [|e t IH]; [simpl; tauto|].
  change (fresh (e :: t)) with (Nat.max (S (fst e)) (fresh t)).
  change (keys (e :: t)) with (fst e :: keys t).
  intros [E | Hin]; [subst; lia | specialize (IH Hin); lia].
Qed.

Lemma release_head_other old a v t :
  old <> a -> release old ((a, v) :: t) = (a, v) :: release old t.
Proof.
  intros Hne. simpl. destruct (Nat.eqb a old) eqn:E; [|reflexivity].
  apply Nat.eqb_eq in E. congruence.
Qed.

(** A request on a well-formed store: the new object sits at a fresh
    address with the two references of the global and of the handle. *)
Lemma GetDefaultMap_shape b w :
  wf_world w ->
  exists T,
    GetDefaultMap b w =
      (mkFontCharMap (fresh (heap w)),
       mkWorld ((fresh (heap w), (default_map b, 2%nat)) :: T) (Some (fresh (heap w)))).
Proof.
  intros W. unfold GetDefaultMap, getDefaultMap, wf_world in *.
  destruct (g_pDefaultImplFontCharMap w) as [old|].
  - apply fresh_above in W.
    rewrite release_head_other by lia.
    cbn [heap g_pDefaultImplFontCharMap acquire map fst snd]. rewrite Nat.eqb_refl.
    eexists. reflexivity.
  - cbn [heap g_pDefaultImplFontCharMap acquire map fst snd]. rewrite Nat.eqb_refl.
    eexists. reflexivity.
Qed.

(** C2 (amended).  Every request for the default map constructs a new
    [ImplFontCharMap]: two requests in a row for the same kind return
    handles to two distinct objects, both alive afterwards; the two objects
    are equal in content and borrow the same static range array of the
    kind, so [isDefaultMap] holds of both. *)
Theorem GetDefaultMap_twice b w :
  wf_world w ->
  let '(h1, w1) := GetDefaultMap b w in
  let '(h2, w2) := GetDefaultMap b w1 in
  mpImplFontCharMap h1 <> mpImplFontCharMap h2 /\
  lookup (mpImplFontCharMap h1) (heap w2) = Some (default_map b, 1%nat) /\
  lookup (mpImplFontCharMap h2) (heap w2) = Some (default_map b, 2%nat) /\
  g_pDefaultImplFontCharMap w2 = Some (mpImplFontCharMap h2) /\
  isDefaultMap (default_map b) = true /\
  mpRangeCodes (default_map b) =
    (if b then codes_aDefaultSymbolRanges else codes_aDefaultUnicodeRanges).
Proof.
  intros W. destruct (GetDefaultMap_shape b w W) as (T & ->).
  set (a1 := fresh (heap w)).
  set (w1 := mkWorld ((a1, (default_map b, 2%nat)) :: T) (Some a1)).
  assert (Hfresh : (a1 < fresh (heap w1))%nat).
  { apply fresh_above. simpl. left. reflexivity. }
  set (a2 := fresh (heap w1)) in *.
  assert (E21 : Nat.eqb a2 a1 = false) by (apply Nat.eqb_neq; lia).
  assert (E12 : Nat.eqb a1 a2 = false) by (apply Nat.eqb_neq; lia).
  unfold GetDefaultMap, getDefaultMap. fold a2.
  cbn [heap g_pDefaultImplFontCharMap w1 release acquire map fst snd mpImplFontCharMap].
  rewrite E21, Nat.eqb_refl.
  cbn [heap g_pDefaultImplFontCharMap w1 release acquire map fst snd mpImplFontCharMap].
  rewrite E12, Nat.eqb_refl.
  unfold lookup.
  cbn [find fst snd option_map]. rewrite E21, !Nat.eqb_refl.
  cbn [find fst snd option_map].
  repeat split; try reflexivity; try lia; destruct b; reflexivity.
Qed.

Lemma GetDefaultMap_twice_witness :
  wf_world World0 /\
  let '(h1, w1) := GetDefaultMap true World0 in
  let '(h2, w2) := GetDefaultMap true w1 in
  mpImplFontCharMap h1 <> mpImplFontCharMap h2 /\
  lookup (mpImplFontCharMap h1) (heap w2) = Some (default_map true, 1%nat) /\
  lookup (mpImplFontCharMap h2) (heap w2) = Some (default_map true, 2%nat) /\
  g_pDefaultImplFontCharMap w2 = Some (mpImplFontCharMap h2) /\
  isDefaultMap (default_map true) = true /\
  mpRangeCodes (default_map true) = codes_aDefaultSymbolRanges.
Proof.
  split; [exact I | exact (GetDefaultMap_twice true World0 I)].
Defined.

(** C2 as stated fails: from the empty store, two requests for the symbol
    default map return handles to the objects at the addresses 0 and 1, and
    both objects are alive after the second request. *)
Lemma GetDefaultMap_constructs_each_time :
  let '(h1, w1) := GetDefaultMap true World0 in
  let '(h2, w2) := GetDefaultMap true w1 in
  mpImplFontCharMap h1 = 0%nat /\ mpImplFontCharMap h2 = 1%nat /\
  mpImplFontCharMap h1 <> mpImplFontCharMap h2 /\
  keys (heap w2) = [1%nat; 0%nat].
Proof.
  vm_compute. repeat split. discriminate.
Qed.

(** ** The readers *)

Lemma byte_at_some p off :
  0 <= off < Z.of_nat (length p) ->
  exists b, byte_at p off = Some b /\ 0 <= b < 256.
Proof.
  intros H. unfold byte_at.
  destruct (off <? 0) eqn:E; [lia|].
  destruct (nth_error p (Z.to_nat off)) as [b|] eqn:En.
  - exists (Z.of_N (Byte.to_N b)). split; [reflexivity|].
    pose proof (Byte.to_N_bounded b). lia.
  - apply nth_error_None in En. lia.
Qed.

Lemma byte_at_in_bounds p off b :
  byte_at p off = Some b -> 0 <= off < Z.of_nat (length p).
Proof.
  unfold byte_at. destruct (off <? 0) eqn:E; [discriminate|].
  destruct (nth_error p (Z.to_nat off)) eqn:En; [|discriminate].
  intros _. assert (nth_error p (Z.to_nat off) <> None) as Hn by congruence.
  apply nth_error_Some in Hn. lia.
Qed.

Lemma lor_shift8_bounds b0 b1 :
  0 <= b0 < 256 -> 0 <= b1 < 256 -> 0 <= Z.lor (Z.shiftl b0 8) b1 < 65536.
Proof.
  intros H0 H1. rewrite Z.shiftl_mul_pow2 by lia. change (2 ^ 8) with 256.
  assert (0 <= Z.lor (b0 * 256) b1) by (apply Z.lor_nonneg; lia).
  assert (0 <= Z.land (b0 * 256) b1) by (apply Z.land_nonneg; lia).
  pose proof (Z.add_lor_land (b0 * 256) b1). lia.
Qed.

Lemma GetUShort_some p off :
  0 <= off -> off + 2 <= Z.of_nat (length p) ->
  exists v, GetUShort p off = Some v /\ 0 <= v < 65536.
Proof.
  intros H0 H1. unfold GetUShort.
  destruct (byte_at_some p off ltac:(lia)) as (b0 & -> & B0).
  destruct (byte_at_some p (off + 1) ltac:(lia)) as (b1 & -> & B1).
  eexists. split; [reflexivity | apply lor_shift8_bounds; assumption].
Qed.

Lemma GetUShort_bounds p off v : GetUShort p off = Some v -> 0 <= v < 65536.
Proof.
  unfold GetUShort.
  destruct (byte_at p off) as [b0|] eqn:E0; [|discriminate].
  destruct (byte_at p (off + 1)) as [b1|] eqn:E1; [|discriminate].
  intros H. inversion H; subst.
  apply byte_at_in_bounds in E0 as I0. apply byte_at_in_bounds in E1 as I1.
  destruct (byte_at_some p off I0) as (x0 & X0 & B0).
  destruct (byte_at_some p (off + 1) I1) as (x1 & X1 & B1).
  assert (x0 = b0) by congruence. assert (x1 = b1) by congruence. subst.
  apply lor_shift8_bounds; assumption.
Qed.

Lemma GetSShort_some p off :
  0 <= off -> off + 2 <= Z.of_nat (length p) ->
  exists v, GetSShort p off = Some v /\ - 32768 <= v < 32768.
Proof.
  intros H0 H1. unfold GetSShort.
  destruct (byte_at_some p off ltac:(lia)) as (b0 & -> & B0).
  destruct (byte_at_some p (off + 1) ltac:(lia)) as (b1 & -> & B1).
  eexists. split; [reflexivity|]. unfold to_s16.
  pose proof (Z.mod_pos_bound (Z.lor (Z.shiftl b0 8) b1 + 2 ^ 15) (2 ^ 16) ltac:(lia)). lia.
Qed.

Lemma GetUInt_some p off :
  0 <= off -> off + 4 <= Z.of_nat (length p) ->
  exists v, GetUInt p off = Some v /\ 0 <= v < 2 ^ 32.
Proof.
  intros H0 H1. unfold GetUInt.
  destruct (byte_at_some p off ltac:(lia)) as (b0 & -> & B0).
  destruct (byte_at_some p (off + 1) ltac:(lia)) as (b1 & -> & B1).
  destruct (byte_at_some p (off + 2) ltac:(lia)) as (b2 & -> & B2).
  destruct (byte_at_some p (off + 3) ltac:(lia)) as (b3 & -> & B3).
  eexists. split; [reflexivity|]. unfold to_u32. apply Z.mod_pos_bound. lia.
Qed.

Lemma GetUInt_bounds p off v : GetUInt p off = Some v -> 0 <= v < 2 ^ 32.
Proof.
  unfold GetUInt.
  destruct (byte_at p off); [|discriminate].
  destruct (byte_at p (off + 1)); [|discriminate].
  destruct (byte_at p (off + 2)); [|discriminate].
  destruct (byte_at p (off + 3)); [|discriminate].
  intros H. inversion H. unfold to_u32. apply Z.mod_pos_bound. lia.
Qed.

(** ** The header *)

Lemma check_header_passed buf nLength b nSubTables :
  check_header (Some buf) nLength = Some (Some (b, nSubTables)) ->
  b = buf /\ 24 <= nLength /\
  GetUShort buf 0 = Some 0 /\ GetUShort buf 2 = Some nSubTables /\
  0 < nSubTables <= (nLength - 24) / 8.
Proof.
  unfold check_header. intros H.
  destruct (nLength <? 24) eqn:E24; [discriminate | apply Z.ltb_ge in E24].
  destruct (GetUShort buf 0) as [version|] eqn:Hv; [|discriminate].
  destruct (version =? 0) eqn:Ev; [apply Z.eqb_eq in Ev; subst version | discriminate].
  cbn [negb] in H.
  destruct (GetUShort buf 2) as [n|] eqn:Hn; [|discriminate].
  destruct ((n <=? 0) || (n >? (nLength - 24) ÷ 8)) eqn:Ec; [discriminate|].
  rewrite Z.quot_div_nonneg in Ec by lia.
  apply orb_false_iff in Ec. rewrite Z.leb_gt, Z.gtb_ltb, Z.ltb_ge in Ec.
  inversion H; subst. repeat split; auto; lia.
Qed.

(** C7.  On a buffer of [nLength] bytes, [ParseCMAP] returns false, after
    reads inside of the buffer only, when the buffer is absent, when
    [nLength < 24], when the version field is not 0, or when the subtable
    count is [<= 0] or above [(nLength - 24) / 8]; and a parse that passes
    the validation of the header has a buffer, [nLength >= 24], version 0
    and a subtable count in [1, (nLength - 24) / 8]. *)
Theorem ParseCMAP_header cv pCmap nLength :
  buffer_of_length pCmap nLength ->
  (header_violation pCmap nLength ->
     check_header pCmap nLength = Some None /\
     ParseCMAP cv pCmap nLength = Some (false, rResult0)) /\
  (forall buf nSubTables,
     check_header pCmap nLength = Some (Some (buf, nSubTables)) ->
     pCmap = Some buf /\ 24 <= nLength /\
     GetUShort buf 0 = Some 0 /\ GetUShort buf 2 = Some nSubTables /\
     0 < nSubTables <= (nLength - 24) / 8) /\
  (~ header_violation pCmap nLength ->
     exists buf nSubTables, check_header pCmap nLength = Some (Some (buf, nSubTables))).
Proof.
  intros Hlen. unfold ParseCMAP, check_header, header_violation.
  destruct pCmap as [buf|]; simpl in Hlen.
  2:{ split; [auto|]. split; [discriminate | tauto]. }
  destruct (nLength <? 24) eqn:E24; [apply Z.ltb_lt in E24 | apply Z.ltb_ge in E24].
  { split; [auto|]. split; [discriminate | intros H; exfalso; apply H; auto]. }
  destruct (GetUShort_some buf 0 ltac:(lia) ltac:(lia)) as (version & Hv & Bv).
  destruct (GetUShort_some buf 2 ltac:(lia) ltac:(lia)) as (n & Hn & Bn).
  rewrite Hv. 
  destruct (version =? 0) eqn:Ev; [apply Z.eqb_eq in Ev; subst version | apply Z.eqb_neq in Ev];
    cbn [negb].
  2:{ split; [auto|]. split; [discriminate|].
      intros H; exfalso; apply H. right. left. congruence. }
  rewrite Hn.
  assert (Hq : (nLength - 24) ÷ 8 = (nLength - 24) / 8) by (apply Z.quot_div_nonneg; lia).
  rewrite Hq.
  destruct ((n <=? 0) || (n >? (nLength - 24) / 8)) eqn:Ec.
  - split; [auto|]. split; [discriminate|].
    intros H; exfalso; apply H. right. right. exists n. split; [reflexivity|].
    apply orb_true_iff in Ec. rewrite Z.leb_le, Z.gtb_ltb, Z.ltb_lt in Ec. lia.
  - apply orb_false_iff in Ec. rewrite Z.leb_gt, Z.gtb_ltb, Z.ltb_ge in Ec.
    split; [|split].
    + intros [H | [H | (n' & Hn' & H)]]; [lia | congruence |].
      assert (n' = n) by congruence. subst. lia.
    + intros b k H. inversion H; subst. repeat split; auto; lia.
    + intros _. eauto.
Qed.

Lemma ParseCMAP_header_witness :
  (check_header (Some (bytes_of [0; 1; 0; 1])) 4 = Some None /\
   ParseCMAP bytewise (Some (bytes_of [0; 1; 0; 1])) 4 = Some (false, rResult0)) /\
  (Some table_A = Some table_A /\ 24 <= 44 /\
   GetUShort table_A 0 = Some 0 /\ GetUShort table_A 2 = Some 1 /\
   0 < 1 <= (44 - 24) / 8).
Proof.
  split.
  - apply (proj1 (ParseCMAP_header bytewise (Some (bytes_of [0; 1; 0; 1])) 4 eq_refl)).
    simpl. left. lia.
  - apply (proj1 (proj2 (ParseCMAP_header bytewise (Some table_A) 44 eq_refl)) table_A 1).
    vm_compute. reflexivity.
Defined.

(** ** The symbolic fallback *)

(** C9.  When the decoding of the best subtable leaves no range: if a
    subtable record set the symbolic flag, the parse succeeds with the two
    ranges [0x0020, 0x0100) and [0xF020, 0xF100) and without Glyph Origin
    data, and [HasChar 0x41] holds of the map built from the result; if
    not, the parse fails. *)
Theorem ParseCMAP_symbolic_fallback cv buf nLength nSubTables sel dec :
  check_header (Some buf) nLength = Some (Some (buf, nSubTables)) ->
  decode_stage buf nLength nSubTables = Some (sel, dec) ->
  nRangeCount dec <= 0 ->
  (mbSymbolic sel = true ->
     exists r,
       ParseCMAP cv (Some buf) nLength = Some (true, r) /\
       cr_mpRangeCodes r = codes_new [0x0020; 0x0100; 0xF020; 0xF100] /\
       cr_mnRangeCount r = 2 /\
       cr_mpStartGlyphs r = None /\ cr_mpGlyphIds r = None /\
       HasChar (ImplFontCharMap_ctor r) 0x41 = true) /\
  (mbSymbolic sel = false ->
     exists r, ParseCMAP cv (Some buf) nLength = Some (false, r)).
Proof.
  intros Hh Hd Hn.
  rewrite (ParseCMAP_stages cv _ _ _ _ _ Hh Hd). unfold finish.
  replace (nRangeCount dec <=? 0) with true by (symmetry; apply Z.leb_le; lia).
  split; intros ->.
  - eexists. split; [reflexivity|]. repeat split.
  - eexists. reflexivity.
Qed.

Lemma ParseCMAP_symbolic_fallback_witness :
  (exists r,
     ParseCMAP bytewise (Some table_symbol) 36 = Some (true, r) /\
     cr_mpRangeCodes r = codes_new [0x0020; 0x0100; 0xF020; 0xF100] /\
     cr_mnRangeCount r = 2 /\
     cr_mpStartGlyphs r = None /\ cr_mpGlyphIds r = None /\
     HasChar (ImplFontCharMap_ctor r) 0x41 = true) /\
  (exists r, ParseCMAP bytewise (Some table_A_single) 36 = Some (false, r)).
Proof.
  split.
  - apply (proj1 (ParseCMAP_symbolic_fallback bytewise table_symbol 36 1
                    (mkSelection RTL_TEXTENCODING_UNICODE 12 4 5 true)
                    (mkDecoded 0 (Some []) (Some []) [0])
                    ltac:(vm_compute; reflexivity) ltac:(vm_compute; reflexivity)
                    ltac:(vm_compute; discriminate))).
    reflexivity.
  - apply (proj2 (ParseCMAP_symbolic_fallback bytewise table_A_single 36 1
                    (mkSelection RTL_TEXTENCODING_UNICODE 12 4 28 false)
                    (mkDecoded 0 (Some []) (Some []) [0])
                    ltac:(vm_compute; reflexivity) ltac:(vm_compute; reflexivity)
                    ltac:(vm_compute; discriminate))).
    reflexivity.
Defined.

(** ** A format 4 table with the segment 0x41..0x41 *)

(** C10 (amended).  The format 4 table [table_A] declares two segments,
    [0x41..0x41] with delta 0 and range offset 0 and the final segment
    [0xFFFF..0xFFFF]; it parses to the one range [0x41, 0x42) with the
    direct Glyph Origin [(0x41 + 0) mod 65536], and on the map built from
    the result [GetGlyphIndex 0x41] is [0x41] and [HasChar 0x40] is false. *)
Theorem ParseCMAP_format4_single_segment :
  ParseCMAP bytewise (Some table_A) 44 =
    Some (true, mkCmapResult (codes_new [0x41; 0x42]) (Some [(0x41 + 0) mod 65536])
                  (Some [0]) 1 false false) /\
  GetGlyphIndex (map_of table_A) 0x41 = 0x41 /\
  HasChar (map_of table_A) 0x40 = false /\
  HasChar (map_of table_A) 0x41 = true /\
  GetCharCount (map_of table_A) = 1.
Proof.
  repeat split; vm_compute; reflexivity.
Qed.

(** C10 as stated fails when the table declares the one segment only
    ([segCountX2 = 2]): the range count is [segCountX2 / 2 - 1 = 0], no
    segment is decoded and the parse returns false. *)
Lemma ParseCMAP_format4_lone_segment_fails :
  GetUShort table_A_single (12 + 6) = Some 2 /\
  format4_count 36 12 2 = 0 /\
  decode_format4 table_A_single 36 12 = Some (mkDecoded 0 (Some []) (Some []) [0]) /\
  ParseCMAP bytewise (Some table_A_single) 36 = Some (false, rResult0).
Proof.
  repeat split; vm_compute; reflexivity.
Qed.

(** ** Every read of ParseCMAP stays inside of the buffer *)

Section InBounds.

Variables (buf : list byte) (nLength : Z).
Hypothesis Hlen : Z.of_nat (length buf) = nLength.

Lemma set_symbolic_nOffset b st : nOffset (set_symbolic b st) = nOffset st.
Proof. destruct b; reflexivity. Qed.

Lemma take_best_in_bounds st nValue nTmpOffset nTmpFormat e :
  selection_in_bounds nLength st -> 0 <= nTmpOffset <= nLength - 2 ->
  selection_in_bounds nLength (take_best st nValue nTmpOffset nTmpFormat e).
Proof.
  intros H1 H2. unfold take_best. destruct (nBestVal st <? nValue); [exact H2 | exact H1].
Qed.

Lemma select_step_in_bounds p st :
  0 <= p -> p + 8 <= nLength -> selection_in_bounds nLength st ->
  exists st', select_step buf nLength p st = Some st' /\ selection_in_bounds nLength st'.
Proof.
  intros Hp Hp8 Hst. unfold select_step.
  destruct (GetUShort_some buf p ltac:(lia) ltac:(lia)) as (nPlatform & -> & _).
  destruct (GetUShort_some buf (p + 2) ltac:(lia) ltac:(lia)) as (nEncoding & -> & _).
  destruct (platform_encoding (Z.shiftl nPlatform 8 + nEncoding)) as [[nValue e] bSym].
  assert (Hst' : selection_in_bounds nLength (set_symbolic bSym st)).
  { unfold selection_in_bounds. rewrite set_symbolic_nOffset. exact Hst. }
  destruct (nValue <=? 0); [eauto|].
  destruct (GetUInt_some buf (p + 4) ltac:(lia) ltac:(lia)) as (u & -> & _).
  destruct ((to_int u >? nLength - 2) || (to_int u <? 0)) eqn:E; [eauto|].
  apply orb_false_iff in E. rewrite Z.gtb_ltb, Z.ltb_ge, Z.ltb_ge in E.
  destruct (GetUShort_some buf (to_int u) ltac:(lia) ltac:(lia)) as (nTmpFormat & -> & _).
  destruct (nTmpFormat =? 12).
  - eexists. split; [reflexivity | apply take_best_in_bounds; [assumption | lia] ].
  - destruct (negb (nTmpFormat =? 4)); [eauto|].
    eexists. split; [reflexivity | apply take_best_in_bounds; [assumption | lia] ].
Qed.

Lemma select_loop_in_bounds :
  forall n p st,
    0 <= p -> p + 8 * Z.of_nat n <= nLength -> selection_in_bounds nLength st ->
    exists st', select_loop buf nLength n p st = Some st' /\ selection_in_bounds nLength st'.
Proof.
  induction n as [|n IH]; intros p st Hp Hn Hst; simpl.
  - eauto.
  - destruct (select_step_in_bounds p st Hp ltac:(lia) Hst) as (st1 & -> & Hst1).
    apply IH; [lia | lia | assumption].
Qed.

Lemma glyph_id_loop_in_bounds nGlyphDelta :
  forall n p ids,
    0 <= p -> p + 2 * Z.of_nat n <= nLength ->
    exists ids', glyph_id_loop buf n p nGlyphDelta ids = Some ids'.
Proof.
  induction n as [|n IH]; intros p ids Hp Hn; simpl.
  - eauto.
  - destruct (GetUShort_some buf p ltac:(lia) ltac:(lia)) as (v & -> & _).
    apply IH; lia.
Qed.

Lemma format4_loop_in_bounds pLimitBase pBeginBase pDeltaBase pOffsetBase :
  0 <= pLimitBase -> pLimitBase <= pBeginBase -> pBeginBase <= pDeltaBase ->
  pDeltaBase <= pOffsetBase ->
  forall n i st,
    0 <= i -> (n <> O -> pOffsetBase + 2 * (i + Z.of_nat n) <= nLength) ->
    exists st',
      format4_loop buf nLength pLimitBase pBeginBase pDeltaBase pOffsetBase n i st = Some st'.
Proof.
  intros H1 H2 H3 H4.
  induction n as [|n IH]; intros i st Hi Hn; cbn [format4_loop].
  - eauto.
  - specialize (Hn ltac:(discriminate)).
    destruct (GetUShort_some buf (pBeginBase + 2 * i) ltac:(lia) ltac:(lia))
      as (cMinChar & -> & Bmin).
    destruct (GetUShort_some buf (pLimitBase + 2 * i) ltac:(lia) ltac:(lia))
      as (cMaxChar & -> & Bmax).
    destruct (GetSShort_some buf (pDeltaBase + 2 * i) ltac:(lia) ltac:(lia))
      as (nGlyphDelta & -> & _).
    destruct (GetUShort_some buf (pOffsetBase + 2 * i) ltac:(lia) ltac:(lia))
      as (nRangeOffset & -> & Boff).
    destruct (cMinChar >? cMaxChar) eqn:E1; [eauto|].
    destruct (cMaxChar =? 0xFFFF) eqn:E2; [eauto|].
    rewrite Z.gtb_ltb in E1. apply Z.ltb_ge in E1.
    assert (Hnext : forall st0, exists st',
               format4_loop buf nLength pLimitBase pBeginBase pDeltaBase pOffsetBase
                 n (i + 1) st0 = Some st').
    { intros st0. apply IH; [lia|]. intros _. lia. }
    cbv zeta.
    destruct (nRangeOffset =? 0); [apply Hnext|].
    set (pGlyphIdPtr := pOffsetBase + 2 * i + nRangeOffset).
    set (nRemainingSize := if nLength >=? pGlyphIdPtr then nLength - pGlyphIdPtr else 0).
    assert (Hrem : 0 <= nRemainingSize /\ pGlyphIdPtr + nRemainingSize <= Z.max nLength pGlyphIdPtr).
    { unfold nRemainingSize. destruct (nLength >=? pGlyphIdPtr) eqn:E;
        [apply Z.geb_le in E | rewrite Z.geb_leb in E; apply Z.leb_gt in E]; lia. }
    pose proof (quot2_bounds nRemainingSize ltac:(lia)) as Q.
    destruct (nRemainingSize ÷ 2 =? 0) eqn:E3; [eauto | apply Z.eqb_neq in E3].
    destruct (cMaxChar >? cMinChar + nRemainingSize ÷ 2 - 1) eqn:E4; [eauto|].
    rewrite Z.gtb_ltb in E4. apply Z.ltb_ge in E4.
    assert (Hend : pGlyphIdPtr + nRemainingSize <= nLength).
    { unfold nRemainingSize in *. destruct (nLength >=? pGlyphIdPtr) eqn:E;
        [apply Z.geb_le in E; lia | exfalso; apply E3; reflexivity]. }
    destruct (glyph_id_loop_in_bounds nGlyphDelta (Z.to_nat (cMaxChar - cMinChar + 1))
                pGlyphIdPtr (seg_aGlyphIdArray st)) as (ids & Hids);
      [unfold pGlyphIdPtr; lia | lia |].
    cbn [seg_aGlyphIdArray seg_pCP seg_pStartGlyphs]. rewrite Hids. apply Hnext.
Qed.

Hypothesis Hfit : offsets_fit_int nLength.

Lemma format4_count_in_bounds nOffset nSegCountX2 :
  0 <= nOffset -> 0 <= nSegCountX2 < 65536 -> nOffset + 16 < nLength ->
  let n := format4_count nLength nOffset nSegCountX2 in
  0 <= n /\ (0 < n -> nOffset + 16 + 3 * nSegCountX2 + 2 * n <= nLength).
Proof.
  intros Ho Hx Hlt. unfold offsets_fit_int, INT_MAX in Hfit. unfold format4_count. cbv zeta.
  replace (nOffset + 14 + nSegCountX2 + 2 + nSegCountX2 + nSegCountX2)
    with (nOffset + 16 + 3 * nSegCountX2) by lia.
  rewrite to_int_sub_to_int.
  rewrite (to_int_id (nLength - (nOffset + 16 + 3 * nSegCountX2))) by lia.
  set (nRemainingLen := nLength - (nOffset + 16 + 3 * nSegCountX2)).
  set (n0 := if nSegCountX2 ÷ 2 - 1 <? 0 then 0 else nSegCountX2 ÷ 2 - 1).
  assert (H0 : 0 <= n0).
  { unfold n0. destruct (nSegCountX2 ÷ 2 - 1 <? 0) eqn:E; [lia | apply Z.ltb_ge in E; lia]. }
  destruct (n0 >? nRemainingLen ÷ 2) eqn:E;
    [|rewrite Z.gtb_ltb in E; apply Z.ltb_ge in E].
  - split; [lia|]. intros Hpos.
    assert (0 < nRemainingLen ÷ 2) by lia.
    assert (0 <= nRemainingLen).
    { destruct (Z_lt_le_dec nRemainingLen 0) as [Hneg|]; [|lia].
      pose proof (Z.quot_opp_l nRemainingLen 2 ltac:(lia)).
      pose proof (quot2_bounds (- nRemainingLen) ltac:(lia)). lia. }
    pose proof (quot2_bounds nRemainingLen ltac:(lia)). unfold nRemainingLen in *. lia.
  - split; [lia|]. intros Hpos.
    assert (0 <= nRemainingLen).
    { destruct (Z_lt_le_dec nRemainingLen 0) as [Hneg|]; [|lia].
      pose proof (Z.quot_opp_l nRemainingLen 2 ltac:(lia)).
      pose proof (quot2_bounds (- nRemainingLen) ltac:(lia)). lia. }
    pose proof (quot2_bounds nRemainingLen ltac:(lia)). unfold nRemainingLen in *. lia.
Qed.

Lemma decode_format4_in_bounds nOffset :
  0 <= nOffset -> nOffset + 16 < nLength ->
  exists dec, decode_format4 buf nLength nOffset = Some dec.
Proof.
  intros Ho Hlt. unfold decode_format4.
  destruct (GetUShort_some buf (nOffset + 6) ltac:(lia) ltac:(lia)) as (x2 & -> & Bx).
  destruct (format4_count_in_bounds nOffset x2 Ho Bx Hlt) as (C0 & C1).
  cbv zeta.
  destruct (format4_loop_in_bounds (nOffset + 14) (nOffset + 14 + x2 + 2)
              (nOffset + 14 + x2 + 2 + x2) (nOffset + 14 + x2 + 2 + x2 + x2)
              ltac:(lia) ltac:(lia) ltac:(lia) ltac:(lia)
              (Z.to_nat (format4_count nLength nOffset x2)) 0 (mkSegState [] [] [0]))
    as (st & ->); [lia | | eauto].
  intros Hn. assert (0 < format4_count nLength nOffset x2) by lia.
  specialize (C1 ltac:(assumption)). lia.
Qed.

Lemma quot12_bounds a : 0 <= a -> 12 * (a ÷ 12) <= a < 12 * (a ÷ 12) + 12.
Proof.
  intros H. rewrite Z.quot_div_nonneg by lia.
  pose proof (Z.div_mod a 12). pose proof (Z.mod_pos_bound a 12). lia.
Qed.

Lemma format12_loop_in_bounds :
  forall n pGroup pCP starts,
    0 <= pGroup -> (n <> O -> pGroup + 12 * Z.of_nat n <= nLength) ->
    exists r, format12_loop buf n pGroup pCP starts = Some r.
Proof.
  induction n as [|n IH]; intros pGroup pCP starts Hp Hn; cbn [format12_loop].
  - eauto.
  - specialize (Hn ltac:(discriminate)).
    destruct (GetUInt_some buf (pGroup + 0) ltac:(lia) ltac:(lia)) as (cMinChar & -> & _).
    destruct (GetUInt_some buf (pGroup + 4) ltac:(lia) ltac:(lia)) as (cMaxChar & -> & _).
    destruct (GetUInt_some buf (pGroup + 8) ltac:(lia) ltac:(lia)) as (u & -> & _).
    cbv zeta. destruct (cMinChar >? cMaxChar); [eauto|].
    apply IH; [lia|]. intros _. lia.
Qed.

Lemma format12_count_in_bounds nOffset nGroups :
  0 <= nOffset -> nOffset + 16 < nLength ->
  let n := format12_count nLength nOffset nGroups in
  0 <= n /\ (0 < n -> nOffset + 16 + 12 * n <= nLength).
Proof.
  intros Ho Hlt. unfold offsets_fit_int, INT_MAX in Hfit. unfold format12_count. cbv zeta.
  rewrite (to_int_id (nOffset + 16)) by lia.
  rewrite (to_int_id (nLength - (nOffset + 16))) by lia.
  set (n0 := if to_int nGroups <? 0 then 0 else to_int nGroups).
  assert (H0 : 0 <= n0).
  { unfold n0. destruct (to_int nGroups <? 0) eqn:E; [lia | apply Z.ltb_ge in E; lia]. }
  pose proof (quot12_bounds (nLength - (nOffset + 16)) ltac:(lia)).
  destruct (n0 >? (nLength - (nOffset + 16)) ÷ 12) eqn:E;
    [|rewrite Z.gtb_ltb in E; apply Z.ltb_ge in E]; split; lia.
Qed.

Lemma decode_format12_in_bounds nOffset :
  0 <= nOffset -> nOffset + 16 < nLength ->
  exists dec, decode_format12 buf nLength nOffset = Some dec.
Proof.
  intros Ho Hlt. unfold decode_format12.
  destruct (GetUInt_some buf (nOffset + 12) ltac:(lia) ltac:(lia)) as (g & -> & Bg).
  destruct (format12_count_in_bounds nOffset g Ho Hlt) as (C0 & C1).
  cbv zeta. unfold offsets_fit_int, INT_MAX in Hfit.
  rewrite (to_int_id (nOffset + 16)) by lia.
  destruct (format12_loop_in_bounds (Z.to_nat (format12_count nLength nOffset g))
              (nOffset + 16) [] []) as (r & ->); [lia | | eauto].
  intros Hn. assert (0 < format12_count nLength nOffset g) by lia.
  specialize (C1 ltac:(assumption)). lia.
Qed.

Lemma decode_best_in_bounds sel :
  selection_in_bounds nLength sel ->
  exists dec, decode_best buf nLength sel = Some dec.
Proof.
  intros Hsel. unfold selection_in_bounds in Hsel.
  unfold offsets_fit_int, INT_MAX in Hfit. unfold decode_best.
  rewrite (to_int_id (nOffset sel + 16)) by lia.
  destruct (nOffset sel + 16 <? nLength) eqn:E;
    [apply Z.ltb_lt in E | rewrite !andb_false_r; eauto].
  rewrite !andb_true_r.
  destruct (nFormat sel =? 4); [apply decode_format4_in_bounds; lia|].
  destruct (nFormat sel =? 12); [apply decode_format12_in_bounds; lia|].
  eauto.
Qed.

Lemma ParseCMAP_returns cv :
  exists res, ParseCMAP cv (Some buf) nLength = Some res.
Proof.
  unfold ParseCMAP.
  assert (Hh : exists hdr, check_header (Some buf) nLength = Some hdr).
  { unfold check_header. destruct (nLength <? 24) eqn:E; [eauto | apply Z.ltb_ge in E].
    destruct (GetUShort_some buf 0 ltac:(lia) ltac:(lia)) as (v & -> & _).
    destruct (negb (v =? 0)); [eauto|].
    destruct (GetUShort_some buf 2 ltac:(lia) ltac:(lia)) as (n & -> & _).
    destruct ((n <=? 0) || (n >? (nLength - 24) ÷ 8)); eauto. }
  destruct Hh as (hdr & Hh). rewrite Hh.
  destruct hdr as [[b nSubTables]|]; [|eauto].
  destruct (check_header_passed _ _ _ _ Hh) as (Hb & H24 & _ & _ & Hn). subst b.
  assert (8 * ((nLength - 24) / 8) <= nLength - 24).
  { pose proof (Z.div_mod (nLength - 24) 8). pose proof (Z.mod_pos_bound (nLength - 24) 8). lia. }
  unfold decode_stage.
  destruct (select_loop_in_bounds (Z.to_nat nSubTables) 4 Selection0)
    as (sel & -> & Hsel); [lia | lia | unfold selection_in_bounds; simpl; lia |].
  destruct (decode_best_in_bounds sel Hsel) as (dec & ->).
  eauto.
Qed.

End InBounds.

(** *** What the decoding loops leave *)

Lemma format4_loop_pairs buf nLength pLimitBase pBeginBase pDeltaBase pOffsetBase :
  forall n i st st',
    format4_loop buf nLength pLimitBase pBeginBase pDeltaBase pOffsetBase n i st = Some st' ->
    exists more,
      seg_pCP st' = seg_pCP st ++ more /\ code_pairs Z.lt more /\
      Z.of_nat (length more) <= 2 * Z.of_nat n.
Proof.
  induction n as [|n IH]; intros i st st' H; cbn [format4_loop] in H.
  - inversion H; subst. exists []. rewrite app_nil_r.
    repeat split; [constructor | simpl; lia].
  - assert (Hstop : forall s, seg_pCP s = seg_pCP st -> Some s = Some st' ->
              exists more, seg_pCP st' = seg_pCP st ++ more /\ code_pairs Z.lt more /\
                           Z.of_nat (length more) <= 2 * Z.of_nat (S n)).
    { intros s Hs E. inversion E; subst. exists []. rewrite app_nil_r.
      repeat split; [auto | constructor | simpl; lia]. }
    destruct (GetUShort buf (pBeginBase + 2 * i)) as [cMinChar|] eqn:R1; [|discriminate].
    destruct (GetUShort buf (pLimitBase + 2 * i)) as [cMaxChar|] eqn:R2; [|discriminate].
    destruct (GetSShort buf (pDeltaBase + 2 * i)) as [nGlyphDelta|]; [|discriminate].
    destruct (GetUShort buf (pOffsetBase + 2 * i)) as [nRangeOffset|]; [|discriminate].
    apply GetUShort_bounds in R1, R2.
    destruct (cMinChar >? cMaxChar) eqn:E1; [apply (Hstop st); auto|].
    destruct (cMaxChar =? 0xFFFF) eqn:E2; [apply (Hstop st); auto|].
    rewrite Z.gtb_ltb in E1. apply Z.ltb_ge in E1. apply Z.eqb_neq in E2.
    assert (Hacc : forall s, seg_pCP s = seg_pCP st ->
              format4_loop buf nLength pLimitBase pBeginBase pDeltaBase pOffsetBase n (i + 1)
                (mkSegState (seg_pCP s ++ [cMinChar; to_u32 (cMaxChar + 1)])
                   (seg_pStartGlyphs s) (seg_aGlyphIdArray s)) = Some st' ->
              exists more, seg_pCP st' = seg_pCP st ++ more /\ code_pairs Z.lt more /\
                           Z.of_nat (length more) <= 2 * Z.of_nat (S n)).
    { intros s Hs E. destruct (IH _ _ _ E) as (more & M1 & M2 & M3).
      cbn [seg_pCP] in M1. rewrite Hs, <- app_assoc in M1.
      exists ([cMinChar; to_u32 (cMaxChar + 1)] ++ more). split; [exact M1|]. split.
      - simpl. constructor; [|exact M2]. rewrite to_u32_id by lia. lia.
      - simpl length. lia. }
    cbv zeta in H.
    destruct (nRangeOffset =? 0); [refine (Hacc _ _ H); reflexivity|].
    match type of H with context [if ?b then Some ?s else _] =>
      destruct b; [apply (Hstop s); auto|] end.
    match type of H with context [if ?b then Some ?s else _] =>
      destruct b; [apply (Hstop s); auto|] end.
    match type of H with context [glyph_id_loop ?a ?b ?c ?d ?e] =>
      destruct (glyph_id_loop a b c d e) as [ids|]; [|discriminate] end.
    refine (Hacc _ _ H); reflexivity.
Qed.

Lemma format12_loop_pairs buf :
  forall n pGroup pCP starts r,
    format12_loop buf n pGroup pCP starts = Some r ->
    exists more,
      fst r = pCP ++ more /\ code_pairs (fun _ _ => True) more /\
      Z.of_nat (length more) <= 2 * Z.of_nat n.
Proof.
  induction n as [|n IH]; intros pGroup pCP starts r H; cbn [format12_loop] in H.
  - inversion H; subst. exists []. rewrite app_nil_r.
    repeat split; [constructor | simpl; lia].
  - destruct (GetUInt buf (pGroup + 0)) as [cMinChar|]; [|discriminate].
    destruct (GetUInt buf (pGroup + 4)) as [cMaxChar|]; [|discriminate].
    destruct (GetUInt buf (pGroup + 8)) as [u|]; [|discriminate].
    cbv zeta in H. destruct (cMinChar >? cMaxChar).
    + inversion H; subst. exists []. rewrite app_nil_r.
      repeat split; [constructor | simpl; lia].
    + destruct (IH _ _ _ _ H) as (more & M1 & M2 & M3).
      rewrite <- app_assoc in M1.
      exists ([cMinChar; to_u32 (cMaxChar + 1)] ++ more). split; [exact M1|]. split.
      * simpl. constructor; [exact I | exact M2].
      * simpl length. lia.
Qed.

Lemma code_pairs_even P l : code_pairs P l -> Z.of_nat (length l) = 2 * (Z.of_nat (length l) ÷ 2).
Proof.
  induction 1 as [|a b l _ _ IH]; [reflexivity|].
  change (length (a :: b :: l)) with (S (S (length l))).
  pose proof (quot2_bounds (Z.of_nat (length l)) ltac:(lia)).
  pose proof (quot2_bounds (Z.of_nat (S (S (length l)))) ltac:(lia)). lia.
Qed.

(** *** The counts are clamped downwards *)

Lemma to_int_le x : 0 <= x -> to_int x <= x.
Proof.
  intros H. unfold to_int.
  pose proof (Z.mod_le (x + 2 ^ 31) (2 ^ 32) ltac:(lia) ltac:(lia)). lia.
Qed.

Lemma format4_count_le nLength nOffset nSegCountX2 :
  0 <= nSegCountX2 ->
  0 <= format4_count nLength nOffset nSegCountX2 <= nSegCountX2 ÷ 2.
Proof.
  intros Hx. pose proof (quot2_bounds nSegCountX2 Hx) as Q.
  unfold format4_count. cbv zeta.
  set (n0 := if nSegCountX2 ÷ 2 - 1 <? 0 then 0 else nSegCountX2 ÷ 2 - 1).
  assert (H0 : 0 <= n0 <= nSegCountX2 ÷ 2).
  { unfold n0. destruct (nSegCountX2 ÷ 2 - 1 <? 0) eqn:E; [|apply Z.ltb_ge in E]; lia. }
  match goal with |- context [n0 >? ?m] =>
    destruct (n0 >? m) eqn:E; [rewrite Z.gtb_ltb in E; apply Z.ltb_lt in E|] end; lia.
Qed.

Lemma format12_count_le nLength nOffset nGroups :
  0 <= nGroups ->
  0 <= format12_count nLength nOffset nGroups <= nGroups.
Proof.
  intros Hg. pose proof (to_int_le nGroups Hg) as L.
  unfold format12_count. cbv zeta.
  set (n0 := if to_int nGroups <? 0 then 0 else to_int nGroups).
  assert (H0 : 0 <= n0 <= nGroups).
  { unfold n0. destruct (to_int nGroups <? 0) eqn:E; [|apply Z.ltb_ge in E]; lia. }
  match goal with |- context [n0 >? ?m] =>
    destruct (n0 >? m) eqn:E; [rewrite Z.gtb_ltb in E; apply Z.ltb_lt in E|] end; lia.
Qed.

Lemma decode_format4_count buf nLength nOffset dec :
  decode_format4 buf nLength nOffset = Some dec ->
  exists nSegCountX2 pairs,
    GetUShort buf (nOffset + 6) = Some nSegCountX2 /\
    pCodePairs dec = Some pairs /\ code_pairs Z.lt pairs /\
    Z.of_nat (length pairs) = 2 * nRangeCount dec /\
    0 <= nRangeCount dec <= format4_count nLength nOffset nSegCountX2 /\
    format4_count nLength nOffset nSegCountX2 <= nSegCountX2 ÷ 2.
Proof.
  unfold decode_format4. intros H.
  destruct (GetUShort buf (nOffset + 6)) as [x2|] eqn:R; [|discriminate].
  pose proof (GetUShort_bounds _ _ _ R) as Bx.
  pose proof (format4_count_le nLength nOffset x2 ltac:(lia)) as C.
  cbv zeta in H.
  match type of H with context [format4_loop ?a ?b ?c ?d ?e ?f ?g ?h ?i] =>
    destruct (format4_loop a b c d e f g h i) as [st|] eqn:L; [|discriminate] end.
  destruct (format4_loop_pairs _ _ _ _ _ _ _ _ _ _ L) as (more & M1 & M2 & M3).
  simpl in M1. inversion H; subst dec. cbn [pCodePairs nRangeCount].
  rewrite M1. pose proof (code_pairs_even _ _ M2) as Ev.
  exists x2, more. repeat split; auto; try lia.
Qed.

Lemma decode_format12_count buf nLength nOffset dec :
  decode_format12 buf nLength nOffset = Some dec ->
  exists nGroups pairs,
    GetUInt buf (nOffset + 12) = Some nGroups /\
    pCodePairs dec = Some pairs /\
    Z.of_nat (length pairs) = 2 * nRangeCount dec /\
    0 <= nRangeCount dec <= format12_count nLength nOffset nGroups /\
    format12_count nLength nOffset nGroups <= nGroups.
Proof.
  unfold decode_format12. intros H.
  destruct (GetUInt buf (nOffset + 12)) as [g|] eqn:R; [|discriminate].
  pose proof (GetUInt_bounds _ _ _ R) as Bg.
  pose proof (format12_count_le nLength nOffset g ltac:(lia)) as C.
  cbv zeta in H.
  match type of H with context [format12_loop ?a ?b ?c ?d ?e] =>
    destruct (format12_loop a b c d e) as [r|] eqn:L; [|discriminate] end.
  destruct (format12_loop_pairs _ _ _ _ _ _ L) as (more & M1 & M2 & M3).
  simpl in M1. inversion H; subst dec. cbn [pCodePairs nRangeCount].
  rewrite M1. pose proof (code_pairs_even _ _ M2) as Ev.
  exists g, more. repeat split; auto; try lia.
Qed.

Lemma GetUInt_in_bounds p off v :
  GetUInt p off = Some v -> 0 <= off /\ off + 4 <= Z.of_nat (length p).
Proof.
  unfold GetUInt.
  destruct (byte_at p off) eqn:E0; [|discriminate].
  destruct (byte_at p (off + 1)); [|discriminate].
  destruct (byte_at p (off + 2)); [|discriminate].
  destruct (byte_at p (off + 3)) eqn:E3; [|discriminate].
  intros _. apply byte_at_in_bounds in E0, E3. lia.
Qed.

(** ** The boundary sequence of a parsed map *)

Lemma cell_cons2 a b (l : list Z) i : 2 <= i -> (a :: b :: l).[i] = l.[i - 2].
Proof.
  intros H. unfold cell.
  destruct (i <? 0) eqn:E; [lia|]. destruct (i - 2 <? 0) eqn:E'; [lia|].
  replace (Z.to_nat i) with (S (S (Z.to_nat (i - 2)))) by lia. reflexivity.
Qed.

Lemma code_pairs_cell P l :
  code_pairs P l ->
  forall k, 0 <= k -> 2 * k + 1 < Z.of_nat (length l) -> P l.[2 * k] l.[2 * k + 1].
Proof.
  induction 1 as [|a b l Hab _ IH]; intros k Hk Hlt; [cbn [length] in Hlt; lia|].
  destruct (Z.eq_dec k 0) as [->|Hne]; [exact Hab|].
  rewrite !cell_cons2 by lia.
  replace (2 * k - 2) with (2 * (k - 1)) by lia.
  replace (2 * k + 1 - 2) with (2 * (k - 1) + 1) by lia.
  apply IH; [lia|]. change (length (a :: b :: l)) with (S (S (length l))) in Hlt. lia.
Qed.

Lemma last_cell (l : list Z) : l <> [] -> last l 0 = l.[Z.of_nat (length l) - 1].
Proof.
  intros Hne. rewrite (app_removelast_last 0 Hne) at 2 3.
  rewrite cell_app_r; rewrite length_app; simpl length; [|lia].
  replace (Z.of_nat (length (removelast l) + 1) - 1 - Z.of_nat (length (removelast l)))
    with 0 by lia.
  reflexivity.
Qed.

Lemma strictly_increasing_snoc v x :
  strictly_increasing v -> (v <> [] -> last v 0 < x) -> strictly_increasing (v ++ [x]).
Proof.
  intros Hs Hx i Hi Hlt. rewrite length_app in Hlt. simpl length in Hlt.
  destruct (Z.eq_dec (i + 1) (Z.of_nat (length v))) as [E|E].
  - assert (Hne : v <> []) by (destruct v; [simpl in E; lia | discriminate]).
    rewrite cell_app_l by lia. rewrite cell_app_r by lia.
    replace (i + 1 - Z.of_nat (length v)) with 0 by lia.
    specialize (Hx Hne). rewrite (last_cell v Hne) in Hx.
    replace (Z.of_nat (length v) - 1) with i in Hx by lia. exact Hx.
  - rewrite !cell_app_l by lia. apply Hs; lia.
Qed.

Lemma strictly_increasing_prefix l r :
  strictly_increasing (l ++ r) -> strictly_increasing l.
Proof.
  intros Hs i Hi Hlt. specialize (Hs i Hi). rewrite length_app in Hs.
  rewrite !cell_app_l in Hs by lia. apply Hs. lia.
Qed.

Lemma sorted_insert_Forall (P : Z -> Prop) x v :
  P x -> Forall P v -> Forall P (sorted_insert x v).
Proof.
  intros Hx. induction 1 as [|y t Hy Ht IH]; simpl; [auto|].
  destruct (x <? y); [auto|]. destruct (x =? y); auto.
Qed.

Lemma sorted_insert_units x v :
  0 <= x < 65536 -> sorted_units v -> sorted_units (sorted_insert x v).
Proof.
  intros Hx (Hs & Hb). split; [|apply sorted_insert_Forall; assumption].
  clear Hb. induction Hs as [|y t Hs IH Hy]; simpl.
  - constructor; constructor.
  - destruct (x <? y) eqn:E1; [apply Z.ltb_lt in E1 | apply Z.ltb_ge in E1].
    + constructor; [constructor; assumption|].
      constructor; [assumption|].
      eapply Forall_impl; [|exact Hy]. intros z Hz. simpl in Hz. lia.
    + destruct (x =? y) eqn:E2; [constructor; assumption | apply Z.eqb_neq in E2].
      constructor; [exact IH|]. apply sorted_insert_Forall; [lia | exact Hy].
Qed.

Lemma Forall_firstn_units n (l : list Z) :
  Forall (fun x => 0 <= x < 65536) (firstn n (map to_u16 l)).
Proof.
  revert n. induction l as [|a l IH]; intros [|n]; simpl; constructor; [|apply IH].
  unfold to_u16. apply Z.mod_pos_bound. lia.
Qed.

Lemma insert_all_units out v :
  Forall (fun x => 0 <= x < 65536) out -> sorted_units v ->
  sorted_units (fold_left (fun v c => sorted_insert c v) out v).
Proof.
  intros Ho. revert v. induction Ho as [|c out Hc _ IH]; intros v Hv; simpl; [exact Hv|].
  apply IH. apply sorted_insert_units; assumption.
Qed.

Lemma convert_loop_units cv :
  forall fuel h cMin cEnd v,
    sorted_units v -> sorted_units (fst (convert_loop cv fuel h cMin cEnd v)).
Proof.
  induction fuel as [|fuel IH]; intros h cMin cEnd v Hv; cbn [convert_loop]; [exact Hv|].
  destruct ((cMin <? cEnd) && (cMin <=? SAL_MAX_UINT16)); [|exact Hv].
  destruct (input_loop NINSIZE cMin cEnd []) as [cMin' inp].
  destruct (rtl_convertTextToUnicode cv h inp) as [out h'].
  apply IH. apply insert_all_units; [apply Forall_firstn_units | exact Hv].
Qed.

Lemma recode_loop_units cv :
  forall n h pairs pCP v,
    sorted_units v -> sorted_units (recode_loop cv n h pairs pCP v).
Proof.
  induction n as [|n IH]; intros h pairs pCP v Hv; cbn [recode_loop]; [exact Hv|].
  match goal with |- context [convert_loop cv ?f ?h ?a ?b ?v] =>
    pose proof (convert_loop_units cv f h a b v Hv) as Hc;
    destruct (convert_loop cv f h a b v) as [points h'] end.
  apply IH. exact Hc.
Qed.

(** The ranges built from an ascending set of units: of even length and
    strictly increasing. *)
Lemma supported_ranges_increasing :
  forall points v,
    sorted_units points ->
    strictly_increasing v -> (exists k, length v = (2 * k)%nat) ->
    (v <> [] -> Forall (fun x => back v <= x) points) ->
    strictly_increasing (supported_ranges points v) /\
    exists k, length (supported_ranges points v) = (2 * k)%nat.
Proof.
  induction points as [|pt rest IH]; intros v (Hs & Hb) Hv (k & Hk) Hback;
    cbn [supported_ranges]; [split; [assumption | exists k; assumption]|].
  apply StronglySorted_inv in Hs. destruct Hs as (Hs & Hlt).
  inversion Hb as [|? ? Hpt Hb']; subst.
  rewrite (to_u32_id (pt + 1)) by lia.
  assert (Hrest : forall w, last w 0 = pt + 1 -> w <> [] -> Forall (fun x => back w <= x) rest).
  { intros w Hw _. unfold back. rewrite Hw.
    eapply Forall_impl; [|exact Hlt]. intros z Hz. simpl in Hz. lia. }
  assert (Hcase : v = [] \/ v <> [])
    by (destruct v; [left; reflexivity | right; discriminate]).
  destruct Hcase as [-> | Hne].
  - (* the first range *)
    cbn [orb app]. unfold set_back. cbn [removelast app].
    apply IH.
    + split; assumption.
    + intros i Hi Hlen. cbn [length] in Hlen. assert (i = 0) as -> by lia.
      change (pt < pt + 1). lia.
    + exists 1%nat. reflexivity.
    + apply Hrest. reflexivity.
  - replace (match v with [] => true | _ :: _ => false end) with false
      by (destruct v; [congruence | reflexivity]).
    cbn [orb].
    specialize (Hback Hne). inversion Hback as [|? ? Hle _]; subst.
    destruct (back v =? pt) eqn:E; [apply Z.eqb_eq in E | apply Z.eqb_neq in E]; cbn [negb].
    + (* the last range grows *)
      unfold set_back.
      pose proof (app_removelast_last 0 Hne) as Hsplit. fold (back v) in Hsplit.
      rewrite E in Hsplit.
      apply IH.
      * split; assumption.
      * apply strictly_increasing_snoc.
        -- rewrite Hsplit in Hv. exact (strictly_increasing_prefix _ _ Hv).
        -- intros Hne'. rewrite Hsplit in Hv.
           pose proof (Hv (Z.of_nat (length (removelast v)) - 1)) as Hstep.
           assert (0 < Z.of_nat (length (removelast v)))
             by (destruct (removelast v); [congruence | simpl; lia]).
           rewrite length_app in Hstep. simpl length in Hstep.
           specialize (Hstep ltac:(lia) ltac:(lia)).
           rewrite cell_app_l in Hstep by lia.
           rewrite cell_app_r in Hstep by lia.
           replace (Z.of_nat (length (removelast v)) - 1 + 1 - Z.of_nat (length (removelast v)))
             with 0 in Hstep by lia.
           rewrite <- last_cell in Hstep by assumption.
           change ([pt].[0]) with pt in Hstep. lia.
      * exists k. rewrite length_app. simpl length.
        rewrite Hsplit in Hk. rewrite length_app in Hk. simpl length in Hk. lia.
      * apply Hrest. apply last_last.
    + (* a new range *)
      unfold set_back. rewrite removelast_app by discriminate. cbn [removelast].
      apply IH.
      * split; assumption.
      * apply strictly_increasing_snoc.
        -- apply strictly_increasing_snoc; [exact Hv|]. intros _. unfold back in *. lia.
        -- intros _. rewrite last_last. lia.
      * exists (S k). rewrite !length_app. simpl length. lia.
      * apply Hrest. apply last_last.
Qed.

Lemma decode_best_pairs buf nLength sel dec :
  decode_best buf nLength sel = Some dec -> 0 < nRangeCount dec ->
  exists pairs,
    pCodePairs dec = Some pairs /\
    Z.of_nat (length pairs) = 2 * nRangeCount dec /\
    (nFormat sel = 4 -> code_pairs Z.lt pairs).
Proof.
  unfold decode_best. intros H Hpos.
  destruct ((nFormat sel =? 4) && (to_int (nOffset sel + 16) <? nLength)) eqn:E4.
  - destruct (decode_format4_count _ _ _ _ H) as (x2 & pairs & _ & A & B & C & _).
    exists pairs. auto.
  - destruct ((nFormat sel =? 12) && (to_int (nOffset sel + 16) <? nLength)) eqn:E12.
    + destruct (decode_format12_count _ _ _ _ H) as (g & pairs & _ & A & C & _).
      exists pairs. repeat split; auto.
      intros F. apply andb_true_iff in E12. destruct E12 as (E12 & _).
      apply Z.eqb_eq in E12. congruence.
    + inversion H; subst. simpl in Hpos. lia.
Qed.

(** The fuel of [convert_loop] suffices: a turn moves [cMin] up, so the
    loop has left by its condition when the fuel of [recode_loop] is spent,
    and more fuel changes nothing. *)
Lemma input_loop_advance :
  forall j cMin cEnd inp,
    cMin <= fst (input_loop j cMin cEnd inp) /\
    (j <> O -> cMin < cEnd -> cMin < fst (input_loop j cMin cEnd inp)).
Proof.
  induction j as [|j IH]; intros cMin cEnd inp; cbn [input_loop].
  - split; [simpl; lia | congruence].
  - destruct (cMin <? cEnd) eqn:E; [apply Z.ltb_lt in E | apply Z.ltb_ge in E].
    + match goal with |- context [input_loop j (cMin + 1) cEnd ?i] =>
        destruct (IH (cMin + 1) cEnd i) as (A & _) end.
      split; [lia | intros _ _; lia].
    + split; [simpl; lia | intros _ H; lia].
Qed.

Lemma convert_loop_fuel cv :
  forall fuel extra h cMin cEnd v,
    Z.min cEnd (SAL_MAX_UINT16 + 1) - cMin <= Z.of_nat fuel ->
    convert_loop cv (fuel + extra) h cMin cEnd v = convert_loop cv fuel h cMin cEnd v.
Proof.
  unfold SAL_MAX_UINT16.
  induction fuel as [|fuel IH]; intros extra h cMin cEnd v Hf.
  - destruct extra; [reflexivity|]. cbn [Nat.add convert_loop].
    replace ((cMin <? cEnd) && (cMin <=? SAL_MAX_UINT16)) with false; [reflexivity|].
    symmetry. apply andb_false_iff. rewrite Z.ltb_ge, Z.leb_gt. unfold SAL_MAX_UINT16. lia.
  - cbn [Nat.add convert_loop].
    destruct ((cMin <? cEnd) && (cMin <=? SAL_MAX_UINT16)) eqn:E; [|reflexivity].
    apply andb_true_iff in E. rewrite Z.ltb_lt, Z.leb_le in E. unfold SAL_MAX_UINT16 in E.
    destruct (input_loop_advance NINSIZE cMin cEnd []) as (_ & Hadv).
    specialize (Hadv ltac:(discriminate) ltac:(lia)).
    destruct (input_loop NINSIZE cMin cEnd []) as [cMin' inp].
    destruct (rtl_convertTextToUnicode cv h inp) as [out h'].
    apply IH. simpl in Hadv. lia.
Qed.

Lemma decode_stage_best buf nLength nSubTables sel dec :
  decode_stage buf nLength nSubTables = Some (sel, dec) ->
  decode_best buf nLength sel = Some dec.
Proof.
  unfold decode_stage. intros H.
  destruct (select_loop buf nLength (Z.to_nat nSubTables) 4 Selection0) as [s|]; [|discriminate].
  destruct (decode_best buf nLength s) as [d|] eqn:E; [|discriminate].
  inversion H; subst. exact E.
Qed.

Lemma symbol_ranges_increasing : strictly_increasing [0x0020; 0x0100; 0xF020; 0xF100].
Proof.
  intros i H0 H1. change (Z.of_nat (length _)) with 4 in H1.
  assert (i = 0 \/ i = 1 \/ i = 2) as [-> | [-> | ->]] by lia; vm_compute; reflexivity.
Qed.

(** C6 (amended).  The two default maps have a strictly increasing
    boundary sequence of even length.  A map from a successful parse has a
    boundary sequence of even length [2 * N] with [N >= 1]; it is strictly
    increasing for the symbolic fallback and for a parse that went through
    the recoding block; for a format 4 subtable decoded without recoding
    every range has [start_i < end_i], in the order of the segments of the
    table. *)
Theorem boundary_sequence cv :
  (forall b, wf_ranges (default_map b)) /\
  (forall buf nLength nSubTables sel dec r,
     check_header (Some buf) nLength = Some (Some (buf, nSubTables)) ->
     decode_stage buf nLength nSubTables = Some (sel, dec) ->
     ParseCMAP cv (Some buf) nLength = Some (true, r) ->
     let m := ImplFontCharMap_ctor r in
     1 <= mnRangeCount m /\
     Z.of_nat (length (codes m)) = 2 * mnRangeCount m /\
     (nRangeCount dec <= 0 \/ recoded_by cv sel -> strictly_increasing (codes m)) /\
     (0 < nRangeCount dec -> ~ recoded_by cv sel -> nFormat sel = 4 ->
        forall k, 0 <= k < mnRangeCount m -> (codes m).[2 * k] < (codes m).[2 * k + 1])).
Proof.
  split; [exact default_map_wf|].
  intros buf nLength nSubTables sel dec r Hh Hd Hp.
  unfold codes. cbn [ImplFontCharMap_ctor mpRangeCodes mnRangeCount].
  rewrite (ParseCMAP_stages cv _ _ _ _ _ Hh Hd) in Hp.
  assert (F : finish cv sel dec = (true, r)) by congruence. clear Hp.
  pose proof (decode_stage_best _ _ _ _ _ Hd) as Hbest.
  unfold finish in F.
  destruct (nRangeCount dec <=? 0) eqn:E; [apply Z.leb_le in E | apply Z.leb_gt in E].
  { destruct (mbSymbolic sel); [|discriminate F].
    inversion F; subst r; cbn [cr_mpRangeCodes cr_mnRangeCount deref].
    split; [lia|]. split; [reflexivity|].
    split; [intros _; exact symbol_ranges_increasing | intros; lia]. }
  destruct (decode_best_pairs _ _ _ _ Hbest E) as (pairs & Hpairs & Hlen & Hfmt4).
  assert (Direct : forall ids b,
            ~ recoded_by cv sel ->
            let rc := deref (cr_mpRangeCodes
                        (mkCmapResult (codes_new (array_of (pCodePairs dec)))
                           (pStartGlyphs dec) ids (nRangeCount dec) (mbSymbolic sel) b)) in
            1 <= nRangeCount dec /\
            Z.of_nat (length rc) = 2 * nRangeCount dec /\
            (nRangeCount dec <= 0 \/ recoded_by cv sel -> strictly_increasing rc) /\
            (0 < nRangeCount dec -> ~ recoded_by cv sel -> nFormat sel = 4 ->
               forall k, 0 <= k < nRangeCount dec -> rc.[2 * k] < rc.[2 * k + 1])).
  { intros ids b Hnot. cbn [cr_mpRangeCodes deref]. rewrite Hpairs. cbn [array_of].
    split; [lia|]. split; [exact Hlen|]. split.
    - intros [Hle | Hrec]; [lia | contradiction].
    - intros _ _ F4 k Hk. apply (code_pairs_cell _ _ (Hfmt4 F4)); lia. }
  destruct (negb (is_unicode (eRecodeFrom sel))) eqn:Eu.
  - destruct (rtl_createTextToUnicodeConverter cv (eRecodeFrom sel)) as [h|] eqn:Ec.
    + (* recoded *)
      match type of F with context [supported_ranges ?p []] =>
        destruct (supported_ranges_increasing p []) as (Hinc & k & Hk);
          [apply recode_loop_units; split; constructor
          | intros i ? Hi; cbn [length] in Hi; lia
          | exists 0%nat; reflexivity
          | congruence | ];
        set (ranges := supported_ranges p []) in * end.
      assert (Hq : Z.of_nat (length ranges) ÷ 2 = Z.of_nat k).
      { rewrite Hk. rewrite Nat2Z.inj_mul. change (Z.of_nat 2) with 2.
        rewrite Z.mul_comm. apply Z.quot_mul. lia. }
      rewrite Hq in F.
      destruct (Z.of_nat k <=? 0) eqn:Ek; [discriminate F | apply Z.leb_gt in Ek].
      inversion F; subst r; cbn [cr_mpRangeCodes cr_mnRangeCount deref].
      split; [lia|]. split; [lia|]. split; [intros _; exact Hinc|].
      intros _ Hnot. exfalso. apply Hnot. split.
      * destruct (is_unicode (eRecodeFrom sel)); [discriminate | reflexivity].
      * eauto.
    + (* no converter *)
      inversion F; subst r. apply Direct.
      intros (_ & h & Hh'). congruence.
  - inversion F; subst r. apply Direct.
    intros (Hu & _). rewrite Hu in Eu. discriminate.
Qed.

Lemma boundary_sequence_witness :
  wf_ranges (default_map false) /\
  (1 <= mnRangeCount (map_of table_sjis) /\
   Z.of_nat (length (codes (map_of table_sjis))) = 2 * mnRangeCount (map_of table_sjis) /\
   strictly_increasing (codes (map_of table_sjis))) /\
  (forall k, 0 <= k < mnRangeCount (map_of table_unsorted) ->
     (codes (map_of table_unsorted)).[2 * k] < (codes (map_of table_unsorted)).[2 * k + 1]).
Proof.
  destruct (boundary_sequence bytewise) as [A B].
  split; [exact (A false)|]. split.
  - destruct (B table_sjis 44 1
                (mkSelection RTL_TEXTENCODING_SHIFT_JIS 12 4 11 false)
                (mkDecoded 1 (Some [0x41; 0x44]) (Some [0x41]) [0])
                (mkCmapResult (codes_new [0x41; 0x44]) None None 1 false true)
                ltac:(vm_compute; reflexivity) ltac:(vm_compute; reflexivity)
                ltac:(vm_compute; reflexivity)) as (B1 & B2 & B3 & _).
    split; [exact B1|]. split; [exact B2|].
    apply B3. right. split; [reflexivity | exists tt; reflexivity].
  - destruct (B table_unsorted 52 1
                (mkSelection RTL_TEXTENCODING_UNICODE 12 4 28 false)
                (mkDecoded 2 (Some [0x50; 0x51; 0x41; 0x42]) (Some [0x50; 0x41]) [0])
                (mkCmapResult (codes_new [0x50; 0x51; 0x41; 0x42]) (Some [0x50; 0x41])
                   (Some [0]) 2 false false)
                ltac:(vm_compute; reflexivity) ltac:(vm_compute; reflexivity)
                ltac:(vm_compute; reflexivity)) as (_ & _ & _ & B4).
    apply B4; [vm_compute; reflexivity | | reflexivity].
    intros (Hu & _). discriminate.
Defined.

(** C6 as stated fails: [table_unsorted] parses, and the boundary sequence
    of the result is [0x50, 0x51, 0x41, 0x42], where [boundary[1]] is above
    [boundary[2]]: the end of the first range lies above the start of the
    second. *)
Lemma parsed_boundaries_not_increasing :
  ParseCMAP bytewise (Some table_unsorted) 52 =
    Some (true, mkCmapResult (codes_new [0x50; 0x51; 0x41; 0x42]) (Some [0x50; 0x41])
                  (Some [0]) 2 false false) /\
  codes (map_of table_unsorted) = [0x50; 0x51; 0x41; 0x42] /\
  ~ (codes (map_of table_unsorted)).[1] <= (codes (map_of table_unsorted)).[2] /\
  ~ strictly_increasing (codes (map_of table_unsorted)).
Proof.
  split; [vm_compute; reflexivity|]. split; [reflexivity|]. split.
  - vm_compute. intros H. apply H. reflexivity.
  - intros H. specialize (H 1 ltac:(lia) ltac:(vm_compute; reflexivity)).
    vm_compute in H. discriminate.
Qed.

(** ** Truncated and inconsistent tables *)

(** *** Records that are not eligible are skipped *)

Lemma eligible_record_unique buf nLength i v off fmt e v' off' fmt' e' :
  eligible_record buf nLength i v off fmt e ->
  eligible_record buf nLength i v' off' fmt' e' ->
  v = v' /\ off = off' /\ fmt = fmt' /\ e = e'.
Proof.
  intros (pl & en & u & v0 & b & A1 & A2 & A3 & A4 & A5 & A6 & A7 & A8 & A9 & A10)
         (pl' & en' & u' & v0' & b' & B1 & B2 & B3 & B4 & B5 & B6 & B7 & B8 & B9 & B10).
  assert (pl' = pl) by congruence. assert (en' = en) by congruence. subst pl' en'.
  assert (u' = u) by congruence. subst u'.
  assert (v0' = v0 /\ e' = e) as (-> & ->) by (split; congruence).
  assert (off' = off) by congruence. subst off'.
  assert (fmt' = fmt) by congruence. subst fmt'.
  repeat split; congruence.
Qed.

Lemma best_eligible_record_symbolic buf nLength n b st :
  best_eligible_record buf nLength n st ->
  best_eligible_record buf nLength n (set_symbolic b st).
Proof. destruct b; [|exact (fun H => H)]. intros H. exact H. Qed.

Lemma best_eligible_record_skip buf nLength n st :
  0 <= n ->
  best_eligible_record buf nLength n st ->
  (forall v off fmt e, ~ eligible_record buf nLength n v off fmt e) ->
  best_eligible_record buf nLength (n + 1) st.
Proof.
  intros Hn (H1 & H2) Hno. split.
  - intros i v off fmt e Hi Hu.
    destruct (Z.eq_dec i n) as [-> | Hne]; [exfalso; exact (Hno _ _ _ _ Hu)|].
    apply (H1 i v off fmt e); [lia | exact Hu].
  - destruct H2 as [H2 | (i & Hi & Hu & Hf)]; [left; exact H2 | right].
    exists i. split; [lia|]. split; assumption.
Qed.

Lemma best_eligible_record_take buf nLength n st v off fmt e :
  0 <= n ->
  best_eligible_record buf nLength n st ->
  eligible_record buf nLength n v off fmt e ->
  best_eligible_record buf nLength (n + 1) (take_best st v off fmt e).
Proof.
  intros Hn (H1 & H2) Hu. unfold take_best.
  destruct (nBestVal st <? v) eqn:E; [apply Z.ltb_lt in E | apply Z.ltb_ge in E].
  - split; cbn [nBestVal nOffset nFormat eRecodeFrom].
    + intros i v' off' fmt' e' Hi Hu'.
      destruct (Z.eq_dec i n) as [-> | Hne].
      * destruct (eligible_record_unique _ _ _ _ _ _ _ _ _ _ _ Hu Hu') as (-> & _). lia.
      * specialize (H1 i v' off' fmt' e' ltac:(lia) Hu'). lia.
    + right. exists n. split; [lia|]. split; [exact Hu|].
      intros j v' off' fmt' e' Hj Hu'.
      specialize (H1 j v' off' fmt' e' ltac:(lia) Hu'). lia.
  - split.
    + intros i v' off' fmt' e' Hi Hu'.
      destruct (Z.eq_dec i n) as [-> | Hne].
      * destruct (eligible_record_unique _ _ _ _ _ _ _ _ _ _ _ Hu Hu') as (-> & _). lia.
      * apply (H1 i v' off' fmt' e'); [lia | exact Hu'].
    + destruct H2 as [H2 | (i & Hi & Hu' & Hf)]; [left; exact H2 | right].
      exists i. split; [lia|]. split; assumption.
Qed.

Lemma select_step_best buf nLength k st st' :
  0 <= k ->
  best_eligible_record buf nLength k st ->
  select_step buf nLength (4 + 8 * k) st = Some st' ->
  best_eligible_record buf nLength (k + 1) st'.
Proof.
  intros Hk Hb H. unfold select_step in H.
  destruct (GetUShort buf (4 + 8 * k)) as [nPlatform|] eqn:R1; [|discriminate].
  destruct (GetUShort buf (4 + 8 * k + 2)) as [nEncoding|] eqn:R2; [|discriminate].
  destruct (platform_encoding (Z.shiftl nPlatform 8 + nEncoding)) as [[nValue e] bSym] eqn:PE.
  pose proof (best_eligible_record_symbolic buf nLength k bSym st Hb) as Hb'.
  assert (Hinv : forall v off fmt e',
             eligible_record buf nLength k v off fmt e' ->
             0 < nValue /\ e' = e /\
             exists u, GetUInt buf (4 + 8 * k + 4) = Some u /\ off = to_int u /\
                       0 <= off <= nLength - 2 /\
                       GetUShort buf off = Some fmt /\ (fmt = 4 \/ fmt = 12)).
  { intros v off fmt e'
      (pl & en & u & v0 & b & A1 & A2 & A3 & A4 & A5 & A6 & A7 & A8 & A9 & A10).
    assert (pl = nPlatform) by congruence. assert (en = nEncoding) by congruence. subst pl en.
    assert (v0 = nValue /\ e' = e) as (-> & ->) by (split; congruence).
    split; [exact A4|]. split; [reflexivity|]. exists u. auto. }
  destruct (nValue <=? 0) eqn:E0.
  { apply Z.leb_le in E0. inversion H; subst st'.
    apply best_eligible_record_skip; [exact Hk | exact Hb' |].
    intros v off fmt e' Hu. destruct (Hinv _ _ _ _ Hu) as (Hpos & _). lia. }
  apply Z.leb_gt in E0.
  destruct (GetUInt buf (4 + 8 * k + 4)) as [u|] eqn:R3; [|discriminate].
  destruct ((to_int u >? nLength - 2) || (to_int u <? 0)) eqn:E1.
  { inversion H; subst st'.
    apply best_eligible_record_skip; [exact Hk | exact Hb' |].
    intros v off fmt e' Hu. destruct (Hinv _ _ _ _ Hu) as (_ & _ & u' & U1 & U2 & U3 & _).
    assert (u' = u) by congruence. subst u' off.
    apply orb_true_iff in E1. rewrite Z.gtb_ltb, !Z.ltb_lt in E1. lia. }
  apply orb_false_iff in E1. rewrite Z.gtb_ltb, !Z.ltb_ge in E1.
  destruct (GetUShort buf (to_int u)) as [nTmpFormat|] eqn:R4; [|discriminate].
  assert (Huse : nTmpFormat = 4 \/ nTmpFormat = 12 ->
            eligible_record buf nLength k
              (nValue + (if nTmpFormat =? 12 then 3 else 0)) (to_int u) nTmpFormat e).
  { intros Hf. exists nPlatform, nEncoding, u, nValue, bSym.
    repeat (split; [first [assumption | reflexivity | lia]|]). reflexivity. }
  destruct (nTmpFormat =? 12) eqn:E12.
  { apply Z.eqb_eq in E12. inversion H; subst st'.
    apply best_eligible_record_take; [exact Hk | exact Hb' | apply Huse; right; exact E12]. }
  apply Z.eqb_neq in E12.
  destruct (nTmpFormat =? 4) eqn:E4; cbn [negb] in H.
  - apply Z.eqb_eq in E4. inversion H; subst st'.
    replace nValue with (nValue + 0) at 1 by lia.
    apply best_eligible_record_take; [exact Hk | exact Hb' | apply Huse; left; exact E4].
  - apply Z.eqb_neq in E4. inversion H; subst st'.
    apply best_eligible_record_skip; [exact Hk | exact Hb' |].
    intros v off fmt e' Hu. destruct (Hinv _ _ _ _ Hu) as (_ & _ & u' & U1 & U2 & U3 & U4 & U5).
    assert (u' = u) by congruence. subst u' off.
    assert (fmt = nTmpFormat) by congruence. subst fmt. lia.
Qed.

Lemma select_loop_best buf nLength :
  forall n k st st',
    0 <= k ->
    best_eligible_record buf nLength k st ->
    select_loop buf nLength n (4 + 8 * k) st = Some st' ->
    best_eligible_record buf nLength (k + Z.of_nat n) st'.
Proof.
  induction n as [|n IH]; intros k st st' Hk Hb H; cbn [select_loop] in H.
  - inversion H; subst. replace (k + Z.of_nat 0) with k by lia. exact Hb.
  - destruct (select_step buf nLength (4 + 8 * k) st) as [st1|] eqn:E; [|discriminate].
    pose proof (select_step_best _ _ _ _ _ Hk Hb E) as Hb1.
    replace (4 + 8 * k + 8) with (4 + 8 * (k + 1)) in H by lia.
    replace (k + Z.of_nat (S n)) with (k + 1 + Z.of_nat n) by lia.
    apply (IH (k + 1) st1 st'); [lia | exact Hb1 | exact H].
Qed.

Lemma Selection0_best buf nLength : best_eligible_record buf nLength 0 Selection0.
Proof.
  split; [intros i v off fmt e Hi; lia|]. left. repeat split.
Qed.

(** *** The decoding is truncated, and stops at an offending segment *)

Lemma format4_loop_segments buf nLength pLimitBase pBeginBase pDeltaBase pOffsetBase :
  forall n i st st',
    format4_loop buf nLength pLimitBase pBeginBase pDeltaBase pOffsetBase n i st = Some st' ->
    exists more m,
      seg_pCP st' = seg_pCP st ++ more /\
      Z.of_nat (length more) = 2 * m /\ 0 <= m <= Z.of_nat n /\
      (forall k, 0 <= k < m ->
         exists cMin cMax,
           accepted_segment buf nLength pLimitBase pBeginBase pOffsetBase (i + k) cMin cMax /\
           more.[2 * k] = cMin /\ more.[2 * k + 1] = cMax + 1) /\
      (m < Z.of_nat n ->
         offending_segment buf nLength pLimitBase pBeginBase pOffsetBase (i + m)).
Proof.
  induction n as [|n IH]; intros i st st' H; cbn [format4_loop] in H.
  - inversion H; subst. exists [], 0. rewrite app_nil_r. cbn [length].
    repeat split; lia.
  - destruct (GetUShort buf (pBeginBase + 2 * i)) as [cMinChar|] eqn:R1; [|discriminate].
    destruct (GetUShort buf (pLimitBase + 2 * i)) as [cMaxChar|] eqn:R2; [|discriminate].
    destruct (GetSShort buf (pDeltaBase + 2 * i)) as [nGlyphDelta|]; [|discriminate].
    destruct (GetUShort buf (pOffsetBase + 2 * i)) as [nRangeOffset|] eqn:R4; [|discriminate].
    pose proof (GetUShort_bounds _ _ _ R1) as B1. pose proof (GetUShort_bounds _ _ _ R2) as B2.
    assert (Hstop : forall s,
              seg_pCP s = seg_pCP st ->
              (cMaxChar < cMinChar \/ cMaxChar = 0xFFFF \/
               (nRangeOffset <> 0 /\
                nLength < pOffsetBase + 2 * i + nRangeOffset
                          + 2 * (cMaxChar - cMinChar + 1))) ->
              Some s = Some st' ->
              exists more m,
                seg_pCP st' = seg_pCP st ++ more /\
                Z.of_nat (length more) = 2 * m /\ 0 <= m <= Z.of_nat (S n) /\
                (forall k, 0 <= k < m ->
                   exists cMin cMax,
                     accepted_segment buf nLength pLimitBase pBeginBase pOffsetBase
                       (i + k) cMin cMax /\
                     more.[2 * k] = cMin /\ more.[2 * k + 1] = cMax + 1) /\
                (m < Z.of_nat (S n) ->
                   offending_segment buf nLength pLimitBase pBeginBase pOffsetBase (i + m))).
    { intros s Es Hoff E. inversion E; subst s. exists [], 0.
      rewrite app_nil_r. cbn [length].
      split; [exact Es|]. split; [reflexivity|]. split; [lia|]. split; [intros k Hk; lia|].
      intros _. rewrite Z.add_0_r. exists cMinChar, cMaxChar, nRangeOffset. auto. }
    destruct (cMinChar >? cMaxChar) eqn:E1.
    { rewrite Z.gtb_ltb in E1. apply Z.ltb_lt in E1. apply (Hstop st); auto. }
    destruct (cMaxChar =? 0xFFFF) eqn:E2.
    { apply Z.eqb_eq in E2. apply (Hstop st); auto. }
    rewrite Z.gtb_ltb in E1. apply Z.ltb_ge in E1. apply Z.eqb_neq in E2.
    assert (Hend : to_u32 (cMaxChar + 1) = cMaxChar + 1) by (apply to_u32_id; lia).
    assert (Hacc : forall starts ids,
              (nRangeOffset = 0 \/
               pOffsetBase + 2 * i + nRangeOffset + 2 * (cMaxChar - cMinChar + 1)
               <= nLength) ->
              format4_loop buf nLength pLimitBase pBeginBase pDeltaBase pOffsetBase n (i + 1)
                (mkSegState (seg_pCP st ++ [cMinChar; to_u32 (cMaxChar + 1)]) starts ids)
              = Some st' ->
              exists more m,
                seg_pCP st' = seg_pCP st ++ more /\
                Z.of_nat (length more) = 2 * m /\ 0 <= m <= Z.of_nat (S n) /\
                (forall k, 0 <= k < m ->
                   exists cMin cMax,
                     accepted_segment buf nLength pLimitBase pBeginBase pOffsetBase
                       (i + k) cMin cMax /\
                     more.[2 * k] = cMin /\ more.[2 * k + 1] = cMax + 1) /\
                (m < Z.of_nat (S n) ->
                   offending_segment buf nLength pLimitBase pBeginBase pOffsetBase (i + m))).
    { intros starts ids Hfits E.
      destruct (IH _ _ _ E) as (more & m & F1 & F2 & F3 & F4 & F5).
      cbn [seg_pCP] in F1.
      exists ([cMinChar; to_u32 (cMaxChar + 1)] ++ more), (m + 1).
      rewrite F1, <- app_assoc. rewrite length_app. cbn [length].
      split; [reflexivity|]. split; [lia|]. split; [lia|]. split.
      - intros k Hk. destruct (Z.eq_dec k 0) as [-> | Hne].
        + exists cMinChar, cMaxChar. rewrite Z.add_0_r.
          split; [|split; [reflexivity | exact Hend] ].
          split; [exact R1|]. split; [exact R2|]. split; [exact E1|]. split; [exact E2|].
          exists nRangeOffset. split; [exact R4 | exact Hfits].
        + destruct (F4 (k - 1) ltac:(lia)) as (cMin & cMax & G1 & G2 & G3).
          exists cMin, cMax.
          replace (i + 1 + (k - 1)) with (i + k) in G1 by lia.
          rewrite !cell_app_r by (cbn [length]; lia). cbn [length].
          replace (2 * k - Z.of_nat 2) with (2 * (k - 1)) by lia.
          replace (2 * k + 1 - Z.of_nat 2) with (2 * (k - 1) + 1) by lia.
          auto.
      - intros Hlt. replace (i + (m + 1)) with (i + 1 + m) by lia. apply F5. lia. }
    cbv zeta in H. cbn [seg_pCP seg_pStartGlyphs seg_aGlyphIdArray] in H.
    destruct (nRangeOffset =? 0) eqn:E3.
    { apply Z.eqb_eq in E3. apply (Hacc _ _ (or_introl E3) H). }
    apply Z.eqb_neq in E3.
    set (pGlyphIdPtr := pOffsetBase + 2 * i + nRangeOffset) in *.
    set (nRemainingSize := if nLength >=? pGlyphIdPtr then nLength - pGlyphIdPtr else 0) in *.
    assert (Hrem : 0 <= nRemainingSize /\
                   (nLength < pGlyphIdPtr -> nRemainingSize = 0) /\
                   (pGlyphIdPtr <= nLength -> nRemainingSize = nLength - pGlyphIdPtr)).
    { unfold nRemainingSize. destruct (nLength >=? pGlyphIdPtr) eqn:E;
        [apply Z.geb_le in E | rewrite Z.geb_leb in E; apply Z.leb_gt in E]; lia. }
    pose proof (quot2_bounds nRemainingSize ltac:(lia)) as Q.
    destruct (nRemainingSize ÷ 2 =? 0) eqn:E4.
    { apply Z.eqb_eq in E4.
      match type of H with Some ?s = _ => apply (Hstop s) end;
        [reflexivity | | exact H].
      right. right. split; [exact E3|]. lia. }
    apply Z.eqb_neq in E4.
    destruct (cMaxChar >? cMinChar + nRemainingSize ÷ 2 - 1) eqn:E5.
    { rewrite Z.gtb_ltb in E5. apply Z.ltb_lt in E5.
      match type of H with Some ?s = _ => apply (Hstop s) end;
        [reflexivity | | exact H].
      right. right. split; [exact E3|]. lia. }
    rewrite Z.gtb_ltb in E5. apply Z.ltb_ge in E5.
    match type of H with context [glyph_id_loop ?a ?b ?c ?d ?e] =>
      destruct (glyph_id_loop a b c d e) as [ids|]; [|discriminate] end.
    refine (Hacc _ ids _ H).
    right. unfold pGlyphIdPtr in *. lia.
Qed.

Lemma format12_loop_groups buf :
  forall n pGroup pCP starts r,
    format12_loop buf n pGroup pCP starts = Some r ->
    exists mp ms,
      fst r = pCP ++ mp /\ snd r = starts ++ ms /\
      Z.of_nat (length mp) = 2 * Z.of_nat (length ms) /\
      Z.of_nat (length ms) <= Z.of_nat n /\
      (forall k, 0 <= k < Z.of_nat (length ms) ->
         exists s e g,
           GetUInt buf (pGroup + 12 * k) = Some s /\
           GetUInt buf (pGroup + 12 * k + 4) = Some e /\
           GetUInt buf (pGroup + 12 * k + 8) = Some g /\
           s <= e /\
           mp.[2 * k] = s /\ mp.[2 * k + 1] = to_u32 (e + 1) /\ ms.[k] = to_int g) /\
      (Z.of_nat (length ms) < Z.of_nat n ->
         exists s e,
           GetUInt buf (pGroup + 12 * Z.of_nat (length ms)) = Some s /\
           GetUInt buf (pGroup + 12 * Z.of_nat (length ms) + 4) = Some e /\
           e < s).
Proof.
  induction n as [|n IH]; intros pGroup pCP starts r H; cbn [format12_loop] in H.
  - inversion H; subst. exists [], []. cbn [fst snd length]. rewrite !app_nil_r.
    repeat split; try lia.
  - destruct (GetUInt buf (pGroup + 0)) as [s|] eqn:R1; [|discriminate].
    destruct (GetUInt buf (pGroup + 4)) as [e|] eqn:R2; [|discriminate].
    destruct (GetUInt buf (pGroup + 8)) as [g|] eqn:R3; [|discriminate].
    cbv zeta in H.
    destruct (s >? e) eqn:E.
    + inversion H; subst. exists [], []. cbn [fst snd length]. rewrite !app_nil_r.
      repeat split; try lia. intros _. exists s, e.
      replace (pGroup + 12 * Z.of_nat 0) with (pGroup + 0) by lia.
      rewrite Z.add_0_r in *. rewrite Z.gtb_ltb in E. apply Z.ltb_lt in E. auto.
    + rewrite Z.gtb_ltb in E. apply Z.ltb_ge in E.
      destruct (IH _ _ _ _ H) as (mp & ms & F1 & F2 & F3 & F4 & F5 & F6).
      exists ([s; to_u32 (e + 1)] ++ mp), ([to_int g] ++ ms).
      rewrite F1, F2, <- !app_assoc. rewrite !length_app. cbn [length].
      split; [reflexivity|]. split; [reflexivity|]. split; [lia|]. split; [lia|]. split.
      * intros k Hk. destruct (Z.eq_dec k 0) as [-> | Hne].
        -- exists s, e, g. replace (pGroup + 12 * 0) with (pGroup + 0) by lia.
           rewrite (Z.add_0_r pGroup) in *. repeat split; auto.
        -- destruct (F5 (k - 1) ltac:(lia)) as (s' & e' & g' & G1 & G2 & G3 & G4 & G5 & G6 & G7).
           exists s', e', g'.
           replace (pGroup + 12 + 12 * (k - 1)) with (pGroup + 12 * k) in * by lia.
           rewrite !cell_app_r by (cbn [length]; lia). cbn [length].
           replace (2 * k - Z.of_nat 2) with (2 * (k - 1)) by lia.
           replace (2 * k + 1 - Z.of_nat 2) with (2 * (k - 1) + 1) by lia.
           replace (k - Z.of_nat 1) with (k - 1) by lia.
           repeat split; auto.
      * intros Hlt. destruct (F6 ltac:(lia)) as (s' & e' & G1 & G2 & G3).
        exists s', e'.
        replace (pGroup + 12 * Z.of_nat (1 + length ms))
          with (pGroup + 12 + 12 * Z.of_nat (length ms)) by lia.
        auto.
Qed.

Lemma quot12_spec a : 0 <= a -> 12 * (a ÷ 12) <= a < 12 * (a ÷ 12) + 12.
Proof.
  intros H. rewrite Z.quot_div_nonneg by lia.
  pose proof (Z.div_mod a 12 ltac:(lia)). pose proof (Z.mod_pos_bound a 12 ltac:(lia)). lia.
Qed.

Lemma format4_count_min nLength nOffset nSegCountX2 :
  offsets_fit_int nLength ->
  0 <= nOffset -> 0 <= nSegCountX2 < 65536 -> nOffset + 16 < nLength ->
  format4_count nLength nOffset nSegCountX2 =
    Z.min (Z.max 0 (nSegCountX2 ÷ 2 - 1))
      (Z.max 0 ((nLength - (nOffset + 14 + nSegCountX2 + 2 + nSegCountX2 + nSegCountX2)) ÷ 2)).
Proof.
  intros Hfit Ho Hx Hlt. unfold offsets_fit_int, INT_MAX in Hfit. unfold format4_count.
  cbv zeta.
  rewrite to_int_sub_to_int.
  rewrite (to_int_id (nLength - (nOffset + 14 + nSegCountX2 + 2 + nSegCountX2 + nSegCountX2)))
    by lia.
  set (R := nLength - (nOffset + 14 + nSegCountX2 + 2 + nSegCountX2 + nSegCountX2)).
  pose proof (quot2_bounds nSegCountX2 ltac:(lia)) as Qx.
  assert (HR : (R < 0 -> R ÷ 2 <= 0) /\ (0 <= R -> 0 <= R ÷ 2)).
  { split; intros HR.
    - pose proof (Z.quot_opp_l R 2 ltac:(lia)).
      pose proof (quot2_bounds (- R) ltac:(lia)). lia.
    - pose proof (quot2_bounds R HR). lia. }
  destruct (nSegCountX2 ÷ 2 - 1 <? 0) eqn:E0;
    [apply Z.ltb_lt in E0 | apply Z.ltb_ge in E0];
    match goal with |- context [?a >? ?b] => destruct (a >? b) eqn:E1 end;
    rewrite Z.gtb_ltb in E1;
    [apply Z.ltb_lt in E1 | apply Z.ltb_ge in E1 | apply Z.ltb_lt in E1 | apply Z.ltb_ge in E1];
    lia.
Qed.

Lemma decode_format4_truncated buf nLength nOffset dec :
  offsets_fit_int nLength ->
  0 <= nOffset -> nOffset + 16 < nLength ->
  decode_format4 buf nLength nOffset = Some dec ->
  truncated_format4 buf nLength nOffset dec.
Proof.
  intros Hfit Ho Hlt H. unfold decode_format4 in H.
  destruct (GetUShort buf (nOffset + 6)) as [x2|] eqn:R; [|discriminate].
  pose proof (GetUShort_bounds _ _ _ R) as Bx.
  cbv zeta in H.
  match type of H with context [format4_loop ?a ?b ?c ?d ?e ?f ?g ?h ?i] =>
    destruct (format4_loop a b c d e f g h i) as [st|] eqn:L; [|discriminate] end.
  destruct (format4_loop_segments _ _ _ _ _ _ _ _ _ _ L) as (more & m & F1 & F2 & F3 & F4 & F5).
  cbn [seg_pCP app] in F1.
  inversion H; subst dec. exists x2, (seg_pCP st).
  cbn [pCodePairs nRangeCount]. split; [exact R|]. split; [reflexivity|]. cbv zeta.
  assert (Hq : Z.of_nat (length (seg_pCP st)) ÷ 2 = m).
  { rewrite F1, F2, Z.mul_comm. apply Z.quot_mul. lia. }
  rewrite Hq.
  rewrite (format4_count_min nLength nOffset x2 Hfit Ho Bx Hlt) in F3, F5.
  replace (nOffset + 14 + x2 + 2 + x2 + x2) with (nOffset + 14 + x2 + 2 + x2 + x2) in * by lia.
  set (nUsed := Z.min (Z.max 0 (x2 ÷ 2 - 1))
                  (Z.max 0 ((nLength - (nOffset + 14 + x2 + 2 + x2 + x2)) ÷ 2))) in *.
  assert (Hu : 0 <= nUsed) by (unfold nUsed; lia).
  rewrite Z2Nat.id in F3, F5 by lia.
  split; [lia|]. split; [rewrite F1; exact F2|]. split.
  - intros k Hk. destruct (F4 k Hk) as (cMin & cMax & G1 & G2 & G3).
    exists cMin, cMax. rewrite F1. rewrite Z.add_0_l in G1. auto.
  - intros Hm. specialize (F5 Hm). rewrite Z.add_0_l in F5. exact F5.
Qed.

Lemma format12_count_min nLength nOffset nGroups :
  offsets_fit_int nLength ->
  0 <= nOffset -> nOffset + 16 < nLength ->
  format12_count nLength nOffset nGroups =
    Z.min (Z.max 0 (to_int nGroups)) (Z.max 0 ((nLength - (nOffset + 16)) ÷ 12)).
Proof.
  intros Hfit Ho Hlt. unfold offsets_fit_int, INT_MAX in Hfit. unfold format12_count.
  cbv zeta.
  rewrite (to_int_id (nOffset + 16)) by lia.
  rewrite (to_int_id (nLength - (nOffset + 16))) by lia.
  pose proof (quot12_spec (nLength - (nOffset + 16)) ltac:(lia)).
  destruct (to_int nGroups <? 0) eqn:E0;
    [apply Z.ltb_lt in E0 | apply Z.ltb_ge in E0];
    match goal with |- context [?a >? ?b] => destruct (a >? b) eqn:E1 end;
    rewrite Z.gtb_ltb in E1;
    [apply Z.ltb_lt in E1 | apply Z.ltb_ge in E1 | apply Z.ltb_lt in E1 | apply Z.ltb_ge in E1];
    lia.
Qed.

Lemma decode_format12_truncated buf nLength nOffset dec :
  offsets_fit_int nLength ->
  0 <= nOffset -> nOffset + 16 < nLength ->
  decode_format12 buf nLength nOffset = Some dec ->
  truncated_format12 buf nLength nOffset dec.
Proof.
  intros Hfit Ho Hlt H. unfold decode_format12 in H.
  destruct (GetUInt buf (nOffset + 12)) as [g|] eqn:R; [|discriminate].
  cbv zeta in H.
  match type of H with context [format12_loop ?a ?b ?c ?d ?e] =>
    destruct (format12_loop a b c d e) as [r|] eqn:L; [|discriminate] end.
  destruct (format12_loop_groups _ _ _ _ _ _ L) as (mp & ms & F1 & F2 & F3 & F4 & F5 & F6).
  cbn [app] in F1, F2. inversion H; subst dec. exists g, (fst r).
  cbn [pCodePairs nRangeCount]. split; [exact R|]. split; [reflexivity|]. cbv zeta.
  assert (Hq : Z.of_nat (length (fst r)) ÷ 2 = Z.of_nat (length ms)).
  { rewrite F1, F3, Z.mul_comm. apply Z.quot_mul. lia. }
  rewrite Hq.
  unfold offsets_fit_int, INT_MAX in Hfit.
  rewrite (to_int_id (nOffset + 16)) in F5, F6 by lia.
  rewrite (format12_count_min nLength nOffset g Hfit Ho Hlt) in F4, F6.
  set (nUsed := Z.min (Z.max 0 (to_int g)) (Z.max 0 ((nLength - (nOffset + 16)) ÷ 12))) in *.
  assert (Hu : 0 <= nUsed) by (unfold nUsed; lia).
  rewrite Z2Nat.id in F4, F6 by lia.
  split; [lia|]. split; [rewrite F1; lia|]. split.
  - intros k Hk. destruct (F5 k Hk) as (s & e & u & G1 & G2 & G3 & G4 & G5 & G6 & G7).
    exists s, e. rewrite F1. auto.
  - intros Hm. destruct (F6 Hm) as (s & e & G1 & G2 & G3). exists s, e. auto.
Qed.

Lemma decode_best_truncated buf nLength sel dec :
  offsets_fit_int nLength ->
  selection_in_bounds nLength sel ->
  (nFormat sel = -1 \/ nFormat sel = 4 \/ nFormat sel = 12) ->
  decode_best buf nLength sel = Some dec ->
  (nFormat sel = 4 /\ nOffset sel + 16 < nLength ->
     truncated_format4 buf nLength (nOffset sel) dec) /\
  (nFormat sel = 12 /\ nOffset sel + 16 < nLength ->
     truncated_format12 buf nLength (nOffset sel) dec) /\
  (nFormat sel = -1 \/ nLength <= nOffset sel + 16 -> dec = mkDecoded 0 None None [0]).
Proof.
  intros Hfit Hsel Hf H. unfold selection_in_bounds in Hsel.
  pose proof Hfit as Hfit'. unfold offsets_fit_int, INT_MAX in Hfit'.
  unfold decode_best in H. rewrite (to_int_id (nOffset sel + 16)) in H by lia.
  destruct (nOffset sel + 16 <? nLength) eqn:E;
    [apply Z.ltb_lt in E | apply Z.ltb_ge in E].
  - rewrite !andb_true_r in H.
    destruct (nFormat sel =? 4) eqn:E4; [apply Z.eqb_eq in E4 | apply Z.eqb_neq in E4].
    + split; [intros _; apply decode_format4_truncated; [exact Hfit | lia | exact E | exact H]|].
      split; [intros (C & _); lia | intros [C | C]; lia].
    + destruct (nFormat sel =? 12) eqn:E12; [apply Z.eqb_eq in E12 | apply Z.eqb_neq in E12].
      * split; [intros (C & _); lia|].
        split; [intros _; apply decode_format12_truncated; [exact Hfit | lia | exact E | exact H]|].
        intros [C | C]; lia.
      * split; [intros (C & _); lia|]. split; [intros (C & _); lia|].
        intros _. congruence.
  - rewrite !andb_false_r in H.
    split; [intros (_ & C); lia|]. split; [intros (_ & C); lia|].
    intros _. congruence.
Qed.

(** *** The parse on a buffer of [nLength] bytes *)

(** X22.  On a buffer of [nLength] bytes, with [nLength] small enough for
    the [int] arithmetic on offsets, [ParseCMAP] returns after reads inside
    of the buffer only.  When the header passes, the result is [finish] of
    a selection [sel] and a decoding [dec] such that: a subtable record
    that is not eligible (no value, an offset outside of the buffer, a
    format other than 4 and 12) is skipped and the search goes on, [sel]
    being the first eligible record of the best value; the count the
    selected subtable is decoded with is the declared count, clamped
    downward to what the buffer holds; the decoding stops at the first
    offending segment or group and keeps the ranges decoded before, with
    which the parse of a Unicode subtable succeeds.  When the selected
    subtable leaves no more than 16 bytes behind its offset nothing is
    decoded, and when no range is decoded the parse returns false unless
    the symbolic flag is set. *)
Theorem ParseCMAP_skips_and_truncates cv buf nLength :
  Z.of_nat (length buf) = nLength ->
  offsets_fit_int nLength ->
  (exists res, ParseCMAP cv (Some buf) nLength = Some res) /\
  (forall nSubTables,
     check_header (Some buf) nLength = Some (Some (buf, nSubTables)) ->
     exists sel dec,
       ParseCMAP cv (Some buf) nLength = Some (finish cv sel dec) /\
       best_eligible_record buf nLength nSubTables sel /\
       (nFormat sel = 4 /\ nOffset sel + 16 < nLength ->
          truncated_format4 buf nLength (nOffset sel) dec) /\
       (nFormat sel = 12 /\ nOffset sel + 16 < nLength ->
          truncated_format12 buf nLength (nOffset sel) dec) /\
       (nFormat sel = -1 \/ nLength <= nOffset sel + 16 ->
          dec = mkDecoded 0 None None [0]) /\
       (nRangeCount dec <= 0 -> mbSymbolic sel = false ->
          ParseCMAP cv (Some buf) nLength = Some (false, rResult0)) /\
       (0 < nRangeCount dec -> is_unicode (eRecodeFrom sel) = true ->
          exists r,
            ParseCMAP cv (Some buf) nLength = Some (true, r) /\
            cr_mpRangeCodes r = codes_new (array_of (pCodePairs dec)) /\
            cr_mnRangeCount r = nRangeCount dec)).
Proof.
  intros Hlen Hfit.
  split; [exact (ParseCMAP_returns buf nLength Hlen Hfit cv)|].
  intros nSub Hh.
  destruct (check_header_passed _ _ _ _ Hh) as (_ & H24 & _ & _ & Hn).
  assert (Hd8 : 8 * ((nLength - 24) / 8) <= nLength - 24).
  { pose proof (Z.div_mod (nLength - 24) 8 ltac:(lia)).
    pose proof (Z.mod_pos_bound (nLength - 24) 8 ltac:(lia)). lia. }
  destruct (select_loop_in_bounds buf nLength Hlen (Z.to_nat nSub) 4 Selection0)
    as (sel & Hs & Hsel); [lia | lia | unfold selection_in_bounds; simpl; lia |].
  destruct (decode_best_in_bounds buf nLength Hlen Hfit sel Hsel) as (dec & Hd).
  exists sel, dec.
  assert (Hst : decode_stage buf nLength nSub = Some (sel, dec)).
  { unfold decode_stage. rewrite Hs, Hd. reflexivity. }
  pose proof (ParseCMAP_stages cv _ _ _ _ _ Hh Hst) as Hp.
  assert (Hbest : best_eligible_record buf nLength nSub sel).
  { pose proof (select_loop_best buf nLength (Z.to_nat nSub) 0 Selection0 sel
                  ltac:(lia) (Selection0_best buf nLength)) as B.
    change (4 + 8 * 0) with 4 in B. specialize (B Hs).
    rewrite Z2Nat.id in B by lia. exact B. }
  assert (Hf : nFormat sel = -1 \/ nFormat sel = 4 \/ nFormat sel = 12).
  { destruct Hbest as (_ & [(_ & F & _) | (i & _ & Hu & _)]); [left; exact F|].
    destruct Hu as (pl & en & u & v0 & b & _ & _ & _ & _ & _ & _ & _ & _ & A9 & _).
    right. exact A9. }
  destruct (decode_best_truncated buf nLength sel dec Hfit Hsel Hf Hd) as (T4 & T12 & T0).
  split; [exact Hp|]. split; [exact Hbest|]. split; [exact T4|]. split; [exact T12|].
  split; [exact T0|]. split.
  - intros Hle Hsym. rewrite Hp. unfold finish.
    replace (nRangeCount dec <=? 0) with true by (symmetry; apply Z.leb_le; lia).
    rewrite Hsym. reflexivity.
  - intros Hpos Hu. rewrite Hp. unfold finish.
    replace (nRangeCount dec <=? 0) with false by (symmetry; apply Z.leb_gt; lia).
    cbv zeta. rewrite Hu. cbn [negb]. eexists. split; [reflexivity|].
    split; reflexivity.
Qed.

Lemma ParseCMAP_skips_and_truncates_witness :
  (exists res, ParseCMAP bytewise (Some table_skipped_best) 54 = Some res) /\
  (exists sel dec,
     ParseCMAP bytewise (Some table_skipped_best) 54 = Some (finish bytewise sel dec) /\
     best_eligible_record table_skipped_best 54 2 sel /\
     (nFormat sel = 4 /\ nOffset sel + 16 < 54 ->
        truncated_format4 table_skipped_best 54 (nOffset sel) dec) /\
     (nFormat sel = 12 /\ nOffset sel + 16 < 54 ->
        truncated_format12 table_skipped_best 54 (nOffset sel) dec) /\
     (nFormat sel = -1 \/ 54 <= nOffset sel + 16 ->
        dec = mkDecoded 0 None None [0]) /\
     (nRangeCount dec <= 0 -> mbSymbolic sel = false ->
        ParseCMAP bytewise (Some table_skipped_best) 54 = Some (false, rResult0)) /\
     (0 < nRangeCount dec -> is_unicode (eRecodeFrom sel) = true ->
        exists r,
          ParseCMAP bytewise (Some table_skipped_best) 54 = Some (true, r) /\
          cr_mpRangeCodes r = codes_new (array_of (pCodePairs dec)) /\
          cr_mnRangeCount r = nRangeCount dec)).
Proof.
  destruct (ParseCMAP_skips_and_truncates bytewise table_skipped_best 54 eq_refl
              ltac:(vm_compute; discriminate)) as (A & B).
  split; [exact A|].
  apply (B 2). vm_compute. reflexivity.
Defined.

(** *** Beyond the bound on the buffer length *)

Lemma byte_at_app_l l r off :
  0 <= off < Z.of_nat (length l) -> byte_at (l ++ r) off = byte_at l off.
Proof.
  intros H. unfold byte_at. destruct (off <? 0); [reflexivity|].
  rewrite nth_error_app1 by lia. reflexivity.
Qed.

Lemma byte_at_app_r l r off :
  Z.of_nat (length l) <= off -> byte_at (l ++ r) off = byte_at r (off - Z.of_nat (length l)).
Proof.
  intros H. unfold byte_at.
  replace (off <? 0) with false by (symmetry; apply Z.ltb_ge; lia).
  replace (off - Z.of_nat (length l) <? 0) with false by (symmetry; apply Z.ltb_ge; lia).
  rewrite nth_error_app2 by lia. f_equal. f_equal. lia.
Qed.

Lemma byte_at_outside l off : Z.of_nat (length l) <= off -> byte_at l off = None.
Proof.
  intros H. unfold byte_at.
  replace (off <? 0) with false by (symmetry; apply Z.ltb_ge; lia).
  replace (nth_error l (Z.to_nat off)) with (@None byte); [reflexivity|].
  symmetry. apply nth_error_None. lia.
Qed.

Lemma table_padded_length n : Z.of_nat (length (table_padded n)) = Z.of_nat n + 14.
Proof.
  unfold table_padded. rewrite !length_app, repeat_length.
  change (length (bytes_of [0;0; 0;1;  0;3; 0;1; 0x7F;0xFF;0xFF;0xFD])) with 12%nat.
  change (length (bytes_of [0;4])) with 2%nat. lia.
Qed.

Lemma table_padded_head n off :
  0 <= off < 12 ->
  byte_at (table_padded n) off
  = byte_at (bytes_of [0;0; 0;1;  0;3; 0;1; 0x7F;0xFF;0xFF;0xFD]) off.
Proof.
  intros H. unfold table_padded. apply byte_at_app_l.
  change (length (bytes_of [0;0; 0;1;  0;3; 0;1; 0x7F;0xFF;0xFF;0xFD])) with 12%nat. lia.
Qed.

Lemma table_padded_tail n off :
  Z.of_nat n + 12 <= off ->
  byte_at (table_padded n) off = byte_at (bytes_of [0;4]) (off - (Z.of_nat n + 12)).
Proof.
  intros H. unfold table_padded. rewrite byte_at_app_r.
  - rewrite byte_at_app_r.
    + f_equal. rewrite repeat_length.
      change (length (bytes_of [0;0; 0;1;  0;3; 0;1; 0x7F;0xFF;0xFF;0xFD])) with 12%nat. lia.
    + rewrite repeat_length.
      change (length (bytes_of [0;0; 0;1;  0;3; 0;1; 0x7F;0xFF;0xFF;0xFD])) with 12%nat. lia.
  - change (length (bytes_of [0;0; 0;1;  0;3; 0;1; 0x7F;0xFF;0xFF;0xFD])) with 12%nat. lia.
Qed.

Lemma table_padded_reads n :
  GetUShort (table_padded n) 0 = Some 0 /\
  GetUShort (table_padded n) 2 = Some 1 /\
  GetUShort (table_padded n) 4 = Some 3 /\
  GetUShort (table_padded n) (4 + 2) = Some 1 /\
  GetUInt (table_padded n) (4 + 4) = Some 0x7FFFFFFD /\
  GetUShort (table_padded n) (Z.of_nat n + 12) = Some 4 /\
  GetUShort (table_padded n) (Z.of_nat n + 12 + 6) = None.
Proof.
  unfold GetUShort, GetUInt.
  repeat (rewrite table_padded_head by lia).
  split; [reflexivity|]. split; [reflexivity|]. split; [reflexivity|].
  split; [reflexivity|]. split; [reflexivity|].
  split.
  - rewrite !table_padded_tail by lia.
    replace (Z.of_nat n + 12 - (Z.of_nat n + 12)) with 0 by lia.
    replace (Z.of_nat n + 12 + 1 - (Z.of_nat n + 12)) with 1 by lia.
    reflexivity.
  - rewrite (byte_at_outside (table_padded n) (Z.of_nat n + 12 + 6))
      by (rewrite table_padded_length; lia).
    reflexivity.
Qed.

Lemma ParseCMAP_padded cv n :
  Z.of_nat n + 14 = INT_MAX ->
  Z.of_nat (length (table_padded n)) = INT_MAX /\
  ParseCMAP cv (Some (table_padded n)) INT_MAX = None.
Proof.
  intros Hn. split; [rewrite table_padded_length; exact Hn|].
  destruct (table_padded_reads n) as (R0 & R2 & R4 & R6 & R8 & Rf & Rx).
  change INT_MAX with 2147483647 in *.
  assert (Ho : Z.of_nat n + 12 = 2147483645) by lia.
  rewrite Ho in Rf, Rx.
  unfold ParseCMAP, check_header.
  change (2147483647 <? 24) with false. cbv iota.
  rewrite R0. cbv beta iota. change (negb (0 =? 0)) with false. cbv iota.
  rewrite R2. cbv beta iota.
  change ((1 <=? 0) || (1 >? (2147483647 - 24) ÷ 8)) with false. cbv iota beta.
  unfold decode_stage. change (Z.to_nat 1) with 1%nat. cbn [select_loop].
  unfold select_step. rewrite R4, R6. cbv beta iota.
  change (platform_encoding (Z.shiftl 3 8 + 1)) with (28, RTL_TEXTENCODING_UNICODE, false).
  cbv beta iota zeta. change (28 <=? 0) with false. cbv iota.
  rewrite R8. cbv beta iota zeta.
  change (to_int 2147483645) with 2147483645.
  change ((2147483645 >? 2147483647 - 2) || (2147483645 <? 0)) with false. cbv iota.
  rewrite Rf. cbv beta iota.
  change (4 =? 12) with false. change (negb (4 =? 4)) with false. cbv iota.
  unfold set_symbolic, take_best. cbn [nBestVal Selection0 mbSymbolic].
  change (0 <? 28) with true. cbv iota beta.
  unfold decode_best. cbn [nFormat nOffset].
  change ((4 =? 4) && (to_int (2147483645 + 16) <? 2147483647)) with true. cbv iota.
  unfold decode_format4. change (2147483645 + 6) with 2147483651.
  change (2147483645 + 6) with 2147483651 in Rx. rewrite Rx. reflexivity.
Qed.

(** C8 (the code fails the claim).  The claim: every buffer read of the
    parse stays inside of the buffer.  [table_padded 2147483633] is a
    buffer of [INT_MAX] bytes whose one record has the offset [nLength - 2],
    which the search accepts, with the format 4 in the last two bytes.
    [nOffset + 16] then wraps around as an [int], the test
    [nOffset + 16 < nLength] passes, and the segment count is read at
    [nLength + 4]: the parse reads outside of the buffer. *)
Lemma ParseCMAP_reads_outside_at_INT_MAX :
  Z.of_nat (length (table_padded (Z.to_nat 2147483633))) = INT_MAX /\
  ParseCMAP bytewise (Some (table_padded (Z.to_nat 2147483633))) INT_MAX = None.
Proof.
  apply ParseCMAP_padded.
  rewrite Z2Nat.id; [reflexivity | intros H; discriminate H].
Qed.

(** * Further properties of the queries *)

(** ** GetNextChar and GetPrevChar *)

Lemma codes_le m i j :
  wf_ranges m -> 0 <= i -> i <= j -> j < 2 * mnRangeCount m ->
  (codes m).[i] <= (codes m).[j].
Proof.
  intros (HN & Hlen & Hs) Hi Hij Hj.
  destruct (Z.eq_dec i j) as [->|Hne]; [lia|].
  pose proof (strictly_increasing_lt _ Hs i j) as Hlt. rewrite Hlen in Hlt. lia.
Qed.

Lemma codes_lt m i j :
  wf_ranges m -> 0 <= i -> i < j -> j < 2 * mnRangeCount m ->
  (codes m).[i] < (codes m).[j].
Proof.
  intros (HN & Hlen & Hs) Hi Hij Hj.
  pose proof (strictly_increasing_lt _ Hs i j) as Hlt. rewrite Hlen in Hlt. lia.
Qed.

Lemma gap_not_covered m x k :
  wf_ranges m -> 0 <= k < mnRangeCount m ->
  (codes m).[2 * k + 1] <= x ->
  (k = mnRangeCount m - 1 \/ x < (codes m).[2 * k + 2]) ->
  ~ covered m x.
Proof.
  intros W Hk Hx Hnext (j & Hj & Hin).
  destruct (Z_le_gt_dec j k) as [Hle | Hgt].
  - pose proof (codes_le m (2 * j + 1) (2 * k + 1) W ltac:(lia) ltac:(lia) ltac:(lia)). lia.
  - destruct Hnext as [-> | Hnext]; [lia|].
    pose proof (codes_le m (2 * k + 2) (2 * j) W ltac:(lia) ltac:(lia) ltac:(lia)). lia.
Qed.

Lemma below_first_not_covered m x :
  wf_ranges m -> x < (codes m).[0] -> ~ covered m x.
Proof.
  intros W Hx (j & Hj & Hin).
  pose proof (codes_le m 0 (2 * j) W ltac:(lia) ltac:(lia) ltac:(lia)). lia.
Qed.

Lemma first_last_chars m :
  wf_ranges m -> codes_fit_int m ->
  GetFirstChar m = (codes m).[0] /\
  GetLastChar m = (codes m).[2 * mnRangeCount m - 1] - 1 /\
  GetFirstChar m <= GetLastChar m /\
  covered m (GetFirstChar m) /\ covered m (GetLastChar m).
Proof.
  intros W (F0 & F1). pose proof W as (HN & Hlen & Hs).
  pose proof (codes_lt m 0 1 W ltac:(lia) ltac:(lia) ltac:(lia)) as H01.
  pose proof (codes_le m 1 (2 * mnRangeCount m - 1) W ltac:(lia) ltac:(lia) ltac:(lia)) as H1l.
  pose proof (codes_lt m (2 * mnRangeCount m - 2) (2 * mnRangeCount m - 1) W
                ltac:(lia) ltac:(lia) ltac:(lia)) as Hll.
  pose proof (codes_le m 0 (2 * mnRangeCount m - 2) W ltac:(lia) ltac:(lia) ltac:(lia)) as H0l.
  unfold GetFirstChar, GetLastChar. rewrite to_u32_id by lia.
  split; [reflexivity|]. split; [reflexivity|]. split; [lia|]. split.
  - exists 0. split; [lia|]. simpl. lia.
  - exists (mnRangeCount m - 1). split; [lia|].
    replace (2 * (mnRangeCount m - 1)) with (2 * mnRangeCount m - 2) by lia.
    replace (2 * mnRangeCount m - 2 + 1) with (2 * mnRangeCount m - 1) by lia. lia.
Qed.

Lemma GetNextChar_inside m c :
  wf_ranges m -> codes_fit_int m ->
  GetFirstChar m <= c < GetLastChar m ->
  c < GetNextChar m c <= GetLastChar m /\
  covered m (GetNextChar m c) /\
  forall x, c < x < GetNextChar m c -> ~ covered m x.
Proof.
  intros W F H. destruct (first_last_chars m W F) as (Ef & El & Hfl & Cf & Cl).
  pose proof F as (F0 & F1). pose proof W as (HN & Hlen & Hs).
  unfold GetNextChar.
  replace (c <? GetFirstChar m) with false by (symmetry; apply Z.ltb_ge; lia).
  replace (c >=? GetLastChar m) with false
    by (symmetry; rewrite Z.geb_leb; apply Z.leb_gt; lia).
  rewrite (to_u32_id (c + 1)) by lia. cbv zeta. rewrite land1_even.
  destruct (findRangeIndex_above m (c + 1) W ltac:(lia)) as (Hr & Hrc & Hb & _).
  pose proof (findRangeIndex_even m (c + 1) W ltac:(lia)) as Heven.
  set (r := findRangeIndex m (c + 1)) in *.
  destruct (Z.even r) eqn:E; cbn [negb].
  - split; [lia|]. split; [apply Heven; reflexivity | intros x Hx; lia].
  - assert (Ho : Z.odd r = true) by (rewrite <- Z.negb_even, E; reflexivity).
    destruct (odd_double_ex r ltac:(lia) Ho) as (k & Hk & Ek).
    destruct Hb as [Hb | Hb]; [rewrite Hb in Hrc; lia|].
    assert (Hk2 : 2 * k + 2 < 2 * mnRangeCount m).
    { destruct (Z.eq_dec r (2 * mnRangeCount m - 1)) as [Er|]; [rewrite Er in Hrc; lia | lia]. }
    pose proof (codes_lt m (r + 1) (r + 2) W ltac:(lia) ltac:(lia) ltac:(lia)) as Hw.
    pose proof (codes_le m (r + 2) (2 * mnRangeCount m - 1) W
                  ltac:(lia) ltac:(lia) ltac:(lia)) as Hend.
    split; [lia|]. split.
    + exists (k + 1). split; [lia|].
      replace (2 * (k + 1)) with (r + 1) by lia.
      replace (r + 1 + 1) with (r + 2) by lia. lia.
    + intros x Hx. apply (gap_not_covered m x k W); [lia | | ].
      * replace (2 * k + 1) with r by lia. lia.
      * right. replace (2 * k + 2) with (r + 1) by lia. lia.
Qed.

Lemma GetPrevChar_inside m c :
  wf_ranges m -> codes_fit_int m ->
  GetFirstChar m < c <= GetLastChar m ->
  GetFirstChar m <= GetPrevChar m c < c /\
  covered m (GetPrevChar m c) /\
  forall x, GetPrevChar m c < x < c -> ~ covered m x.
Proof.
  intros W F H. destruct (first_last_chars m W F) as (Ef & El & Hfl & Cf & Cl).
  pose proof F as (F0 & F1). pose proof W as (HN & Hlen & Hs).
  unfold GetPrevChar.
  replace (c <=? GetFirstChar m) with false by (symmetry; apply Z.leb_gt; lia).
  replace (c >? GetLastChar m) with false
    by (symmetry; rewrite Z.gtb_ltb; apply Z.ltb_ge; lia).
  rewrite (to_u32_id (c - 1)) by lia. cbv zeta. rewrite land1_even.
  destruct (findRangeIndex_above m (c - 1) W ltac:(lia)) as (Hr & Hrc & Hb & _).
  pose proof (findRangeIndex_even m (c - 1) W ltac:(lia)) as Heven.
  set (r := findRangeIndex m (c - 1)) in *.
  destruct (Z.even r) eqn:E; cbn [negb].
  - split; [lia|]. split; [apply Heven; reflexivity | intros x Hx; lia].
  - assert (Ho : Z.odd r = true) by (rewrite <- Z.negb_even, E; reflexivity).
    destruct (odd_double_ex r ltac:(lia) Ho) as (k & Hk & Ek).
    pose proof (codes_lt m (r - 1) r W ltac:(lia) ltac:(lia) ltac:(lia)) as Hw.
    pose proof (codes_le m 0 (r - 1) W ltac:(lia) ltac:(lia) ltac:(lia)) as Hbeg.
    pose proof (codes_le m r (2 * mnRangeCount m - 1) W ltac:(lia) ltac:(lia) ltac:(lia)).
    rewrite to_u32_id by lia.
    split; [lia|]. split.
    + exists k. split; [lia|].
      replace (2 * k) with (r - 1) by lia.
      replace (r - 1 + 1) with r by lia. lia.
    + intros x Hx. apply (gap_not_covered m x k W); [lia | | ].
      * replace (2 * k + 1) with r by lia. lia.
      * destruct Hb as [Hb | Hb]; [left; lia | right].
        replace (2 * k + 2) with (r + 1) by lia. lia.
Qed.

Lemma default_map_fit b : codes_fit_int (default_map b).
Proof. destruct b; split; vm_compute; congruence. Qed.

(** X1.  [GetNextChar]: below the first character it returns the first
    character, from the last character on the last one, and in between the
    least code point of the map above [c]. *)
Theorem GetNextChar_least m c :
  wf_ranges m -> codes_fit_int m ->
  (c < GetFirstChar m -> GetNextChar m c = GetFirstChar m) /\
  (GetLastChar m <= c -> GetNextChar m c = GetLastChar m) /\
  (GetFirstChar m <= c < GetLastChar m ->
     c < GetNextChar m c <= GetLastChar m /\
     covered m (GetNextChar m c) /\
     forall x, c < x < GetNextChar m c -> ~ covered m x).
Proof.
  intros W F. split; [|split].
  - intros H. unfold GetNextChar.
    replace (c <? GetFirstChar m) with true by (symmetry; apply Z.ltb_lt; lia).
    reflexivity.
  - intros H. destruct (first_last_chars m W F) as (_ & _ & Hfl & _).
    unfold GetNextChar.
    replace (c <? GetFirstChar m) with false by (symmetry; apply Z.ltb_ge; lia).
    replace (c >=? GetLastChar m) with true by (symmetry; apply Z.geb_le; lia).
    reflexivity.
  - apply GetNextChar_inside; assumption.
Qed.

Lemma GetNextChar_least_witness :
  0xFF < GetNextChar (default_map true) 0xFF <= GetLastChar (default_map true) /\
  covered (default_map true) (GetNextChar (default_map true) 0xFF) /\
  forall x, 0xFF < x < GetNextChar (default_map true) 0xFF -> ~ covered (default_map true) x.
Proof.
  apply (GetNextChar_least (default_map true) 0xFF
           (default_map_wf true) (default_map_fit true)).
  vm_compute. split; [discriminate | reflexivity].
Defined.

(** X2.  [GetPrevChar]: up to the first character it returns the first
    character, above the last character the last one, and in between the
    greatest code point of the map below [c]. *)
Theorem GetPrevChar_greatest m c :
  wf_ranges m -> codes_fit_int m ->
  (c <= GetFirstChar m -> GetPrevChar m c = GetFirstChar m) /\
  (GetLastChar m < c -> GetPrevChar m c = GetLastChar m) /\
  (GetFirstChar m < c <= GetLastChar m ->
     GetFirstChar m <= GetPrevChar m c < c /\
     covered m (GetPrevChar m c) /\
     forall x, GetPrevChar m c < x < c -> ~ covered m x).
Proof.
  intros W F. split; [|split].
  - intros H. unfold GetPrevChar.
    replace (c <=? GetFirstChar m) with true by (symmetry; apply Z.leb_le; lia).
    reflexivity.
  - intros H. destruct (first_last_chars m W F) as (_ & _ & Hfl & _).
    unfold GetPrevChar.
    replace (c <=? GetFirstChar m) with false by (symmetry; apply Z.leb_gt; lia).
    replace (c >? GetLastChar m) with true by (symmetry; rewrite Z.gtb_ltb; apply Z.ltb_lt; lia).
    reflexivity.
  - apply GetPrevChar_inside; assumption.
Qed.

Lemma GetPrevChar_greatest_witness :
  GetFirstChar (default_map true) <= GetPrevChar (default_map true) 0xF020 < 0xF020 /\
  covered (default_map true) (GetPrevChar (default_map true) 0xF020) /\
  forall x, GetPrevChar (default_map true) 0xF020 < x < 0xF020 -> ~ covered (default_map true) x.
Proof.
  apply (GetPrevChar_greatest (default_map true) 0xF020
           (default_map_wf true) (default_map_fit true)).
  vm_compute. split; [reflexivity | discriminate].
Defined.

Lemma covered_between_first_last m c :
  wf_ranges m -> codes_fit_int m -> covered m c ->
  GetFirstChar m <= c <= GetLastChar m.
Proof.
  intros W F (k & Hk & Hin). destruct (first_last_chars m W F) as (Ef & El & _).
  rewrite Ef, El.
  pose proof (codes_le m 0 (2 * k) W ltac:(lia) ltac:(lia) ltac:(lia)).
  pose proof (codes_le m (2 * k + 1) (2 * mnRangeCount m - 1) W
                ltac:(lia) ltac:(lia) ltac:(lia)). lia.
Qed.

(** X3.  On a code point [c] of the map, [GetNextChar (GetPrevChar c)] is
    [c] when [c] is above the first character, and
    [GetPrevChar (GetNextChar c)] is [c] when [c] is below the last one. *)
Theorem GetNextChar_GetPrevChar m c :
  wf_ranges m -> codes_fit_int m -> covered m c ->
  (GetFirstChar m < c -> GetNextChar m (GetPrevChar m c) = c) /\
  (c < GetLastChar m -> GetPrevChar m (GetNextChar m c) = c).
Proof.
  intros W F Hc. pose proof (covered_between_first_last m c W F Hc) as Hb.
  split; intros H.
  - destruct (GetPrevChar_inside m c W F ltac:(lia)) as (P1 & P2 & P3).
    set (p := GetPrevChar m c) in *.
    destruct (GetNextChar_inside m p W F ltac:(lia)) as (N1 & N2 & N3).
    set (n := GetNextChar m p) in *.
    destruct (Z_lt_le_dec c n) as [Hlt|]; [exfalso; apply (N3 c); [lia | exact Hc]|].
    destruct (Z_lt_le_dec n c) as [Hlt|]; [exfalso; apply (P3 n); [lia | exact N2] | lia].
  - destruct (GetNextChar_inside m c W F ltac:(lia)) as (N1 & N2 & N3).
    set (n := GetNextChar m c) in *.
    destruct (GetPrevChar_inside m n W F ltac:(lia)) as (P1 & P2 & P3).
    set (p := GetPrevChar m n) in *.
    destruct (Z_lt_le_dec p c) as [Hlt|]; [exfalso; apply (P3 c); [lia | exact Hc]|].
    destruct (Z_lt_le_dec c p) as [Hlt|]; [exfalso; apply (N3 p); [lia | exact P2] | lia].
Qed.

Lemma GetNextChar_GetPrevChar_witness :
  GetNextChar (default_map true) (GetPrevChar (default_map true) 0xF020) = 0xF020 /\
  GetPrevChar (default_map true) (GetNextChar (default_map true) 0xFF) = 0xFF.
Proof.
  split.
  - apply (GetNextChar_GetPrevChar (default_map true) 0xF020
             (default_map_wf true) (default_map_fit true)).
    + exists 1. vm_compute. repeat split; congruence.
    + vm_compute. reflexivity.
  - apply (GetNextChar_GetPrevChar (default_map true) 0xFF
             (default_map_wf true) (default_map_fit true)).
    + exists 0. vm_compute. repeat split; congruence.
    + vm_compute. reflexivity.
Defined.

(** ** Sums over the ranges *)

Lemma zsum_ext f g lo n :
  (forall k, lo <= k < lo + Z.of_nat n -> f k = g k) -> zsum f lo n = zsum g lo n.
Proof.
  revert lo. induction n as [|n IH]; intros lo H; cbn [zsum]; [reflexivity|].
  rewrite (H lo) by lia. rewrite (IH (lo + 1)); [reflexivity|]. intros k Hk. apply H. lia.
Qed.

Lemma zsum_zero f lo n :
  (forall k, lo <= k < lo + Z.of_nat n -> f k = 0) -> zsum f lo n = 0.
Proof.
  revert lo. induction n as [|n IH]; intros lo H; cbn [zsum]; [reflexivity|].
  rewrite (H lo) by lia. rewrite (IH (lo + 1)); [reflexivity|]. intros k Hk. apply H. lia.
Qed.

Lemma zsum_app f lo n1 n2 :
  zsum f lo (n1 + n2) = zsum f lo n1 + zsum f (lo + Z.of_nat n1) n2.
Proof.
  revert lo. induction n1 as [|n1 IH]; intros lo; cbn [zsum Nat.add].
  - replace (lo + Z.of_nat 0) with lo by lia. lia.
  - rewrite IH. replace (lo + 1 + Z.of_nat n1) with (lo + Z.of_nat (S n1)) by lia. lia.
Qed.

Lemma zsum_snoc f lo n : zsum f lo (S n) = zsum f lo n + f (lo + Z.of_nat n).
Proof.
  replace (S n) with (n + 1)%nat by lia. rewrite zsum_app. cbn [zsum]. lia.
Qed.

Lemma range_width_pos m k :
  wf_ranges m -> 0 <= k < mnRangeCount m -> 0 < range_width m k.
Proof.
  intros W Hk. unfold range_width.
  pose proof (codes_lt m (2 * k) (2 * k + 1) W ltac:(lia) ltac:(lia) ltac:(lia)). lia.
Qed.

Lemma zsum_width_bounds m :
  wf_ranges m ->
  forall n k, 0 <= k < mnRangeCount m -> k + Z.of_nat n <= mnRangeCount m ->
    0 <= zsum (range_width m) k n <=
      (codes m).[2 * mnRangeCount m - 1] - (codes m).[2 * k].
Proof.
  intros W. induction n as [|n IH]; intros k Hk Hn; cbn [zsum].
  - pose proof (codes_le m (2 * k) (2 * mnRangeCount m - 1) W ltac:(lia) ltac:(lia) ltac:(lia)).
    lia.
  - pose proof (range_width_pos m k W Hk) as Hw. unfold range_width in *.
    destruct (Z.eq_dec (k + 1) (mnRangeCount m)) as [E|E].
    + assert (n = O) by lia. subst n. cbn [zsum].
      replace (2 * mnRangeCount m - 1) with (2 * k + 1) by lia. lia.
    + specialize (IH (k + 1) ltac:(lia) ltac:(lia)).
      pose proof (codes_lt m (2 * k + 1) (2 * (k + 1)) W ltac:(lia) ltac:(lia) ltac:(lia)).
      lia.
Qed.

(** ** The character count of the constructor *)

Lemma ctor_loop_sum m :
  wf_ranges m -> codes_fit_int m ->
  forall n k acc,
    0 <= k -> k + Z.of_nat n <= mnRangeCount m ->
    - 2 ^ 31 <= acc ->
    (k < mnRangeCount m ->
       acc + ((codes m).[2 * mnRangeCount m - 1] - (codes m).[2 * k]) < 2 ^ 31) ->
    ctor_loop n (codes m) (2 * k) acc = acc + zsum (range_width m) k n.
Proof.
  intros W (F0 & F1). induction n as [|n IH]; intros k acc Hk Hn Hacc Hfit;
    cbn [ctor_loop zsum]; [lia|].
  specialize (Hfit ltac:(lia)).
  pose proof (range_width_pos m k W ltac:(lia)) as Hw. unfold range_width in *.
  pose proof (codes_le m (2 * k + 1) (2 * mnRangeCount m - 1) W
                ltac:(lia) ltac:(lia) ltac:(lia)) as Hle.
  rewrite to_u32_id by lia. rewrite to_int_id by lia.
  replace (2 * k + 2) with (2 * (k + 1)) by lia.
  rewrite IH; [lia | lia | lia | lia |].
  intros Hk1.
  pose proof (codes_lt m (2 * k + 1) (2 * (k + 1)) W ltac:(lia) ltac:(lia) ltac:(lia)). lia.
Qed.

Lemma total_count_bounds m :
  wf_ranges m -> codes_fit_int m -> 0 < total_count m < 2 ^ 31.
Proof.
  intros W (F0 & F1). pose proof W as (HN & _). unfold total_count.
  pose proof (zsum_width_bounds m W (Z.to_nat (mnRangeCount m)) 0 ltac:(lia) ltac:(lia)) as B.
  replace (2 * 0) with 0 in B by lia.
  assert (0 < zsum (range_width m) 0 (Z.to_nat (mnRangeCount m))).
  { replace (Z.to_nat (mnRangeCount m)) with (S (Z.to_nat (mnRangeCount m - 1))) by lia.
    cbn [zsum]. pose proof (range_width_pos m 0 W ltac:(lia)).
    destruct (Z.eq_dec (mnRangeCount m) 1) as [E|E].
    - rewrite E. cbn [zsum Z.to_nat Z.sub Z.add Z.opp Z.pos_sub]. simpl zsum. lia.
    - pose proof (zsum_width_bounds m W (Z.to_nat (mnRangeCount m - 1)) 1
                    ltac:(lia) ltac:(lia)). replace (0 + 1) with 1 by lia. lia. }
  lia.
Qed.

Lemma mnCharCount_total rCR :
  wf_ranges (ImplFontCharMap_ctor rCR) -> codes_fit_int (ImplFontCharMap_ctor rCR) ->
  mnCharCount (ImplFontCharMap_ctor rCR) = total_count (ImplFontCharMap_ctor rCR).
Proof.
  intros W F. pose proof W as (HN & _). pose proof F as (F0 & F1).
  pose proof (ctor_loop_sum _ W F (Z.to_nat (mnRangeCount (ImplFontCharMap_ctor rCR))) 0 0
                ltac:(lia) ltac:(lia) ltac:(lia)) as S.
  replace (2 * 0) with 0 in S by lia.
  unfold total_count. cbn [ImplFontCharMap_ctor mnCharCount].
  unfold codes in S. cbn [ImplFontCharMap_ctor mpRangeCodes mnRangeCount] in S.
  rewrite S; [cbn [ImplFontCharMap_ctor mnRangeCount]; lia|].
  intros _. unfold codes in F0, F1.
  cbn [ImplFontCharMap_ctor mpRangeCodes mnRangeCount] in F0, F1. lia.
Qed.

(** X4.  The character count a constructed map stores is the sum of the
    widths of its ranges, when the boundaries are strictly increasing and
    below 2^31; it is positive and an [int] holds it. *)
Theorem GetCharCount_total rCR :
  wf_ranges (ImplFontCharMap_ctor rCR) -> codes_fit_int (ImplFontCharMap_ctor rCR) ->
  GetCharCount (ImplFontCharMap_ctor rCR) = total_count (ImplFontCharMap_ctor rCR) /\
  0 < GetCharCount (ImplFontCharMap_ctor rCR) < 2 ^ 31.
Proof.
  intros W F. pose proof (total_count_bounds _ W F) as B.
  unfold GetCharCount. rewrite (mnCharCount_total rCR W F). split; [reflexivity | exact B].
Qed.

Lemma GetCharCount_total_witness :
  GetCharCount (ImplFontCharMap_ctor (CmapResult_ctor true codes_aDefaultSymbolRanges 2)) =
    total_count (ImplFontCharMap_ctor (CmapResult_ctor true codes_aDefaultSymbolRanges 2)) /\
  0 < GetCharCount (ImplFontCharMap_ctor (CmapResult_ctor true codes_aDefaultSymbolRanges 2))
    < 2 ^ 31.
Proof.
  exact (GetCharCount_total (CmapResult_ctor true codes_aDefaultSymbolRanges 2)
           (default_map_wf true) (default_map_fit true)).
Defined.

(** ** CountCharsInRange *)

Lemma CountCharsInRange_loop_sum m :
  wf_ranges m -> codes_fit_int m ->
  forall n fuel k acc b,
    (n <= fuel)%nat -> 0 <= k -> k + Z.of_nat n <= mnRangeCount m ->
    b = 2 * (k + Z.of_nat n) - 2 ->
    - 2 ^ 31 <= acc ->
    (k < mnRangeCount m ->
       acc + ((codes m).[2 * mnRangeCount m - 1] - (codes m).[2 * k]) < 2 ^ 31) ->
    CountCharsInRange_loop fuel (codes m) (2 * k) b acc = acc + zsum (range_width m) k n.
Proof.
  intros W (F0 & F1). induction n as [|n IH]; intros fuel k acc b Hfuel Hk Hn Hb Hacc Hfit.
  - cbn [zsum]. destruct fuel; cbn [CountCharsInRange_loop]; [lia|].
    replace (2 * k <=? b) with false by (symmetry; apply Z.leb_gt; lia). lia.
  - destruct fuel as [|fuel]; [lia|]. cbn [CountCharsInRange_loop zsum].
    replace (2 * k <=? b) with true by (symmetry; apply Z.leb_le; lia).
    specialize (Hfit ltac:(lia)).
    pose proof (range_width_pos m k W ltac:(lia)) as Hw. unfold range_width in *.
    pose proof (codes_le m (2 * k + 1) (2 * mnRangeCount m - 1) W
                  ltac:(lia) ltac:(lia) ltac:(lia)) as Hle.
    rewrite to_u32_id by lia. rewrite to_int_id by lia.
    replace (2 * k + 2) with (2 * (k + 1)) by lia.
    rewrite (IH fuel (k + 1)); [lia | lia | lia | lia | lia | lia |].
    intros Hk1.
    pose proof (codes_lt m (2 * k + 1) (2 * (k + 1)) W ltac:(lia) ltac:(lia) ltac:(lia)). lia.
Qed.

(** Where the search for [cMin] leaves the lower end: the first range [A]
    that is not wholly below [cMin]. *)
Lemma count_min_facts m cMin :
  wf_ranges m -> codes_fit_int m -> 0 <= cMin ->
  exists A,
    (if negb (Z.land (findRangeIndex m cMin) 1 =? 0)
     then findRangeIndex m cMin + 1 else findRangeIndex m cMin) = 2 * A /\
    0 <= A <= mnRangeCount m /\
    (forall k, 0 <= k < A -> (codes m).[2 * k + 1] <= cMin) /\
    (A < mnRangeCount m -> cMin < (codes m).[2 * A + 1]) /\
    (if negb (Z.land (findRangeIndex m cMin) 1 =? 0) then 0
     else if cMin >? (codes m).[findRangeIndex m cMin]
          then to_int (0 - to_u32 (cMin - (codes m).[findRangeIndex m cMin]))
          else 0)
    = - (if A <? mnRangeCount m then Z.max 0 (cMin - (codes m).[2 * A]) else 0).
Proof.
  intros W F Hc. pose proof W as (HN & Hlen & Hs). pose proof F as (F0 & F1).
  rewrite land1_even.
  destruct (Z_lt_le_dec cMin (codes m).[0]) as [Hlow | Hge].
  - rewrite (findRangeIndex_below m cMin W Hlow). cbn [Z.even negb].
    exists 0. replace (2 * 0) with 0 by lia.
    pose proof (codes_lt m 0 1 W ltac:(lia) ltac:(lia) ltac:(lia)).
    split; [reflexivity|]. split; [lia|]. split; [intros; lia|].
    split; [intros _; simpl; lia|].
    replace (cMin >? (codes m).[0]) with false by (symmetry; rewrite Z.gtb_ltb; apply Z.ltb_ge; lia).
    replace (0 <? mnRangeCount m) with true by (symmetry; apply Z.ltb_lt; lia). lia.
  - destruct (findRangeIndex_above m cMin W Hge) as (Hr & Hrc & Hb & _).
    set (r := findRangeIndex m cMin) in *.
    destruct (Z.even r) eqn:E; cbn [negb].
    + destruct (even_double_ex r ltac:(lia) E) as (j & Hj & Ej).
      assert (Hin : cMin < (codes m).[r + 1]) by (destruct Hb as [Hb | Hb]; [lia | exact Hb]).
      pose proof (codes_le m (r + 1) (2 * mnRangeCount m - 1) W
                    ltac:(lia) ltac:(lia) ltac:(lia)).
      exists j. split; [exact Ej|]. split; [lia|]. split.
      * intros k Hk.
        pose proof (codes_le m (2 * k + 1) r W ltac:(lia) ltac:(lia) ltac:(lia)). lia.
      * split; [intros _; replace (2 * j + 1) with (r + 1) by lia; exact Hin|].
        replace (j <? mnRangeCount m) with true by (symmetry; apply Z.ltb_lt; lia).
        replace (2 * j) with r by lia.
        destruct (cMin >? (codes m).[r]) eqn:G;
          [rewrite Z.gtb_ltb in G; apply Z.ltb_lt in G
          | rewrite Z.gtb_ltb in G; apply Z.ltb_ge in G]; [|lia].
        pose proof (codes_le m 0 r W ltac:(lia) ltac:(lia) ltac:(lia)).
        rewrite to_u32_id by lia. rewrite to_int_id by lia. lia.
    + assert (Ho : Z.odd r = true) by (rewrite <- Z.negb_even, E; reflexivity).
      destruct (odd_double_ex r ltac:(lia) Ho) as (j & Hj & Ej).
      exists (j + 1). split; [lia|]. split; [lia|]. split.
      * intros k Hk.
        pose proof (codes_le m (2 * k + 1) r W ltac:(lia) ltac:(lia) ltac:(lia)). lia.
      * assert (Hnext : j + 1 < mnRangeCount m -> cMin < (codes m).[2 * (j + 1)]).
        { intros Hlt. destruct Hb as [Hb | Hb]; [lia|].
          replace (2 * (j + 1)) with (r + 1) by lia. exact Hb. }
        split.
        -- intros Hlt. specialize (Hnext Hlt).
           pose proof (codes_lt m (2 * (j + 1)) (2 * (j + 1) + 1) W
                         ltac:(lia) ltac:(lia) ltac:(lia)). lia.
        -- destruct (j + 1 <? mnRangeCount m) eqn:L; [apply Z.ltb_lt in L|reflexivity].
           specialize (Hnext L). lia.
Qed.

(** Where the search for [cMax] leaves the upper end: the last range [B]
    that does not start above [cMax]. *)
Lemma count_max_facts m cMax acc :
  wf_ranges m -> codes_fit_int m -> (codes m).[0] <= cMax ->
  - 2 ^ 31 < acc <= 0 ->
  exists B,
    (if negb (Z.land (findRangeIndex m cMax) 1 =? 0)
     then findRangeIndex m cMax - 1 else findRangeIndex m cMax) = 2 * B /\
    0 <= B < mnRangeCount m /\
    (codes m).[2 * B] <= cMax /\
    (forall k, B < k < mnRangeCount m -> cMax < (codes m).[2 * k]) /\
    (acc - Z.max 0 ((codes m).[2 * B + 1] - 1 - cMax) > - 2 ^ 31 ->
     (if negb (Z.land (findRangeIndex m cMax) 1 =? 0) then acc
      else to_int (acc - to_u32 ((codes m).[findRangeIndex m cMax + 1] - cMax - 1)))
     = acc - Z.max 0 ((codes m).[2 * B + 1] - 1 - cMax)).
Proof.
  intros W F Hge Hacc. pose proof W as (HN & Hlen & Hs). pose proof F as (F0 & F1).
  rewrite land1_even.
  destruct (findRangeIndex_above m cMax W Hge) as (Hr & Hrc & Hb & _).
  set (r := findRangeIndex m cMax) in *.
  destruct (Z.even r) eqn:E; cbn [negb].
  - destruct (even_double_ex r ltac:(lia) E) as (j & Hj & Ej).
    assert (Hin : cMax < (codes m).[r + 1]) by (destruct Hb as [Hb | Hb]; [lia | exact Hb]).
    pose proof (codes_le m (r + 1) (2 * mnRangeCount m - 1) W
                  ltac:(lia) ltac:(lia) ltac:(lia)).
    pose proof (codes_le m 0 r W ltac:(lia) ltac:(lia) ltac:(lia)).
    exists j. split; [exact Ej|]. split; [lia|].
    split; [replace (2 * j) with r by lia; exact Hrc|]. split.
    + intros k Hk.
      pose proof (codes_le m (r + 1) (2 * k) W ltac:(lia) ltac:(lia) ltac:(lia)). lia.
    + replace (2 * j + 1) with (r + 1) by lia. intros Hlow.
      rewrite to_u32_id by lia. rewrite to_int_id by lia. lia.
  - assert (Ho : Z.odd r = true) by (rewrite <- Z.negb_even, E; reflexivity).
    destruct (odd_double_ex r ltac:(lia) Ho) as (j & Hj & Ej).
    exists j. split; [lia|]. split; [lia|]. split.
    + pose proof (codes_le m (2 * j) r W ltac:(lia) ltac:(lia) ltac:(lia)). lia.
    + split.
      * intros k Hk. destruct Hb as [Hb | Hb]; [lia|].
        pose proof (codes_le m (r + 1) (2 * k) W ltac:(lia) ltac:(lia) ltac:(lia)). lia.
      * intros _. replace (2 * j + 1) with r by lia. lia.
Qed.

Lemma zsum_minus_at f j v :
  forall n lo, lo <= j < lo + Z.of_nat n ->
    zsum (fun k => f k - (if k =? j then v else 0)) lo n = zsum f lo n - v.
Proof.
  induction n as [|n IH]; intros lo H; [lia|]. cbn [zsum].
  destruct (Z.eq_dec lo j) as [->|Hne].
  - rewrite Z.eqb_refl.
    rewrite (zsum_ext (fun k => f k - (if k =? j then v else 0)) f (j + 1) n); [lia|].
    intros k Hk. replace (k =? j) with false by (symmetry; apply Z.eqb_neq; lia). lia.
  - replace (lo =? j) with false by (symmetry; apply Z.eqb_neq; lia).
    rewrite IH by lia. lia.
Qed.

Lemma zsum_nonneg f lo n :
  (forall k, lo <= k < lo + Z.of_nat n -> 0 <= f k) -> 0 <= zsum f lo n.
Proof.
  revert lo. induction n as [|n IH]; intros lo H; cbn [zsum]; [lia|].
  pose proof (H lo ltac:(lia)). pose proof (IH (lo + 1) ltac:(intros; apply H; lia)). lia.
Qed.

Lemma CountCharsInRange_sum m cMin cMax :
  wf_ranges m -> codes_fit_int m ->
  0 <= cMin <= cMax -> (codes m).[0] <= cMax ->
  CountCharsInRange m cMin cMax = covered_count m cMin cMax.
Proof.
  intros W F Hmin Hmax0. pose proof W as (HN & Hlen & Hs). pose proof F as (F0 & F1).
  unfold CountCharsInRange. cbv zeta.
  destruct (count_min_facts m cMin W F ltac:(lia)) as (A & EA & HA & HbelowA & HinA & En1).
  rewrite EA, En1. clear EA En1.
  set (adjMin := if A <? mnRangeCount m then Z.max 0 (cMin - (codes m).[2 * A]) else 0).
  assert (HadjMin : 0 <= adjMin /\ (A < mnRangeCount m -> adjMin = Z.max 0 (cMin - (codes m).[2 * A]))
                    /\ (A = mnRangeCount m -> adjMin = 0)).
  { unfold adjMin. destruct (A <? mnRangeCount m) eqn:L;
      [apply Z.ltb_lt in L | apply Z.ltb_ge in L]; lia. }
  assert (HcA : A < mnRangeCount m ->
                0 <= (codes m).[2 * A] < (codes m).[2 * A + 1] /\ (codes m).[2 * A + 1] < 2 ^ 31).
  { intros L.
    pose proof (codes_le m 0 (2 * A) W ltac:(lia) ltac:(lia) ltac:(lia)).
    pose proof (codes_lt m (2 * A) (2 * A + 1) W ltac:(lia) ltac:(lia) ltac:(lia)).
    pose proof (codes_le m (2 * A + 1) (2 * mnRangeCount m - 1) W
                  ltac:(lia) ltac:(lia) ltac:(lia)). lia. }
  destruct (count_max_facts m cMax (- adjMin) W F Hmax0) as (B & EB & HB & HBle & HaboveB & En2).
  { destruct (Z.eq_dec A (mnRangeCount m)) as [E|E]; [lia|].
    specialize (HinA ltac:(lia)). specialize (HcA ltac:(lia)). lia. }
  rewrite EB. clear EB.
  set (adjMax := Z.max 0 ((codes m).[2 * B + 1] - 1 - cMax)) in *.
  assert (HcB : 0 <= (codes m).[2 * B] < (codes m).[2 * B + 1] /\ (codes m).[2 * B + 1] < 2 ^ 31).
  { pose proof (codes_le m 0 (2 * B) W ltac:(lia) ltac:(lia) ltac:(lia)).
    pose proof (codes_lt m (2 * B) (2 * B + 1) W ltac:(lia) ltac:(lia) ltac:(lia)).
    pose proof (codes_le m (2 * B + 1) (2 * mnRangeCount m - 1) W
                  ltac:(lia) ltac:(lia) ltac:(lia)). lia. }
  assert (HAB : A <= B + 1).
  { destruct (Z_le_gt_dec A (B + 1)) as [|G]; [assumption|].
    specialize (HbelowA (B + 1) ltac:(lia)). specialize (HaboveB (B + 1) ltac:(lia)).
    pose proof (codes_lt m (2 * (B + 1)) (2 * (B + 1) + 1) W ltac:(lia) ltac:(lia) ltac:(lia)).
    lia. }
  assert (Hadj : A = B + 1 -> adjMin = 0 /\ adjMax = 0).
  { intros E. specialize (HbelowA B ltac:(lia)). split; [|unfold adjMax; lia].
    destruct (Z.eq_dec A (mnRangeCount m)) as [E'|E']; [lia|].
    specialize (HaboveB A ltac:(lia)). lia. }
  assert (Hsep : A < B -> (codes m).[2 * A + 1] < (codes m).[2 * B]).
  { intros L. apply (codes_lt m); [exact W | lia | lia | lia]. }
  rewrite En2.
  2:{ destruct (Z.eq_dec A (B + 1)) as [E|E]; [destruct (Hadj E); lia|].
      specialize (HinA ltac:(lia)). specialize (HcA ltac:(lia)).
      destruct (Z.eq_dec A B) as [E2|E2]; [subst A; unfold adjMax; lia|].
      specialize (Hsep ltac:(lia)). unfold adjMax. lia. }
  clear En2.
  rewrite (CountCharsInRange_loop_sum m W F (Z.to_nat (B + 1 - A)) _ A _ (2 * B));
    [ | lia | lia | lia | lia | |].
  2:{ destruct (Z.eq_dec A (B + 1)) as [E|E]; [destruct (Hadj E); lia|].
      specialize (HinA ltac:(lia)). specialize (HcA ltac:(lia)).
      destruct (Z.eq_dec A B) as [E2|E2]; [subst A; unfold adjMax; lia|].
      specialize (Hsep ltac:(lia)). unfold adjMax. lia. }
  2:{ intros L. specialize (HcA L). unfold adjMax. lia. }
  unfold covered_count.
  replace (Z.to_nat (mnRangeCount m))
    with (Z.to_nat A + (Z.to_nat (B + 1 - A) + Z.to_nat (mnRangeCount m - B - 1)))%nat by lia.
  rewrite !zsum_app.
  rewrite (zsum_zero (covered_in m cMin cMax) 0).
  2:{ intros k Hk. specialize (HbelowA k ltac:(lia)). unfold covered_in. lia. }
  rewrite (zsum_zero (covered_in m cMin cMax) (0 + Z.of_nat (Z.to_nat A) + _)).
  2:{ intros k Hk. specialize (HaboveB k ltac:(lia)). unfold covered_in. lia. }
  replace (0 + Z.of_nat (Z.to_nat A)) with A by lia.
  destruct (Z.eq_dec A (B + 1)) as [E|E].
  { destruct (Hadj E) as (-> & ->).
    replace (Z.to_nat (B + 1 - A)) with O by lia. cbn [zsum]. lia. }
  specialize (HinA ltac:(lia)). specialize (HcA ltac:(lia)).
  destruct HadjMin as (_ & HadjMin & _). specialize (HadjMin ltac:(lia)).
  rewrite (zsum_ext (covered_in m cMin cMax)
             (fun k => (range_width m k - (if k =? A then adjMin else 0))
                       - (if k =? B then adjMax else 0)) A).
  - rewrite zsum_minus_at by lia. rewrite zsum_minus_at by lia. lia.
  - intros k Hk. unfold covered_in, range_width.
    pose proof (codes_lt m (2 * k) (2 * k + 1) W ltac:(lia) ltac:(lia) ltac:(lia)) as Hw.
    destruct (k =? A) eqn:EkA; [apply Z.eqb_eq in EkA | apply Z.eqb_neq in EkA];
      destruct (k =? B) eqn:EkB; [apply Z.eqb_eq in EkB | apply Z.eqb_neq in EkB | apply Z.eqb_eq in EkB | apply Z.eqb_neq in EkB].
    + subst k. subst B. unfold adjMax in *. lia.
    + subst k.
      pose proof (codes_lt m (2 * A + 1) (2 * B) W ltac:(lia) ltac:(lia) ltac:(lia)). lia.
    + subst k.
      pose proof (codes_lt m (2 * A + 1) (2 * B) W ltac:(lia) ltac:(lia) ltac:(lia)).
      unfold adjMax in *. lia.
    + pose proof (codes_lt m (2 * A + 1) (2 * k) W ltac:(lia) ltac:(lia) ltac:(lia)).
      pose proof (codes_lt m (2 * k + 1) (2 * B) W ltac:(lia) ltac:(lia) ltac:(lia)). lia.
Qed.

(** X5.  [CountCharsInRange cMin cMax], for [cMin <= cMax] and [cMax] not
    below the first character, is the number of code points of the map in
    [cMin .. cMax]: the sum over the ranges of what each range has in
    common with the interval; so it is not negative. *)
Theorem CountCharsInRange_covered m cMin cMax :
  wf_ranges m -> codes_fit_int m ->
  0 <= cMin <= cMax -> (codes m).[0] <= cMax ->
  CountCharsInRange m cMin cMax = covered_count m cMin cMax /\
  0 <= CountCharsInRange m cMin cMax.
Proof.
  intros W F Hc Hmax. rewrite (CountCharsInRange_sum m cMin cMax W F Hc Hmax).
  split; [reflexivity|]. unfold covered_count. apply zsum_nonneg.
  intros k _. unfold covered_in. lia.
Qed.

Lemma CountCharsInRange_covered_witness :
  CountCharsInRange (default_map true) 0x80 0xF02F = covered_count (default_map true) 0x80 0xF02F /\
  0 <= CountCharsInRange (default_map true) 0x80 0xF02F.
Proof.
  apply (CountCharsInRange_covered (default_map true) 0x80 0xF02F
           (default_map_wf true) (default_map_fit true)).
  - vm_compute. split; discriminate.
  - vm_compute. discriminate.
Defined.

Lemma covered_count_all m :
  wf_ranges m -> codes_fit_int m ->
  covered_count m (GetFirstChar m) (GetLastChar m) = total_count m.
Proof.
  intros W F. destruct (first_last_chars m W F) as (Ef & El & _).
  pose proof W as (HN & _). unfold covered_count, total_count.
  apply zsum_ext. intros k Hk. unfold covered_in, range_width. rewrite Ef, El.
  pose proof (codes_le m 0 (2 * k) W ltac:(lia) ltac:(lia) ltac:(lia)).
  pose proof (codes_lt m (2 * k) (2 * k + 1) W ltac:(lia) ltac:(lia) ltac:(lia)).
  pose proof (codes_le m (2 * k + 1) (2 * mnRangeCount m - 1) W
                ltac:(lia) ltac:(lia) ltac:(lia)). lia.
Qed.

(** X6.  On a constructed map with strictly increasing boundaries below
    2^31, [CountCharsInRange (GetFirstChar, GetLastChar)] is [GetCharCount]. *)
Theorem CountCharsInRange_all rCR :
  wf_ranges (ImplFontCharMap_ctor rCR) -> codes_fit_int (ImplFontCharMap_ctor rCR) ->
  CountCharsInRange (ImplFontCharMap_ctor rCR)
    (GetFirstChar (ImplFontCharMap_ctor rCR)) (GetLastChar (ImplFontCharMap_ctor rCR))
  = GetCharCount (ImplFontCharMap_ctor rCR).
Proof.
  intros W F. set (m := ImplFontCharMap_ctor rCR) in *.
  destruct (first_last_chars m W F) as (Ef & El & Hfl & _).
  pose proof F as (F0 & F1).
  rewrite (CountCharsInRange_sum m _ _ W F); [| lia | lia].
  rewrite (covered_count_all m W F). unfold GetCharCount.
  symmetry. apply mnCharCount_total; assumption.
Qed.

Lemma CountCharsInRange_all_witness :
  CountCharsInRange (default_map false)
    (GetFirstChar (default_map false)) (GetLastChar (default_map false))
  = GetCharCount (default_map false).
Proof.
  exact (CountCharsInRange_all (CmapResult_ctor false codes_aDefaultUnicodeRanges 2)
           (default_map_wf false) (default_map_fit false)).
Defined.

(** X7.  An interval that ends below the first character is not counted as
    empty: [CountCharsInRange cMin cMax] is [cMax + 1 - GetFirstChar], which
    is negative unless [cMax] is the code point just below the first
    character. *)
Theorem CountCharsInRange_below_first m cMin cMax :
  wf_ranges m -> codes_fit_int m ->
  0 <= cMin <= cMax -> cMax < GetFirstChar m ->
  CountCharsInRange m cMin cMax = cMax + 1 - GetFirstChar m /\
  (cMax + 1 < GetFirstChar m -> CountCharsInRange m cMin cMax < 0).
Proof.
  intros W F Hc Hlow. pose proof W as (HN & Hlen & Hs). pose proof F as (F0 & F1).
  unfold GetFirstChar in *.
  pose proof (codes_lt m 0 1 W ltac:(lia) ltac:(lia) ltac:(lia)) as H01.
  pose proof (codes_le m 1 (2 * mnRangeCount m - 1) W ltac:(lia) ltac:(lia) ltac:(lia)) as H1.
  assert (E : CountCharsInRange m cMin cMax = cMax + 1 - (codes m).[0]).
  { unfold CountCharsInRange. cbv zeta.
    rewrite (findRangeIndex_below m cMin W ltac:(lia)).
    rewrite (findRangeIndex_below m cMax W ltac:(lia)).
    cbn [Z.land Z.eqb negb].
    replace (cMin >? (codes m).[0]) with false
      by (symmetry; rewrite Z.gtb_ltb; apply Z.ltb_ge; lia).
    replace (0 + 1) with 1 by lia.
    rewrite (to_u32_id ((codes m).[1] - cMax - 1)) by lia.
    rewrite (to_int_id (0 - ((codes m).[1] - cMax - 1))) by lia.
    change (Z.to_nat (0 - 0 + 2)) with 2%nat. cbn [CountCharsInRange_loop].
    replace (0 <=? 0) with true by reflexivity. replace (0 + 2 <=? 0) with false by reflexivity.
    replace (0 + 1) with 1 by lia.
    rewrite (to_u32_id ((codes m).[1] - (codes m).[0])) by lia.
    rewrite to_int_id by lia. lia. }
  split; [exact E | rewrite E; lia].
Qed.

Lemma CountCharsInRange_below_first_witness :
  CountCharsInRange (default_map true) 0 0 = 0 + 1 - GetFirstChar (default_map true) /\
  (0 + 1 < GetFirstChar (default_map true) -> CountCharsInRange (default_map true) 0 0 < 0).
Proof.
  apply (CountCharsInRange_below_first (default_map true) 0 0
           (default_map_wf true) (default_map_fit true)).
  - lia.
  - vm_compute. reflexivity.
Defined.

(** ** GetIndexFromChar and GetCharFromIndex *)

Lemma GetIndexFromChar_loop_found m c j :
  wf_ranges m -> codes_fit_int m -> in_range m c j ->
  forall n k acc,
    k + Z.of_nat n = mnRangeCount m -> 0 <= k <= j -> 0 <= acc ->
    acc + ((codes m).[2 * mnRangeCount m - 1] - (codes m).[2 * k]) < 2 ^ 31 ->
    GetIndexFromChar_loop n (codes m) c (2 * k) acc =
      acc + zsum (range_width m) k (Z.to_nat (j - k)) + (c - (codes m).[2 * j]).
Proof.
  intros W (F0 & F1) (Hj & Hin).
  induction n as [|n IH]; intros k acc Hn Hk Hacc Hfit; [lia|].
  cbn [GetIndexFromChar_loop]. cbv zeta.
  pose proof (range_width_pos m k W ltac:(lia)) as Hw. unfold range_width in Hw.
  pose proof (codes_le m (2 * k + 1) (2 * mnRangeCount m - 1) W
                ltac:(lia) ltac:(lia) ltac:(lia)) as Hle.
  pose proof (codes_le m 0 (2 * k) W ltac:(lia) ltac:(lia) ltac:(lia)) as H0.
  destruct (Z.eq_dec k j) as [->|Hne].
  - replace (c >=? (codes m).[2 * j + 1]) with false
      by (symmetry; rewrite Z.geb_leb; apply Z.leb_gt; lia).
    replace (c >=? (codes m).[2 * j]) with true by (symmetry; apply Z.geb_le; lia).
    rewrite to_u32_id by lia. rewrite to_int_id by lia.
    replace (Z.to_nat (j - j)) with O by lia. cbn [zsum]. lia.
  - pose proof (codes_le m (2 * k + 1) (2 * j) W ltac:(lia) ltac:(lia) ltac:(lia)).
    replace (c >=? (codes m).[2 * k + 1]) with true by (symmetry; apply Z.geb_le; lia).
    rewrite to_u32_id by lia. rewrite to_int_id by lia.
    replace (2 * k + 2) with (2 * (k + 1)) by lia.
    rewrite IH; [ | lia | lia | lia |].
    + replace (Z.to_nat (j - k)) with (S (Z.to_nat (j - (k + 1)))) by lia.
      cbn [zsum]. unfold range_width at 2. lia.
    + pose proof (codes_lt m (2 * k + 1) (2 * (k + 1)) W ltac:(lia) ltac:(lia) ltac:(lia)). lia.
Qed.

Lemma GetIndexFromChar_loop_missing m c :
  forall n k acc,
    k + Z.of_nat n = mnRangeCount m -> 0 <= k ->
    (forall j, k <= j -> ~ in_range m c j) ->
    GetIndexFromChar_loop n (codes m) c (2 * k) acc = -1.
Proof.
  induction n as [|n IH]; intros k acc Hn Hk Hno; [reflexivity|].
  cbn [GetIndexFromChar_loop]. cbv zeta.
  destruct (c >=? (codes m).[2 * k + 1]) eqn:E1.
  - replace (2 * k + 2) with (2 * (k + 1)) by lia. apply IH; [lia | lia |].
    intros j Hj. apply Hno. lia.
  - destruct (c >=? (codes m).[2 * k]) eqn:E2; [|reflexivity].
    exfalso. apply (Hno k ltac:(lia)). split; [lia|].
    rewrite Z.geb_leb in E1. apply Z.leb_gt in E1. apply Z.geb_le in E2. lia.
Qed.

Lemma GetIndexFromChar_formula m c j :
  wf_ranges m -> codes_fit_int m -> in_range m c j ->
  GetIndexFromChar m c = zsum (range_width m) 0 (Z.to_nat j) + (c - (codes m).[2 * j]).
Proof.
  intros W F Hin. pose proof Hin as (Hj & _). pose proof F as (F0 & F1).
  unfold GetIndexFromChar.
  pose proof (GetIndexFromChar_loop_found m c j W F Hin (Z.to_nat (mnRangeCount m)) 0 0
                ltac:(lia) ltac:(lia) ltac:(lia)) as S.
  replace (2 * 0) with 0 in S by lia. rewrite S by lia.
  replace (j - 0) with j by lia. lia.
Qed.

Lemma zsum_width_step m :
  wf_ranges m ->
  forall n k, 0 <= k -> k + Z.of_nat n <= mnRangeCount m ->
    0 <= zsum (range_width m) k n /\
    (forall n', (n <= n')%nat -> k + Z.of_nat n' <= mnRangeCount m ->
       zsum (range_width m) k n <= zsum (range_width m) k n').
Proof.
  intros W n k Hk Hn. split.
  - apply zsum_nonneg. intros i Hi. pose proof (range_width_pos m i W ltac:(lia)). lia.
  - intros n' Hle Hn'. replace n' with (n + (n' - n))%nat by lia. rewrite zsum_app.
    assert (0 <= zsum (range_width m) (k + Z.of_nat n) (n' - n)); [|lia].
    apply zsum_nonneg. intros i Hi. pose proof (range_width_pos m i W ltac:(lia)). lia.
Qed.

(** X8.  [GetIndexFromChar]: for a code point of the map it is the number
    of code points of the map below it, which is below the character count
    and grows strictly with the code point; for every other code point it
    is -1. *)
Theorem GetIndexFromChar_ordinal m :
  wf_ranges m -> codes_fit_int m ->
  (forall c j, in_range m c j ->
     GetIndexFromChar m c = zsum (range_width m) 0 (Z.to_nat j) + (c - (codes m).[2 * j]) /\
     0 <= GetIndexFromChar m c < total_count m) /\
  (forall c1 c2, covered m c1 -> covered m c2 -> c1 < c2 ->
     GetIndexFromChar m c1 < GetIndexFromChar m c2) /\
  (forall c, ~ covered m c -> GetIndexFromChar m c = -1).
Proof.
  intros W F. pose proof W as (HN & _).
  assert (Hbound : forall c j, in_range m c j ->
            zsum (range_width m) 0 (Z.to_nat j) <=
              zsum (range_width m) 0 (Z.to_nat j) + (c - (codes m).[2 * j])
            /\ zsum (range_width m) 0 (Z.to_nat j) + (c - (codes m).[2 * j])
               < zsum (range_width m) 0 (S (Z.to_nat j))).
  { intros c j (Hj & Hin). rewrite zsum_snoc.
    set (s := zsum (range_width m) 0 (Z.to_nat j)). unfold range_width.
    replace (0 + Z.of_nat (Z.to_nat j)) with j by lia. lia. }
  split; [|split].
  - intros c j Hin. rewrite (GetIndexFromChar_formula m c j W F Hin).
    split; [reflexivity|]. pose proof Hin as (Hj & _).
    destruct (Hbound c j Hin) as (B1 & B2).
    destruct (zsum_width_step m W (Z.to_nat j) 0 ltac:(lia) ltac:(lia)) as (P & _).
    destruct (zsum_width_step m W (S (Z.to_nat j)) 0 ltac:(lia) ltac:(lia)) as (_ & M).
    specialize (M (Z.to_nat (mnRangeCount m)) ltac:(lia) ltac:(lia)).
    unfold total_count. lia.
  - intros c1 c2 (j1 & H1) (j2 & H2) Hlt.
    rewrite (GetIndexFromChar_formula m c1 j1 W F H1).
    rewrite (GetIndexFromChar_formula m c2 j2 W F H2).
    pose proof H1 as (Hj1 & Hin1). pose proof H2 as (Hj2 & Hin2).
    destruct (Z.eq_dec j1 j2) as [->|Hne]; [lia|].
    assert (j1 < j2).
    { destruct (Z_lt_le_dec j1 j2) as [|G]; [assumption|].
      pose proof (codes_le m (2 * j2 + 1) (2 * j1) W ltac:(lia) ltac:(lia) ltac:(lia)). lia. }
    destruct (Hbound c1 j1 H1) as (_ & B2). destruct (Hbound c2 j2 H2) as (B1 & _).
    destruct (zsum_width_step m W (S (Z.to_nat j1)) 0 ltac:(lia) ltac:(lia)) as (_ & M).
    specialize (M (Z.to_nat j2) ltac:(lia) ltac:(lia)). lia.
  - intros c Hno. unfold GetIndexFromChar.
    replace 0 with (2 * 0) at 1 by lia.
    apply GetIndexFromChar_loop_missing; [lia | lia |].
    intros j _ Hin. apply Hno. exists j. exact Hin.
Qed.

Lemma GetIndexFromChar_ordinal_witness :
  (GetIndexFromChar (default_map true) 0xF021 =
     zsum (range_width (default_map true)) 0 (Z.to_nat 1)
     + (0xF021 - (codes (default_map true)).[2 * 1]) /\
   0 <= GetIndexFromChar (default_map true) 0xF021 < total_count (default_map true)) /\
  GetIndexFromChar (default_map true) 0x1000 = -1.
Proof.
  destruct (GetIndexFromChar_ordinal (default_map true)
              (default_map_wf true) (default_map_fit true)) as (A & _ & C).
  split.
  - apply A. vm_compute. repeat split; congruence.
  - apply C. apply (gap_not_covered (default_map true) 0x1000 0 (default_map_wf true)).
    + vm_compute. split; congruence.
    + vm_compute. discriminate.
    + right. vm_compute. reflexivity.
Defined.

Lemma GetCharFromIndex_loop_spec m :
  wf_ranges m -> codes_fit_int m ->
  forall n k idx,
    k + Z.of_nat n = mnRangeCount m -> 0 <= k -> 0 <= idx < 2 ^ 31 ->
    (idx < zsum (range_width m) k n ->
       exists j, k <= j < mnRangeCount m /\
         0 <= idx - zsum (range_width m) k (Z.to_nat (j - k)) < range_width m j /\
         GetCharFromIndex_loop n (codes m) (2 * k) idx =
           (codes m).[2 * j] + (idx - zsum (range_width m) k (Z.to_nat (j - k)))) /\
    (zsum (range_width m) k n <= idx ->
       GetCharFromIndex_loop n (codes m) (2 * k) idx = (codes m).[0]).
Proof.
  intros W (F0 & F1). induction n as [|n IH]; intros k idx Hn Hk Hidx.
  - cbn [zsum GetCharFromIndex_loop]. split; [lia | reflexivity].
  - cbn [zsum GetCharFromIndex_loop]. cbv zeta.
    pose proof (range_width_pos m k W ltac:(lia)) as Hw. unfold range_width in Hw.
    pose proof (codes_le m (2 * k + 1) (2 * mnRangeCount m - 1) W
                  ltac:(lia) ltac:(lia) ltac:(lia)) as Hle.
    pose proof (codes_le m 0 (2 * k) W ltac:(lia) ltac:(lia) ltac:(lia)) as H0.
    rewrite to_u32_id by lia. rewrite to_int_id by lia.
    destruct (idx - ((codes m).[2 * k + 1] - (codes m).[2 * k]) <? 0) eqn:E;
      [apply Z.ltb_lt in E | apply Z.ltb_ge in E].
    + split.
      * intros _. exists k. replace (Z.to_nat (k - k)) with O by lia. cbn [zsum].
        unfold range_width. split; [lia|]. split; [lia|].
        rewrite to_u32_id by lia. lia.
      * intros Hge.
        destruct (zsum_width_step m W n (k + 1) ltac:(lia) ltac:(lia)) as (P & _).
        change (range_width m k) with ((codes m).[2 * k + 1] - (codes m).[2 * k]) in Hge. lia.
    + replace (2 * k + 2) with (2 * (k + 1)) by lia.
      destruct (IH (k + 1) (idx - ((codes m).[2 * k + 1] - (codes m).[2 * k]))
                  ltac:(lia) ltac:(lia) ltac:(lia)) as (I1 & I2).
      split.
      * intros Hlt. change (range_width m k) with ((codes m).[2 * k + 1] - (codes m).[2 * k]) in Hlt.
        destruct (I1 ltac:(lia)) as (j & Hj & Hr & Hres).
        exists j. replace (Z.to_nat (j - k)) with (S (Z.to_nat (j - (k + 1)))) by lia.
        cbn [zsum]. change (range_width m k) with ((codes m).[2 * k + 1] - (codes m).[2 * k]).
        split; [lia|]. split; [lia|]. rewrite Hres. lia.
      * intros Hge. change (range_width m k) with ((codes m).[2 * k + 1] - (codes m).[2 * k]) in Hge. apply I2. lia.
Qed.

(** X9.  [GetCharFromIndex]: for an index from 0 up to the character count
    it returns a code point of the map, the one [GetIndexFromChar] maps
    back to the index; for an index from the character count on it returns
    the first character; for a negative index [i] it returns
    [GetFirstChar + i], a code point below the map. *)
Theorem GetCharFromIndex_inverse m i :
  wf_ranges m -> codes_fit_int m ->
  (0 <= i < total_count m ->
     covered m (GetCharFromIndex m i) /\
     GetIndexFromChar m (GetCharFromIndex m i) = i) /\
  (total_count m <= i < 2 ^ 31 -> GetCharFromIndex m i = GetFirstChar m) /\
  (- GetFirstChar m <= i < 0 ->
     GetCharFromIndex m i = GetFirstChar m + i /\ ~ covered m (GetCharFromIndex m i)).
Proof.
  intros W F. pose proof W as (HN & _). pose proof F as (F0 & F1).
  pose proof (total_count_bounds m W F) as TB.
  split; [|split].
  - intros Hi.
    destruct (GetCharFromIndex_loop_spec m W F (Z.to_nat (mnRangeCount m)) 0 i
                ltac:(lia) ltac:(lia) ltac:(lia)) as (S & _).
    replace (2 * 0) with 0 in S by lia. fold (GetCharFromIndex m i) in S.
    destruct (S ltac:(unfold total_count in Hi; lia)) as (j & Hj & Hr & Hres).
    replace (j - 0) with j in * by lia.
    assert (Hin : in_range m (GetCharFromIndex m i) j).
    { split; [lia|]. rewrite Hres.
      change (range_width m j) with ((codes m).[2 * j + 1] - (codes m).[2 * j]) in Hr. lia. }
    split; [exists j; exact Hin|].
    rewrite (GetIndexFromChar_formula m _ j W F Hin). rewrite Hres. lia.
  - intros Hi.
    destruct (GetCharFromIndex_loop_spec m W F (Z.to_nat (mnRangeCount m)) 0 i
                ltac:(lia) ltac:(lia) ltac:(lia)) as (_ & S).
    replace (2 * 0) with 0 in S by lia. apply S. unfold total_count in Hi. lia.
  - unfold GetFirstChar. intros Hi.
    assert (E : GetCharFromIndex m i = (codes m).[0] + i).
    { unfold GetCharFromIndex.
      replace (Z.to_nat (mnRangeCount m)) with (S (Z.to_nat (mnRangeCount m - 1))) by lia.
      cbn [GetCharFromIndex_loop]. cbv zeta. replace (0 + 1) with 1 by lia.
      pose proof (codes_lt m 0 1 W ltac:(lia) ltac:(lia) ltac:(lia)).
      pose proof (codes_le m 1 (2 * mnRangeCount m - 1) W ltac:(lia) ltac:(lia) ltac:(lia)).
      rewrite to_u32_id by lia. rewrite to_int_id by lia.
      replace (i - ((codes m).[1] - (codes m).[0]) <? 0) with true
        by (symmetry; apply Z.ltb_lt; lia).
      rewrite to_u32_id by lia. lia. }
    split; [exact E|]. rewrite E. apply below_first_not_covered; [exact W | lia].
Qed.

Lemma GetCharFromIndex_inverse_witness :
  (covered (default_map true) (GetCharFromIndex (default_map true) 300) /\
   GetIndexFromChar (default_map true) (GetCharFromIndex (default_map true) 300) = 300) /\
  GetCharFromIndex (default_map true) 448 = GetFirstChar (default_map true) /\
  (GetCharFromIndex (default_map true) (-1) = GetFirstChar (default_map true) + -1 /\
   ~ covered (default_map true) (GetCharFromIndex (default_map true) (-1))).
Proof.
  split; [|split].
  - apply (GetCharFromIndex_inverse (default_map true) 300
             (default_map_wf true) (default_map_fit true)).
    vm_compute. split; [discriminate | reflexivity].
  - apply (GetCharFromIndex_inverse (default_map true) 448
             (default_map_wf true) (default_map_fit true)).
    vm_compute. split; [discriminate | reflexivity].
  - apply (GetCharFromIndex_inverse (default_map true) (-1)
             (default_map_wf true) (default_map_fit true)).
    vm_compute. split; [discriminate | reflexivity].
Defined.

(** X10.  For a code point [c] of the map, the count of the characters from
    the first character up to [c] is the index of [c] plus one. *)
Theorem CountCharsInRange_GetIndexFromChar m c :
  wf_ranges m -> codes_fit_int m -> covered m c ->
  CountCharsInRange m (GetFirstChar m) c = GetIndexFromChar m c + 1.
Proof.
  intros W F (j & Hin). pose proof Hin as (Hj & Hc).
  pose proof W as (HN & _). pose proof F as (F0 & F1).
  pose proof (codes_le m 0 (2 * j) W ltac:(lia) ltac:(lia) ltac:(lia)) as H0.
  unfold GetFirstChar.
  rewrite (CountCharsInRange_sum m (codes m).[0] c W F ltac:(lia) ltac:(lia)).
  rewrite (GetIndexFromChar_formula m c j W F Hin).
  unfold covered_count.
  replace (Z.to_nat (mnRangeCount m))
    with (Z.to_nat j + (1 + Z.to_nat (mnRangeCount m - j - 1)))%nat by lia.
  rewrite !zsum_app.
  replace (0 + Z.of_nat (Z.to_nat j)) with j by lia.
  rewrite (zsum_zero _ (j + Z.of_nat 1)).
  2:{ intros k Hk. unfold covered_in.
      pose proof (codes_le m (2 * j + 1) (2 * k) W ltac:(lia) ltac:(lia) ltac:(lia)). lia. }
  rewrite (zsum_ext (covered_in m (codes m).[0] c) (range_width m) 0).
  2:{ intros k Hk. unfold covered_in, range_width.
      pose proof (codes_le m 0 (2 * k) W ltac:(lia) ltac:(lia) ltac:(lia)).
      pose proof (codes_lt m (2 * k) (2 * k + 1) W ltac:(lia) ltac:(lia) ltac:(lia)).
      pose proof (codes_le m (2 * k + 1) (2 * j) W ltac:(lia) ltac:(lia) ltac:(lia)). lia. }
  cbn [zsum]. unfold covered_in. lia.
Qed.

Lemma CountCharsInRange_GetIndexFromChar_witness :
  CountCharsInRange (default_map true) (GetFirstChar (default_map true)) 0xF021
  = GetIndexFromChar (default_map true) 0xF021 + 1.
Proof.
  apply (CountCharsInRange_GetIndexFromChar (default_map true) 0xF021
           (default_map_wf true) (default_map_fit true)).
  exists 1. vm_compute. repeat split; congruence.
Defined.

(** ** HasChar and GetGlyphIndex inside of the ranges *)

Lemma findRangeIndex_in_range m c j :
  wf_ranges m -> in_range m c j -> findRangeIndex m c = 2 * j.
Proof.
  intros W (Hj & Hin).
  pose proof (codes_le m 0 (2 * j) W ltac:(lia) ltac:(lia) ltac:(lia)) as H0.
  destruct (findRangeIndex_above m c W ltac:(lia)) as (Hr & Hrc & _ & Hgreat).
  specialize (Hgreat (2 * j) ltac:(lia) ltac:(lia)).
  destruct (Z.eq_dec (findRangeIndex m c) (2 * j)) as [|Hne]; [assumption|].
  pose proof (codes_le m (2 * j + 1) (findRangeIndex m c) W ltac:(lia) ltac:(lia) ltac:(lia)).
  lia.
Qed.

(** X11.  On a map without Glyph Origin data, [HasChar c] holds exactly
    for the code points of the ranges. *)
Theorem HasChar_without_glyphs m c :
  wf_ranges m -> mpStartGlyphs m = None ->
  (HasChar m c = true <-> covered m c).
Proof.
  intros W Hg. unfold HasChar. rewrite Hg. cbv zeta.
  destruct (Z_lt_le_dec c (codes m).[0]) as [Hlow | Hge].
  - rewrite (findRangeIndex_below m c W Hlow).
    replace (c <? (codes m).[0]) with true by (symmetry; apply Z.ltb_lt; lia).
    cbn [Z.eqb andb]. split; [discriminate|].
    intros Hc. exfalso. exact (below_first_not_covered m c W Hlow Hc).
  - replace (c <? (codes m).[0]) with false by (symmetry; apply Z.ltb_ge; lia).
    rewrite andb_false_r, land1_even. apply findRangeIndex_even; assumption.
Qed.

Lemma HasChar_without_glyphs_witness :
  (HasChar (default_map true) 0x41 = true <-> covered (default_map true) 0x41) /\
  (HasChar (default_map true) 0x1000 = true <-> covered (default_map true) 0x1000).
Proof.
  split.
  - exact (HasChar_without_glyphs (default_map true) 0x41 (default_map_wf true) eq_refl).
  - exact (HasChar_without_glyphs (default_map true) 0x1000 (default_map_wf true) eq_refl).
Defined.

(** X12.  On a map with Glyph Origin data, for a code point [c] of the
    range [j] that has a cell in the start-glyph array: with a direct
    origin [starts[j] >= 0] the glyph index is [starts[j] + (c - start_j)];
    with an indirect origin [starts[j] < 0], when
    [(c - start_j) - starts[j]] is the index of a cell of the glyph id
    table, it is that cell; and [HasChar c] holds exactly when that glyph
    index is not 0.  Nothing is said of a lookup that would leave the
    arrays. *)
Theorem GetGlyphIndex_in_range m starts c j :
  wf_ranges m -> codes_fit_int m ->
  mpStartGlyphs m = Some starts -> in_range m c j ->
  j < Z.of_nat (length starts) ->
  (0 <= starts.[j] -> starts.[j] + (c - (codes m).[2 * j]) < 2 ^ 31 ->
     GetGlyphIndex m c = starts.[j] + (c - (codes m).[2 * j]) /\
     HasChar m c = negb (starts.[j] + (c - (codes m).[2 * j]) =? 0)) /\
  (starts.[j] < 0 -> forall ids, mpGlyphIds m = Some ids ->
     0 <= (c - (codes m).[2 * j]) - starts.[j] < Z.of_nat (length ids) ->
     GetGlyphIndex m c = ids.[(c - (codes m).[2 * j]) - starts.[j]] /\
     HasChar m c = negb (ids.[(c - (codes m).[2 * j]) - starts.[j]] =? 0)).
Proof.
  intros W (F0 & F1) Hg Hin Hj'. pose proof Hin as (Hj & Hc).
  pose proof (codes_le m 0 (2 * j) W ltac:(lia) ltac:(lia) ltac:(lia)) as H0.
  pose proof (codes_le m (2 * j + 1) (2 * mnRangeCount m - 1) W
                ltac:(lia) ltac:(lia) ltac:(lia)) as H1.
  assert (E : GetGlyphIndex m c = glyph_in_range m starts c (2 * j)).
  { unfold GetGlyphIndex. rewrite Hg. cbv zeta.
    rewrite (findRangeIndex_in_range m c j W Hin).
    replace (c <? (codes m).[0]) with false by (symmetry; apply Z.ltb_ge; lia).
    rewrite andb_false_r. reflexivity. }
  assert (Hh : HasChar m c = negb (GetGlyphIndex m c =? 0)).
  { unfold HasChar. rewrite Hg. reflexivity. }
  assert (Q : 2 * j ÷ 2 = j) by (rewrite Z.mul_comm; apply Z.quot_mul; lia).
  split.
  - intros Hs Hfit.
    assert (G : GetGlyphIndex m c = starts.[j] + (c - (codes m).[2 * j])).
    { rewrite E. unfold glyph_in_range.
      rewrite land1_even, Z.even_mul. cbn [Z.even orb negb]. cbv zeta. rewrite Q.
      replace (starts.[j] >=? 0) with true by (symmetry; apply Z.geb_le; lia).
      rewrite to_u32_id by lia. rewrite (to_int_id (c - (codes m).[2 * j])) by lia.
      rewrite to_int_id by lia. lia. }
    split; [exact G | rewrite Hh, G; reflexivity].
  - intros Hs ids Hids Hidx.
    assert (G : GetGlyphIndex m c = ids.[(c - (codes m).[2 * j]) - starts.[j]]).
    { rewrite E. unfold glyph_in_range.
      rewrite land1_even, Z.even_mul. cbn [Z.even orb negb]. cbv zeta. rewrite Q.
      replace (starts.[j] >=? 0) with false
        by (symmetry; rewrite Z.geb_leb; apply Z.leb_gt; lia).
      rewrite to_u32_id by lia. rewrite (to_int_id (c - (codes m).[2 * j])) by lia.
      rewrite Hids. reflexivity. }
    split; [exact G | rewrite Hh, G; reflexivity].
Qed.

Lemma GetGlyphIndex_in_range_witness :
  (GetGlyphIndex (map_of table_pua) 0xF041
     = [1].[0] + (0xF041 - (codes (map_of table_pua)).[2 * 0]) /\
   HasChar (map_of table_pua) 0xF041
     = negb ([1].[0] + (0xF041 - (codes (map_of table_pua)).[2 * 0]) =? 0)) /\
  (GetGlyphIndex
     (mkImplFontCharMap (codes_new [0x41; 0x43]) (Some [-1]) (Some [0; 7; 9]) 1 2 false) 0x42
     = [0; 7; 9].[(0x42 - [0x41; 0x43].[2 * 0]) - [-1].[0]] /\
   HasChar
     (mkImplFontCharMap (codes_new [0x41; 0x43]) (Some [-1]) (Some [0; 7; 9]) 1 2 false) 0x42
     = negb ([0; 7; 9].[(0x42 - [0x41; 0x43].[2 * 0]) - [-1].[0]] =? 0)).
Proof.
  split.
  - refine (proj1 (GetGlyphIndex_in_range (map_of table_pua) [1] 0xF041 0
                     map_of_table_pua_wf _ eq_refl _ _) _ _).
    + split; vm_compute; congruence.
    + vm_compute. repeat split; congruence.
    + vm_compute. reflexivity.
    + vm_compute. discriminate.
    + vm_compute. reflexivity.
  - refine (proj2 (GetGlyphIndex_in_range
                     (mkImplFontCharMap (codes_new [0x41; 0x43]) (Some [-1]) (Some [0; 7; 9])
                        1 2 false)
                     [-1] 0x42 0 _ _ eq_refl _ _) _ [0; 7; 9] eq_refl _).
    + split; [vm_compute; discriminate | split; [reflexivity|] ].
      intros i H0 H1. change (Z.of_nat (length _)) with 2 in H1.
      assert (i = 0) as -> by lia. vm_compute. reflexivity.
    + split; vm_compute; congruence.
    + vm_compute. repeat split; congruence.
    + vm_compute. reflexivity.
    + vm_compute. reflexivity.
    + vm_compute. split; [discriminate | reflexivity].
Defined.

(** * Further properties of the parser *)

(** ** The choice of the subtable *)

Lemma platform_encoding_value k v e b :
  platform_encoding k = (v, e, b) -> v = 0 \/ 5 <= v <= 29.
Proof.
  unfold platform_encoding.
  repeat (match goal with |- (if ?c then _ else _) = _ -> _ => destruct c end;
          [intros H; inversion H; lia|]).
  intros H; inversion H; lia.
Qed.

Lemma platform_encoding_symbol k :
  snd (platform_encoding k) = (k =? 0x300).
Proof.
  destruct (k =? 0x300) eqn:E.
  - apply Z.eqb_eq in E. subst k. reflexivity.
  - unfold platform_encoding.
    repeat (match goal with |- snd (if ?c then _ else _) = _ =>
              destruct c eqn:?; [try reflexivity; congruence|] end).
    reflexivity.
Qed.

Lemma take_best_selected buf nLength st nValue nTmpOffset nTmpFormat e :
  selected_subtable buf nLength st ->
  (nTmpFormat = 4 \/ nTmpFormat = 12) -> 5 <= nValue <= 32 ->
  0 <= nTmpOffset <= nLength - 2 ->
  GetUShort buf nTmpOffset = Some nTmpFormat ->
  selected_subtable buf nLength (take_best st nValue nTmpOffset nTmpFormat e) /\
  nBestVal st <= nBestVal (take_best st nValue nTmpOffset nTmpFormat e).
Proof.
  intros Hst Hf Hv Ho Hr. unfold take_best.
  destruct (nBestVal st <? nValue) eqn:E; [apply Z.ltb_lt in E | split; [exact Hst | lia] ].
  split; [|simpl; lia]. right. simpl. auto.
Qed.

Lemma set_symbolic_selected buf nLength b st :
  selected_subtable buf nLength st ->
  selected_subtable buf nLength (set_symbolic b st) /\
  nBestVal (set_symbolic b st) = nBestVal st.
Proof. destruct b; simpl; auto. Qed.

Lemma select_step_selected buf nLength p st st' :
  selected_subtable buf nLength st ->
  select_step buf nLength p st = Some st' ->
  selected_subtable buf nLength st' /\ nBestVal st <= nBestVal st'.
Proof.
  intros Hst. unfold select_step.
  destruct (GetUShort buf p) as [nPlatform|]; [|discriminate].
  destruct (GetUShort buf (p + 2)) as [nEncoding|]; [|discriminate].
  destruct (platform_encoding (Z.shiftl nPlatform 8 + nEncoding)) as [[nValue e] bSym] eqn:Ep.
  pose proof (platform_encoding_value _ _ _ _ Ep) as Hv.
  destruct (set_symbolic_selected buf nLength bSym st Hst) as (Hs & Hb).
  assert (Keep : forall s, Some (set_symbolic bSym st) = Some s ->
            selected_subtable buf nLength s /\ nBestVal st <= nBestVal s).
  { intros s E. inversion E; subst. split; [exact Hs | lia]. }
  destruct (nValue <=? 0) eqn:E0; [apply Keep | apply Z.leb_gt in E0].
  destruct (GetUInt buf (p + 4)) as [u|]; [|discriminate].
  destruct ((to_int u >? nLength - 2) || (to_int u <? 0)) eqn:Eo; [apply Keep|].
  apply orb_false_iff in Eo. rewrite Z.gtb_ltb, !Z.ltb_ge in Eo.
  destruct (GetUShort buf (to_int u)) as [nTmpFormat|] eqn:Er; [|discriminate].
  destruct (nTmpFormat =? 12) eqn:E12.
  - apply Z.eqb_eq in E12. subst nTmpFormat. intros E. inversion E; subst.
    destruct (take_best_selected buf nLength (set_symbolic bSym st) (nValue + 3) (to_int u) 12 e)
      as (T1 & T2); [exact Hs | auto | lia | lia | exact Er | split; [exact T1 | lia] ].
  - destruct (nTmpFormat =? 4) eqn:E4; cbn [negb]; [|apply Keep].
    apply Z.eqb_eq in E4. subst nTmpFormat. intros E. inversion E; subst.
    destruct (take_best_selected buf nLength (set_symbolic bSym st) nValue (to_int u) 4 e)
      as (T1 & T2); [exact Hs | auto | lia | lia | exact Er | split; [exact T1 | lia] ].
Qed.

(** X13.  The search for the best subtable keeps its selection well
    formed: it ends with nothing selected (format -1, value 0), or with a
    subtable of format 4 or 12 at an offset inside of the buffer where that
    format is stored, and a value from 5 to 32; the value never goes down. *)
Theorem select_loop_selected buf nLength :
  forall n p st st',
    selected_subtable buf nLength st ->
    select_loop buf nLength n p st = Some st' ->
    selected_subtable buf nLength st' /\ nBestVal st <= nBestVal st'.
Proof.
  induction n as [|n IH]; intros p st st' Hst H; cbn [select_loop] in H.
  - inversion H; subst. split; [exact Hst | lia].
  - destruct (select_step buf nLength p st) as [st1|] eqn:E; [|discriminate].
    destruct (select_step_selected _ _ _ _ _ Hst E) as (H1 & L1).
    destruct (IH _ _ _ H1 H) as (H2 & L2). split; [exact H2 | lia].
Qed.

Lemma select_loop_selected_witness :
  selected_subtable table_A 44 (mkSelection RTL_TEXTENCODING_UNICODE 12 4 28 false) /\
  nBestVal Selection0 <= nBestVal (mkSelection RTL_TEXTENCODING_UNICODE 12 4 28 false).
Proof.
  apply (select_loop_selected table_A 44 1 4 Selection0).
  - left. repeat split.
  - vm_compute. reflexivity.
Defined.

Lemma select_step_symbolic buf nLength p st st' :
  select_step buf nLength p st = Some st' ->
  exists key, record_key buf p = Some key /\
    mbSymbolic st' = mbSymbolic st || (key =? 0x300).
Proof.
  unfold select_step, record_key.
  destruct (GetUShort buf p) as [nPlatform|]; [|discriminate].
  destruct (GetUShort buf (p + 2)) as [nEncoding|]; [|discriminate].
  pose proof (platform_encoding_symbol (Z.shiftl nPlatform 8 + nEncoding)) as Hs.
  destruct (platform_encoding (Z.shiftl nPlatform 8 + nEncoding)) as [[nValue e] bSym].
  cbn [snd] in Hs. intros H. eexists. split; [reflexivity|]. rewrite <- Hs.
  assert (B : mbSymbolic (set_symbolic bSym st) = mbSymbolic st || bSym).
  { destruct bSym; simpl; [rewrite orb_true_r | rewrite orb_false_r]; reflexivity. }
  assert (T : forall v o f, mbSymbolic (take_best (set_symbolic bSym st) v o f e)
                            = mbSymbolic st || bSym).
  { intros v o f. unfold take_best. destruct (_ <? _); [simpl|]; exact B. }
  destruct (nValue <=? 0); [inversion H; subst; exact B|].
  destruct (GetUInt buf (p + 4)) as [u|]; [|discriminate].
  destruct ((to_int u >? nLength - 2) || (to_int u <? 0)); [inversion H; subst; exact B|].
  destruct (GetUShort buf (to_int u)) as [nTmpFormat|]; [|discriminate].
  destruct (nTmpFormat =? 12); [inversion H; subst; apply T|].
  destruct (negb (nTmpFormat =? 4)); inversion H; subst; [exact B | apply T].
Qed.

Lemma record_key_symbol buf q :
  record_key buf q = Some 0x300 <->
  exists nPlatform nEncoding,
    GetUShort buf q = Some nPlatform /\ GetUShort buf (q + 2) = Some nEncoding /\
    ((nPlatform = 3 /\ nEncoding = 0) \/ (nPlatform = 2 /\ nEncoding = 0x100) \/
     (nPlatform = 1 /\ nEncoding = 0x200) \/ (nPlatform = 0 /\ nEncoding = 0x300)).
Proof.
  unfold record_key. split.
  - destruct (GetUShort buf q) as [pl|] eqn:R1; [|discriminate].
    destruct (GetUShort buf (q + 2)) as [en|] eqn:R2; [|discriminate].
    pose proof (GetUShort_bounds _ _ _ R1) as B1. pose proof (GetUShort_bounds _ _ _ R2) as B2.
    intros H. assert (Hk : Z.shiftl pl 8 + en = 0x300) by congruence.
    rewrite Z.shiftl_mul_pow2 in Hk by lia. change (2 ^ 8) with 256 in Hk.
    exists pl, en. split; [reflexivity|]. split; [reflexivity|]. lia.
  - intros (pl & en & -> & -> & Hc).
    destruct Hc as [(-> & ->) | [(-> & ->) | [(-> & ->) | (-> & ->)]]]; reflexivity.
Qed.

(** X14.  After the search the symbolic flag is set exactly when it was set
    before or one of the subtable records read has the key [0x300], where
    the key of a record is its platform times 256 plus its encoding; this
    is so whether or not that record's subtable is eligible or selected.
    The key [0x300] is that of platform 3 with encoding 0, and also that of
    platform 2 with encoding [0x100], of platform 1 with encoding [0x200]
    and of platform 0 with encoding [0x300]. *)
Theorem select_loop_symbolic buf nLength :
  forall n p st st',
    select_loop buf nLength n p st = Some st' ->
    (mbSymbolic st' = true <->
     mbSymbolic st = true \/
     exists i, 0 <= i < Z.of_nat n /\ record_key buf (p + 8 * i) = Some 0x300) /\
    (forall q,
       record_key buf q = Some 0x300 <->
       exists nPlatform nEncoding,
         GetUShort buf q = Some nPlatform /\ GetUShort buf (q + 2) = Some nEncoding /\
         ((nPlatform = 3 /\ nEncoding = 0) \/ (nPlatform = 2 /\ nEncoding = 0x100) \/
          (nPlatform = 1 /\ nEncoding = 0x200) \/ (nPlatform = 0 /\ nEncoding = 0x300))).
Proof.
  intros n p st st' H. split; [|intros q; apply record_key_symbol].
  revert p st st' H.
  induction n as [|n IH]; intros p st st' H; cbn [select_loop] in H.
  - inversion H; subst. split; [auto|]. intros [E | (i & Hi & _)]; [exact E | lia].
  - destruct (select_step buf nLength p st) as [st1|] eqn:E; [|discriminate].
    destruct (select_step_symbolic _ _ _ _ _ E) as (key & Hk & Hs).
    rewrite (IH _ _ _ H). rewrite Hs, orb_true_iff, Z.eqb_eq. split.
    + intros [[E1 | E2] | (i & Hi & Hr)].
      * left. exact E1.
      * right. exists 0. split; [lia|]. replace (p + 8 * 0) with p by lia. congruence.
      * right. exists (i + 1). split; [lia|].
        replace (p + 8 * (i + 1)) with (p + 8 + 8 * i) by lia. exact Hr.
    + intros [E1 | (i & Hi & Hr)]; [left; left; exact E1|].
      destruct (Z.eq_dec i 0) as [->|Hne].
      * left. right. replace (p + 8 * 0) with p in Hr by lia. congruence.
      * right. exists (i - 1). split; [lia|].
        replace (p + 8 + 8 * (i - 1)) with (p + 8 * i) by lia. exact Hr.
Qed.

Lemma select_loop_symbolic_witness :
  (mbSymbolic (mkSelection RTL_TEXTENCODING_UNICODE 12 4 5 true) = true <->
   mbSymbolic Selection0 = true \/
   exists i, 0 <= i < Z.of_nat 1 /\ record_key table_symbol (4 + 8 * i) = Some 0x300) /\
  (forall q,
     record_key table_symbol q = Some 0x300 <->
     exists nPlatform nEncoding,
       GetUShort table_symbol q = Some nPlatform /\
       GetUShort table_symbol (q + 2) = Some nEncoding /\
       ((nPlatform = 3 /\ nEncoding = 0) \/ (nPlatform = 2 /\ nEncoding = 0x100) \/
        (nPlatform = 1 /\ nEncoding = 0x200) \/ (nPlatform = 0 /\ nEncoding = 0x300))).
Proof.
  apply (select_loop_symbolic table_symbol 36 1 4 Selection0).
  vm_compute. reflexivity.
Defined.

(** ** The ranges of the recoded code points *)

Lemma covered_by_snoc2 v a b x :
  (exists n, length v = (2 * n)%nat) ->
  (covered_by (v ++ [a; b]) x <-> covered_by v x \/ a <= x < b).
Proof.
  intros (n & Hn). unfold covered_by. rewrite length_app. cbn [length]. split.
  - intros (k & Hk & Hlt & Hx).
    destruct (Z_lt_le_dec (2 * k + 1) (Z.of_nat (length v))) as [L | G].
    + left. exists k. rewrite !cell_app_l in Hx by lia. auto.
    + right. assert (2 * k = Z.of_nat (length v)) by lia.
      rewrite !cell_app_r in Hx by lia.
      replace (2 * k - Z.of_nat (length v)) with 0 in Hx by lia.
      replace (2 * k + 1 - Z.of_nat (length v)) with 1 in Hx by lia. exact Hx.
  - intros [(k & Hk & Hlt & Hx) | Hx].
    + exists k. rewrite !cell_app_l by lia. split; [lia|]. split; [lia | exact Hx].
    + exists (Z.of_nat n). split; [lia|]. split; [lia|].
      rewrite !cell_app_r by lia.
      replace (2 * Z.of_nat n - Z.of_nat (length v)) with 0 by lia.
      replace (2 * Z.of_nat n + 1 - Z.of_nat (length v)) with 1 by lia. exact Hx.
Qed.

Lemma even_list_last2 (v : list Z) n :
  v <> [] -> length v = (2 * n)%nat ->
  exists v' s, v = v' ++ [s; last v 0] /\ removelast v = v' ++ [s] /\
               length v' = (2 * (n - 1))%nat.
Proof.
  intros Hne Hn.
  pose proof (app_removelast_last 0 Hne) as E1.
  assert (Hl1 : length v = S (length (removelast v))).
  { rewrite E1 at 1. rewrite length_app. simpl. lia. }
  assert (Hne2 : removelast v <> []) by (destruct (removelast v); [simpl in Hl1; lia | discriminate]).
  pose proof (app_removelast_last 0 Hne2) as E2.
  assert (Hl2 : length (removelast v) = S (length (removelast (removelast v)))).
  { rewrite E2 at 1. rewrite length_app. simpl. lia. }
  exists (removelast (removelast v)), (last (removelast v) 0).
  split; [|split; [exact E2 | lia] ].
  rewrite E1 at 1. rewrite E2 at 1. rewrite <- app_assoc. reflexivity.
Qed.

Lemma supported_ranges_covers :
  forall points v,
    sorted_units points ->
    strictly_increasing v -> (exists n, length v = (2 * n)%nat) ->
    (v <> [] -> Forall (fun x => back v <= x) points) ->
    forall x, covered_by (supported_ranges points v) x <-> covered_by v x \/ In x points.
Proof.
  induction points as [|pt rest IH]; intros v (Hs & Hb) Hv (n & Hn) Hback x;
    cbn [supported_ranges].
  { simpl. tauto. }
  apply StronglySorted_inv in Hs. destruct Hs as (Hs & Hlt).
  inversion Hb as [|? ? Hpt Hb']; subst.
  rewrite (to_u32_id (pt + 1)) by lia.
  assert (Hrest : forall w, last w 0 = pt + 1 -> w <> [] -> Forall (fun y => back w <= y) rest).
  { intros w Hw _. unfold back. rewrite Hw.
    eapply Forall_impl; [|exact Hlt]. intros z Hz. simpl in Hz. lia. }
  assert (Hnew : forall w, strictly_increasing w -> (exists n, length w = (2 * n)%nat) ->
             (w <> [] -> last w 0 < pt) ->
             covered_by (supported_ranges rest (w ++ [pt; pt + 1])) x <->
             covered_by w x \/ In x (pt :: rest)).
  { intros w Hw (nw & Hnw) Hlast.
    rewrite IH.
    - rewrite covered_by_snoc2 by eauto. simpl. intuition lia.
    - split; assumption.
    - replace (w ++ [pt; pt + 1]) with ((w ++ [pt]) ++ [pt + 1])
        by (rewrite <- app_assoc; reflexivity).
      apply strictly_increasing_snoc.
      + apply strictly_increasing_snoc; assumption.
      + intros _. rewrite last_last. lia.
    - exists (S nw). rewrite length_app. simpl length. lia.
    - apply Hrest. replace (w ++ [pt; pt + 1]) with ((w ++ [pt]) ++ [pt + 1])
        by (rewrite <- app_assoc; reflexivity). apply last_last. }
  assert (Hcase : v = [] \/ v <> [])
    by (destruct v; [left; reflexivity | right; discriminate]).
  destruct Hcase as [-> | Hne].
  - cbn [orb app]. unfold set_back. cbn [removelast app].
    apply (Hnew []); [exact Hv | exists O; reflexivity | congruence].
  - replace (match v with [] => true | _ :: _ => false end) with false
      by (destruct v; [congruence | reflexivity]).
    cbn [orb].
    specialize (Hback Hne). inversion Hback as [|? ? Hle _]; subst.
    destruct (back v =? pt) eqn:E; [apply Z.eqb_eq in E | apply Z.eqb_neq in E]; cbn [negb].
    + (* the last range grows *)
      destruct (even_list_last2 v n Hne Hn) as (v' & s & Ev & Er & Hl).
      fold (back v) in Ev. rewrite E in Ev.
      unfold set_back. rewrite Er. rewrite <- app_assoc. cbn [app].
      assert (Hsp : s < pt).
      { rewrite Ev in Hv.
        specialize (Hv (Z.of_nat (length v')) ltac:(lia)).
        rewrite length_app in Hv. simpl length in Hv. specialize (Hv ltac:(lia)).
        rewrite !cell_app_r in Hv by lia.
        replace (Z.of_nat (length v') - Z.of_nat (length v')) with 0 in Hv by lia.
        replace (Z.of_nat (length v') + 1 - Z.of_nat (length v')) with 1 in Hv by lia.
        exact Hv. }
      assert (Hv' : strictly_increasing (v' ++ [s])).
      { rewrite Ev in Hv. replace (v' ++ [s; pt]) with ((v' ++ [s]) ++ [pt]) in Hv
          by (rewrite <- app_assoc; reflexivity).
        exact (strictly_increasing_prefix _ _ Hv). }
      rewrite IH.
      * rewrite covered_by_snoc2 by eauto.
        rewrite Ev at 1. rewrite covered_by_snoc2 by eauto. simpl. intuition lia.
      * split; assumption.
      * replace (v' ++ [s; pt + 1]) with ((v' ++ [s]) ++ [pt + 1])
          by (rewrite <- app_assoc; reflexivity).
        apply strictly_increasing_snoc; [exact Hv'|].
        intros _. rewrite last_last. lia.
      * exists n. rewrite length_app. simpl length.
        assert (n <> O) by (destruct v; [congruence | simpl in Hn; lia]). lia.
      * apply Hrest. replace (v' ++ [s; pt + 1]) with ((v' ++ [s]) ++ [pt + 1])
          by (rewrite <- app_assoc; reflexivity). apply last_last.
    + (* a new range *)
      unfold set_back. rewrite removelast_app by discriminate. cbn [removelast].
      rewrite <- app_assoc. cbn [app].
      apply (Hnew v); [exact Hv | eauto |]. intros _. unfold back in *. lia.
Qed.

Lemma supported_ranges_points points x :
  sorted_units points ->
  (covered_by (supported_ranges points []) x <-> In x points).
Proof.
  intros Hp.
  rewrite (supported_ranges_covers points [] Hp).
  - split; [|auto]. intros [(k & Hk & Hlt & _) | H]; [cbn [length] in Hlt; lia | exact H].
  - intros i Hi Hlt. cbn [length] in Hlt. lia.
  - exists O. reflexivity.
  - congruence.
Qed.

(** X15.  The recoding of a subtable of another encoding than Unicode,
    with a converter at hand: the parse fails exactly when no code point
    was converted; otherwise the range array of the result covers exactly
    the converted code points: a code point lies in one of the ranges if
    and only if it is in the ascending set the conversion collected. *)
Theorem recoded_ranges_exact cv sel dec h b r :
  0 < nRangeCount dec ->
  is_unicode (eRecodeFrom sel) = false ->
  rtl_createTextToUnicodeConverter cv (eRecodeFrom sel) = Some h ->
  finish cv sel dec = (b, r) ->
  let points :=
    recode_loop cv (Z.to_nat (nRangeCount dec)) h (array_of (pCodePairs dec)) 0 [] in
  (b = false <-> points = []) /\
  (b = true -> forall x, covered_by (deref (cr_mpRangeCodes r)) x <-> In x points).
Proof.
  intros Hn Hu Hc H points. unfold finish in H.
  destruct (nRangeCount dec <=? 0) eqn:E0; [apply Z.leb_le in E0; lia|].
  cbv zeta in H. rewrite Hu in H. cbn [negb] in H. rewrite Hc in H.
  fold points in H.
  assert (Hp : sorted_units points).
  { apply recode_loop_units. split; constructor. }
  pose proof (supported_ranges_points points) as Hex.
  destruct (Z.of_nat (length (supported_ranges points [])) ÷ 2 <=? 0) eqn:E1.
  - apply Z.leb_le in E1. inversion H; subst b r. split; [|discriminate].
    split; [|reflexivity]. intros _.
    destruct points as [|pt rest] eqn:Ep; [reflexivity|]. exfalso.
    destruct (proj2 (Hex pt Hp) (or_introl eq_refl)) as (k & Hk & Hlt & _).
    pose proof (quot2_bounds (Z.of_nat (length (supported_ranges (pt :: rest) []))) ltac:(lia)).
    lia.
  - apply Z.leb_gt in E1. inversion H; subst b r. split.
    + split; [discriminate|]. intros Ep. exfalso. rewrite Ep in E1. cbn in E1. lia.
    + intros _ x. cbn [cr_mpRangeCodes deref]. apply Hex. exact Hp.
Qed.

Lemma recoded_ranges_exact_witness :
  let points := recode_loop bytewise (Z.to_nat 1) tt [65; 68] 0 [] in
  (true = false <-> points = []) /\
  (true = true ->
   forall x, covered_by [65; 68] x <-> In x points).
Proof.
  apply (recoded_ranges_exact bytewise
           (mkSelection RTL_TEXTENCODING_SHIFT_JIS 12 4 11 false)
           (mkDecoded 1 (Some [65; 68]) (Some [65]) [0]) tt true
           (mkCmapResult (codes_new [65; 68]) None None 1 false true)).
  - reflexivity.
  - reflexivity.
  - reflexivity.
  - vm_compute. reflexivity.
Defined.

(** ** The Glyph Origins of a format 4 subtable *)

Lemma glyph_id_loop_app buf nGlyphDelta :
  forall n p ids ids',
    glyph_id_loop buf n p nGlyphDelta ids = Some ids' ->
    exists more, ids' = ids ++ more /\ length more = n.
Proof.
  induction n as [|n IH]; intros p ids ids' H; cbn [glyph_id_loop] in H.
  - inversion H; subst. exists []. rewrite app_nil_r. auto.
  - destruct (GetUShort buf p) as [v|]; [|discriminate].
    destruct (IH _ _ _ H) as (more & -> & Hl).
    exists (to_u16 (v + nGlyphDelta) :: more). rewrite <- app_assoc. simpl. auto.
Qed.

Lemma cell_snoc (l : list Z) x : (l ++ [x]).[Z.of_nat (length l)] = x.
Proof.
  rewrite cell_app_r by lia. replace (Z.of_nat (length l) - Z.of_nat (length l)) with 0 by lia.
  reflexivity.
Qed.

Lemma origins_in_table_stop pairs starts g nIds :
  origins_in_table pairs starts nIds -> origins_in_table pairs (starts ++ [g]) nIds.
Proof.
  intros H k Hk Hlt. destruct (H k Hk Hlt) as (Hs & Ho).
  rewrite length_app. simpl length. rewrite cell_app_l by lia. split; [lia | exact Ho].
Qed.

Lemma origins_in_table_accept pairs starts nIds a b g nIds' :
  2 * Z.of_nat (length starts) = Z.of_nat (length pairs) ->
  origins_in_table pairs starts nIds -> nIds <= nIds' ->
  (0 <= g <= 0xFFFF \/ (1 <= - g /\ - g + (b - a) <= nIds')) ->
  origins_in_table (pairs ++ [a; b]) (starts ++ [g]) nIds'.
Proof.
  intros Hal H Hle Hg k Hk Hlt. rewrite !length_app in *. simpl length in *.
  destruct (Z_lt_le_dec (2 * k + 1) (Z.of_nat (length pairs))) as [L | G].
  - destruct (H k Hk L) as (Hs & Ho). rewrite !cell_app_l by lia.
    split; [lia|]. destruct Ho as [Ho | Ho]; [left; exact Ho | right; lia].
  - assert (k = Z.of_nat (length starts)) by lia. subst k. split; [lia|].
    rewrite cell_snoc. rewrite !cell_app_r by lia.
    replace (2 * Z.of_nat (length starts) - Z.of_nat (length pairs)) with 0 by lia.
    replace (2 * Z.of_nat (length starts) + 1 - Z.of_nat (length pairs)) with 1 by lia.
    exact Hg.
Qed.

Lemma land_FFFF_bounds x : 0 <= Z.land x 0xFFFF <= 0xFFFF.
Proof.
  change 0xFFFF with (Z.ones 16). rewrite Z.land_ones by lia.
  pose proof (Z.mod_pos_bound x (2 ^ 16) ltac:(lia)). change (Z.ones 16) with (2 ^ 16 - 1). lia.
Qed.

Lemma format4_loop_origins buf nLength pLimitBase pBeginBase pDeltaBase pOffsetBase :
  forall n i st st',
    format4_loop buf nLength pLimitBase pBeginBase pDeltaBase pOffsetBase n i st = Some st' ->
    0 <= i -> i + Z.of_nat n <= 32767 ->
    2 * Z.of_nat (length (seg_pStartGlyphs st)) = Z.of_nat (length (seg_pCP st)) ->
    1 <= Z.of_nat (length (seg_aGlyphIdArray st)) <= 1 + 65535 * i ->
    origins_in_table (seg_pCP st) (seg_pStartGlyphs st)
      (Z.of_nat (length (seg_aGlyphIdArray st))) ->
    Forall (fun v => 0 <= v <= 0xFFFF) (seg_pCP st) ->
    origins_in_table (seg_pCP st') (seg_pStartGlyphs st')
      (Z.of_nat (length (seg_aGlyphIdArray st'))) /\
    Forall (fun v => 0 <= v <= 0xFFFF) (seg_pCP st') /\
    exists more, seg_aGlyphIdArray st' = seg_aGlyphIdArray st ++ more.
Proof.
  induction n as [|n IH]; intros i st st' H Hi Hn Hal Hids Ho Hb; cbn [format4_loop] in H.
  - inversion H; subst. split; [exact Ho|]. split; [exact Hb|]. exists []. rewrite app_nil_r. reflexivity.
  - assert (Hstop : forall s, seg_pCP s = seg_pCP st ->
              seg_aGlyphIdArray s = seg_aGlyphIdArray st ->
              origins_in_table (seg_pCP st) (seg_pStartGlyphs s)
                (Z.of_nat (length (seg_aGlyphIdArray st))) ->
              Some s = Some st' ->
              origins_in_table (seg_pCP st') (seg_pStartGlyphs st')
                (Z.of_nat (length (seg_aGlyphIdArray st'))) /\
              Forall (fun v => 0 <= v <= 0xFFFF) (seg_pCP st') /\
              exists more, seg_aGlyphIdArray st' = seg_aGlyphIdArray st ++ more).
    { intros s E1 E2 E3 E. inversion E; subst s. rewrite E1, E2.
      split; [exact E3|]. split; [exact Hb|]. exists []. rewrite app_nil_r. reflexivity. }
    destruct (GetUShort buf (pBeginBase + 2 * i)) as [cMinChar|] eqn:R1; [|discriminate].
    destruct (GetUShort buf (pLimitBase + 2 * i)) as [cMaxChar|] eqn:R2; [|discriminate].
    destruct (GetSShort buf (pDeltaBase + 2 * i)) as [nGlyphDelta|]; [|discriminate].
    destruct (GetUShort buf (pOffsetBase + 2 * i)) as [nRangeOffset|]; [|discriminate].
    apply GetUShort_bounds in R1, R2.
    destruct (cMinChar >? cMaxChar) eqn:E1; [apply (Hstop st); auto|].
    destruct (cMaxChar =? 0xFFFF) eqn:E2; [apply (Hstop st); auto|].
    rewrite Z.gtb_ltb in E1. apply Z.ltb_ge in E1. apply Z.eqb_neq in E2.
    assert (Hend : to_u32 (cMaxChar + 1) = cMaxChar + 1) by (apply to_u32_id; lia).
    assert (Hacc : forall starts ids more,
              ids = seg_aGlyphIdArray st ++ more ->
              Z.of_nat (length ids) <= 1 + 65535 * (i + 1) ->
              origins_in_table (seg_pCP st ++ [cMinChar; to_u32 (cMaxChar + 1)]) starts
                (Z.of_nat (length ids)) ->
              2 * Z.of_nat (length starts)
                = Z.of_nat (length (seg_pCP st ++ [cMinChar; to_u32 (cMaxChar + 1)])) ->
              format4_loop buf nLength pLimitBase pBeginBase pDeltaBase pOffsetBase n (i + 1)
                (mkSegState (seg_pCP st ++ [cMinChar; to_u32 (cMaxChar + 1)]) starts ids)
              = Some st' ->
              origins_in_table (seg_pCP st') (seg_pStartGlyphs st')
                (Z.of_nat (length (seg_aGlyphIdArray st'))) /\
              Forall (fun v => 0 <= v <= 0xFFFF) (seg_pCP st') /\
              exists more, seg_aGlyphIdArray st' = seg_aGlyphIdArray st ++ more).
    { intros starts ids more Eids Hlen Hor Hal' E.
      destruct (IH _ _ _ E) as (I1 & I2 & more' & I3); cbn [seg_pCP seg_pStartGlyphs seg_aGlyphIdArray];
        [lia | lia | exact Hal' | | exact Hor | |].
      - rewrite Eids, length_app. rewrite Eids, length_app in Hlen. lia.
      - apply Forall_app. split; [exact Hb|]. rewrite Hend. repeat constructor; lia.
      - split; [exact I1|]. split; [exact I2|].
        cbn [seg_aGlyphIdArray] in I3. rewrite I3, Eids, <- app_assoc. eauto. }
    cbv zeta in H. cbn [seg_pCP seg_pStartGlyphs seg_aGlyphIdArray] in H.
    destruct (nRangeOffset =? 0).
    + apply (Hacc _ _ [] ltac:(rewrite app_nil_r; reflexivity)) in H; [exact H | lia | |].
      * apply (origins_in_table_accept _ _ (Z.of_nat (length (seg_aGlyphIdArray st)))); [exact Hal | exact Ho | lia |].
        left. apply land_FFFF_bounds.
      * rewrite !length_app. simpl length. lia.
    + match type of H with context [if ?b then Some ?s else _] =>
        destruct b; [apply (Hstop s); auto; apply origins_in_table_stop; exact Ho|] end.
      match type of H with context [if ?b then Some ?s else _] =>
        destruct b; [apply (Hstop s); auto; apply origins_in_table_stop; exact Ho|] end.
      match type of H with context [glyph_id_loop ?a ?b ?c ?d ?e] =>
        destruct (glyph_id_loop a b c d e) as [ids|] eqn:G; [|discriminate] end.
      destruct (glyph_id_loop_app _ _ _ _ _ _ G) as (more & Eids & Hmore).
      assert (Hl : Z.of_nat (length ids)
                   = Z.of_nat (length (seg_aGlyphIdArray st)) + (cMaxChar - cMinChar + 1)).
      { rewrite Eids, length_app, Hmore. lia. }
      apply (Hacc _ _ more Eids) in H; [exact H | lia | |].
      * apply (origins_in_table_accept _ _ (Z.of_nat (length (seg_aGlyphIdArray st)))); [exact Hal | exact Ho | lia |].
        right. rewrite (to_int_id (Z.of_nat (length (seg_aGlyphIdArray st)))) by lia.
        rewrite Hend. lia.
      * rewrite !length_app. simpl length. lia.
Qed.

Lemma decode_format4_table buf nLength nOffset dec :
  decode_format4 buf nLength nOffset = Some dec ->
  exists pairs starts more,
    pCodePairs dec = Some pairs /\ pStartGlyphs dec = Some starts /\
    aGlyphIdArray dec = 0 :: more /\
    Z.of_nat (length pairs) = 2 * nRangeCount dec /\
    Forall (fun v => 0 <= v <= 0xFFFF) pairs /\
    origins_in_table pairs starts (Z.of_nat (length (aGlyphIdArray dec))).
Proof.
  unfold decode_format4. intros H.
  destruct (GetUShort buf (nOffset + 6)) as [x2|] eqn:R; [|discriminate].
  pose proof (GetUShort_bounds _ _ _ R) as Bx.
  pose proof (format4_count_le nLength nOffset x2 ltac:(lia)) as C.
  pose proof (quot2_bounds x2 ltac:(lia)) as Q.
  cbv zeta in H.
  match type of H with context [format4_loop ?a ?b ?c ?d ?e ?f ?g ?h ?i] =>
    destruct (format4_loop a b c d e f g h i) as [st|] eqn:L; [|discriminate] end.
  destruct (format4_loop_pairs _ _ _ _ _ _ _ _ _ _ L) as (mp & M1 & M2 & _).
  apply format4_loop_origins in L; cbn [seg_pCP seg_pStartGlyphs seg_aGlyphIdArray length];
    [ | lia | lia | reflexivity | lia | intros k Hk Hlt; cbn [length] in Hlt; lia | constructor ].
  destruct L as (O1 & O2 & more & O3).
  inversion H; subst dec. cbn [pCodePairs pStartGlyphs aGlyphIdArray nRangeCount].
  exists (seg_pCP st), (seg_pStartGlyphs st), more.
  split; [reflexivity|]. split; [reflexivity|]. split; [rewrite O3; reflexivity|].
  split; [|split; [exact O2 | exact O1]].
  simpl in M1. rewrite M1 in *. pose proof (code_pairs_even _ _ M2) as Ev.
  exact Ev.
Qed.

(** X16.  A decoded format 4 subtable has a Glyph Origin for every range.
    The boundaries are 16-bit values; a direct origin is a 16-bit value; an
    indirect origin addresses, for every code point of its range, a cell of
    the glyph id table behind the cell 0, which holds 0. *)
Theorem decode_format4_origins buf nLength nOffset dec :
  decode_format4 buf nLength nOffset = Some dec ->
  exists pairs starts,
    pCodePairs dec = Some pairs /\ pStartGlyphs dec = Some starts /\
    Forall (fun v => 0 <= v <= 0xFFFF) pairs /\
    (aGlyphIdArray dec).[0] = 0 /\
    forall k, 0 <= k < nRangeCount dec ->
      k < Z.of_nat (length starts) /\
      (0 <= starts.[k] <= 0xFFFF \/
       forall c, pairs.[2 * k] <= c < pairs.[2 * k + 1] ->
         1 <= (c - pairs.[2 * k]) - starts.[k] < Z.of_nat (length (aGlyphIdArray dec))).
Proof.
  intros H.
  destruct (decode_format4_table _ _ _ _ H) as (pairs & starts & more & T1 & T2 & T3 & T4 & T5 & T6).
  exists pairs, starts. split; [exact T1|]. split; [exact T2|]. split; [exact T5|].
  split; [rewrite T3; reflexivity|].
  intros k Hk. destruct (T6 k ltac:(lia) ltac:(lia)) as (Hs & Ho). split; [exact Hs|].
  destruct Ho as [Ho | Ho]; [left; exact Ho | right]. intros c Hc. lia.
Qed.

Lemma decode_format4_origins_witness :
  exists pairs starts,
    pCodePairs (mkDecoded 1 (Some [0x41; 0x42]) (Some [0x41]) [0]) = Some pairs /\
    pStartGlyphs (mkDecoded 1 (Some [0x41; 0x42]) (Some [0x41]) [0]) = Some starts /\
    Forall (fun v => 0 <= v <= 0xFFFF) pairs /\
    (aGlyphIdArray (mkDecoded 1 (Some [0x41; 0x42]) (Some [0x41]) [0])).[0] = 0 /\
    forall k, 0 <= k < nRangeCount (mkDecoded 1 (Some [0x41; 0x42]) (Some [0x41]) [0]) ->
      k < Z.of_nat (length starts) /\
      (0 <= starts.[k] <= 0xFFFF \/
       forall c, pairs.[2 * k] <= c < pairs.[2 * k + 1] ->
         1 <= (c - pairs.[2 * k]) - starts.[k]
           < Z.of_nat (length (aGlyphIdArray (mkDecoded 1 (Some [0x41; 0x42]) (Some [0x41]) [0])))).
Proof.
  apply (decode_format4_origins table_A 44 12). vm_compute. reflexivity.
Defined.

(** ** The groups of a format 12 subtable *)

(** X17.  A decoded format 12 subtable holds, for each of its ranges, the
    group of the same position: the range starts at the group's first code
    point and ends behind its last one (as a 32-bit value), and its Glyph
    Origin is the group's start glyph read as a signed 32-bit value, which
    is negative for a start glyph from 2^31 on.  The groups are within the
    table, the first code point of each is not above the last, and decoding
    stops before the first group whose first code point is above its
    last. *)
Theorem decode_format12_groups buf nLength nOffset dec :
  decode_format12 buf nLength nOffset = Some dec ->
  exists nGroups pairs starts,
    GetUInt buf (nOffset + 12) = Some nGroups /\
    pCodePairs dec = Some pairs /\ pStartGlyphs dec = Some starts /\
    aGlyphIdArray dec = [0] /\
    Z.of_nat (length pairs) = 2 * nRangeCount dec /\
    Z.of_nat (length starts) = nRangeCount dec /\
    0 <= nRangeCount dec <= format12_count nLength nOffset nGroups /\
    (forall k, 0 <= k < nRangeCount dec ->
       exists s e g,
         GetUInt buf (to_int (nOffset + 16) + 12 * k) = Some s /\
         GetUInt buf (to_int (nOffset + 16) + 12 * k + 4) = Some e /\
         GetUInt buf (to_int (nOffset + 16) + 12 * k + 8) = Some g /\
         s <= e /\
         pairs.[2 * k] = s /\ pairs.[2 * k + 1] = to_u32 (e + 1) /\
         starts.[k] = to_int g /\ (starts.[k] < 0 <-> 2 ^ 31 <= g)) /\
    (nRangeCount dec < format12_count nLength nOffset nGroups ->
       exists s e,
         GetUInt buf (to_int (nOffset + 16) + 12 * nRangeCount dec) = Some s /\
         GetUInt buf (to_int (nOffset + 16) + 12 * nRangeCount dec + 4) = Some e /\
         e < s).
Proof.
  unfold decode_format12. intros H.
  destruct (GetUInt buf (nOffset + 12)) as [g|] eqn:R; [|discriminate].
  pose proof (GetUInt_bounds _ _ _ R) as Bg.
  pose proof (format12_count_le nLength nOffset g ltac:(lia)) as C.
  cbv zeta in H.
  match type of H with context [format12_loop ?a ?b ?c ?d ?e] =>
    destruct (format12_loop a b c d e) as [r|] eqn:L; [|discriminate] end.
  destruct (format12_loop_groups _ _ _ _ _ _ L) as (mp & ms & F1 & F2 & F3 & F4 & F5 & F6).
  cbn [app] in F1, F2. inversion H; subst dec.
  cbn [pCodePairs pStartGlyphs aGlyphIdArray nRangeCount].
  assert (Hq : Z.of_nat (length (fst r)) ÷ 2 = Z.of_nat (length ms)).
  { rewrite F1, F3. rewrite Z.mul_comm. apply Z.quot_mul. lia. }
  rewrite Hq. rewrite Z2Nat.id in F4, F6 by lia.
  exists g, (fst r), (snd r). rewrite F1, F2.
  split; [reflexivity|]. split; [reflexivity|]. split; [reflexivity|]. split; [reflexivity|].
  split; [lia|]. split; [reflexivity|]. split; [lia|]. split; [|exact F6].
  intros k Hk. destruct (F5 k Hk) as (s & e & u & G1 & G2 & G3 & G4 & G5 & G6 & G7).
  exists s, e, u. do 6 (split; [assumption|]). split; [exact G7|].
  rewrite G7. pose proof (GetUInt_bounds _ _ _ G3) as Bu.
  destruct (Z_lt_le_dec u (2 ^ 31)) as [Lt | Ge].
  - rewrite to_int_id by lia. lia.
  - unfold to_int. replace (u + 2 ^ 31) with (u - 2 ^ 31 + 1 * 2 ^ 32) by lia.
    rewrite Z.mod_add by lia. rewrite Z.mod_small by lia. lia.
Qed.

Lemma decode_format12_groups_witness :
  exists dec nGroups pairs starts,
    decode_format12 table_format12 52 12 = Some dec /\
    GetUInt table_format12 (12 + 12) = Some nGroups /\
    pCodePairs dec = Some pairs /\ pStartGlyphs dec = Some starts /\
    aGlyphIdArray dec = [0] /\
    Z.of_nat (length pairs) = 2 * nRangeCount dec /\
    Z.of_nat (length starts) = nRangeCount dec /\
    0 <= nRangeCount dec <= format12_count 52 12 nGroups /\
    (forall k, 0 <= k < nRangeCount dec ->
       exists s e g,
         GetUInt table_format12 (to_int (12 + 16) + 12 * k) = Some s /\
         GetUInt table_format12 (to_int (12 + 16) + 12 * k + 4) = Some e /\
         GetUInt table_format12 (to_int (12 + 16) + 12 * k + 8) = Some g /\
         s <= e /\
         pairs.[2 * k] = s /\ pairs.[2 * k + 1] = to_u32 (e + 1) /\
         starts.[k] = to_int g /\ (starts.[k] < 0 <-> 2 ^ 31 <= g)) /\
    (nRangeCount dec < format12_count 52 12 nGroups ->
       exists s e,
         GetUInt table_format12 (to_int (12 + 16) + 12 * nRangeCount dec) = Some s /\
         GetUInt table_format12 (to_int (12 + 16) + 12 * nRangeCount dec + 4) = Some e /\
         e < s).
Proof.
  exists (mkDecoded 2 (Some [0x41; 0x5B; 0x1F600; 0x1F601]) (Some [36; 900]) [0]).
  assert (E : decode_format12 table_format12 52 12
              = Some (mkDecoded 2 (Some [0x41; 0x5B; 0x1F600; 0x1F601]) (Some [36; 900]) [0]))
    by (vm_compute; reflexivity).
  destruct (decode_format12_groups table_format12 52 12 _ E) as (g & pairs & starts & H).
  exists g, pairs, starts. split; [exact E | exact H].
Defined.

(** ** The result of the parser *)

Lemma decode_best_ids buf nLength sel dec :
  decode_best buf nLength sel = Some dec ->
  exists more, aGlyphIdArray dec = 0 :: more /\
    (0 < nRangeCount dec -> exists starts, pStartGlyphs dec = Some starts).
Proof.
  unfold decode_best. intros H.
  destruct ((nFormat sel =? 4) && (to_int (nOffset sel + 16) <? nLength)).
  - destruct (decode_format4_table _ _ _ _ H) as (_ & starts & more & _ & S & T & _). eauto.
  - destruct ((nFormat sel =? 12) && (to_int (nOffset sel + 16) <? nLength)).
    + unfold decode_format12 in H.
      destruct (GetUInt buf (nOffset sel + 12)); [|discriminate]. cbv zeta in H.
      match type of H with context [format12_loop ?a ?b ?c ?d ?e] =>
        destruct (format12_loop a b c d e); [|discriminate] end.
      inversion H; subst. exists []. cbn. eauto.
    + inversion H; subst. exists []. cbn. split; [reflexivity | lia].
Qed.

Lemma finish_shape cv sel dec b r :
  finish cv sel dec = (b, r) ->
  (exists more, aGlyphIdArray dec = 0 :: more /\
     (0 < nRangeCount dec -> exists starts, pStartGlyphs dec = Some starts)) ->
  (b = false ->
     cr_mpRangeCodes r = codes_null /\ cr_mpStartGlyphs r = None /\
     cr_mpGlyphIds r = None /\ cr_mnRangeCount r = 0) /\
  (b = true ->
     (exists cells, cr_mpRangeCodes r = codes_new cells) /\
     1 <= cr_mnRangeCount r /\
     ((cr_mpStartGlyphs r = None /\ cr_mpGlyphIds r = None) \/
      (exists starts more,
         cr_mpStartGlyphs r = Some starts /\ cr_mpGlyphIds r = Some (0 :: more)))) /\
  isDefaultMap (ImplFontCharMap_ctor r) = false.
Proof.
  intros H (more & Hids & Hst). unfold finish in H.
  destruct (nRangeCount dec <=? 0) eqn:E0.
  - destruct (mbSymbolic sel); inversion H; subst; cbn.
    + split; [discriminate|]. split; [|reflexivity]. intros _.
      split; [eauto|]. split; [lia|]. left. auto.
    + split; [auto|]. split; [discriminate | reflexivity].
  - apply Z.leb_gt in E0. cbv zeta in H.
    match type of H with context [match ?a with Some _ => _ | None => _ end] =>
      destruct a as [h|] eqn:Ec end.
    + match type of H with context [if ?c then _ else _] => destruct c eqn:E1 end;
        inversion H; subst; cbn.
      * split; [auto|]. split; [discriminate | reflexivity].
      * apply Z.leb_gt in E1. split; [discriminate|]. split; [|reflexivity]. intros _.
        split; [eauto|]. split; [lia|]. left. auto.
    + inversion H; subst; cbn. split; [discriminate|]. split; [|reflexivity]. intros _.
      split; [eauto|]. split; [lia|]. right. destruct (Hst E0) as (starts & Es).
      exists starts, more. rewrite Hids. auto.
Qed.

(** X18.  The result of [ParseCMAP].  On failure the result holds no array
    and no range.  On success it holds a range array of its own and at least
    one range; the Glyph Origins and the glyph id table are both absent or both
    present, and the cell 0 of a present table is 0.  The map
    built from a result is never a default map. *)
Theorem ParseCMAP_result_shape cv pCmap nLength b r :
  ParseCMAP cv pCmap nLength = Some (b, r) ->
  (b = false ->
     cr_mpRangeCodes r = codes_null /\ cr_mpStartGlyphs r = None /\
     cr_mpGlyphIds r = None /\ cr_mnRangeCount r = 0) /\
  (b = true ->
     (exists cells, cr_mpRangeCodes r = codes_new cells) /\
     1 <= cr_mnRangeCount r /\
     ((cr_mpStartGlyphs r = None /\ cr_mpGlyphIds r = None) \/
      (exists starts more,
         cr_mpStartGlyphs r = Some starts /\ cr_mpGlyphIds r = Some (0 :: more)))) /\
  isDefaultMap (ImplFontCharMap_ctor r) = false.
Proof.
  unfold ParseCMAP. intros H.
  destruct (check_header pCmap nLength) as [[[buf nSub]|]|]; [| |discriminate].
  - destruct (decode_stage buf nLength nSub) as [[sel dec]|] eqn:D; [|discriminate].
    cbn [fst snd] in H. inversion H as [F].
    unfold decode_stage in D.
    destruct (select_loop buf nLength (Z.to_nat nSub) 4 Selection0) as [sel'|]; [|discriminate].
    destruct (decode_best buf nLength sel') as [dec'|] eqn:B; [|discriminate].
    inversion D; subst sel' dec'.
    exact (finish_shape cv sel dec b r F (decode_best_ids _ _ _ _ B)).
  - inversion H; subst. cbn. split; [auto|]. split; [discriminate | reflexivity].
Qed.

Lemma ParseCMAP_result_shape_witness :
  exists b r,
    ParseCMAP bytewise (Some table_format12) 52 = Some (b, r) /\
    (b = false ->
       cr_mpRangeCodes r = codes_null /\ cr_mpStartGlyphs r = None /\
       cr_mpGlyphIds r = None /\ cr_mnRangeCount r = 0) /\
    (b = true ->
       (exists cells, cr_mpRangeCodes r = codes_new cells) /\
       1 <= cr_mnRangeCount r /\
       ((cr_mpStartGlyphs r = None /\ cr_mpGlyphIds r = None) \/
        (exists starts more,
           cr_mpStartGlyphs r = Some starts /\ cr_mpGlyphIds r = Some (0 :: more)))) /\
    isDefaultMap (ImplFontCharMap_ctor r) = false.
Proof.
  exists true,
    (mkCmapResult (codes_new [0x41; 0x5B; 0x1F600; 0x1F601]) (Some [36; 900]) (Some [0]) 2
       false false).
  assert (E : ParseCMAP bytewise (Some table_format12) 52
              = Some (true,
                      mkCmapResult (codes_new [0x41; 0x5B; 0x1F600; 0x1F601]) (Some [36; 900])
                        (Some [0]) 2 false false))
    by (vm_compute; reflexivity).
  split; [exact E | exact (ParseCMAP_result_shape _ _ _ _ _ E)].
Defined.

(** ** The store around a request for the default map *)

Lemma keys_release a h x : In x (keys (release a h)) -> In x (keys h).
Proof.
  induction h as [|e t IH]; [auto|]. cbn [release].
  destruct (Nat.eqb (fst e) a).
  - destruct (snd (snd e)) as [|[|n]]; cbn [keys map fst In]; intros H; auto.
    destruct H as [H | H]; auto.
  - cbn [keys map fst In]. intros [H | H]; auto.
Qed.

Lemma NoDup_release a h : NoDup (keys h) -> NoDup (keys (release a h)).
Proof.
  induction h as [|e t IH]; [auto|]. intros H. cbn [keys map] in H.
  inversion H as [|x l Hn Hd]; subst. cbn [release].
  destruct (Nat.eqb (fst e) a).
  - destruct (snd (snd e)) as [|[|n]]; auto.
    cbn [keys map fst]. constructor; [|apply IH; exact Hd].
    intros C. apply Hn. apply (keys_release a). exact C.
  - cbn [keys map fst]. constructor; [|apply IH; exact Hd].
    intros C. apply Hn. apply (keys_release a). exact C.
Qed.

Lemma lookup_cons (a : nat) (e : nat * (ImplFontCharMap * nat))
    (t : list (nat * (ImplFontCharMap * nat))) :
  lookup a (e :: t) = if Nat.eqb (fst e) a then Some (snd e) else lookup a t.
Proof. unfold lookup. cbn [find]. destruct (Nat.eqb (fst e) a); reflexivity. Qed.

Lemma lookup_absent a h : ~ In a (keys h) -> lookup a h = None.
Proof.
  induction h as [|e t IH]; [reflexivity|]. cbn [keys map In]. intros H.
  unfold addr in *. rewrite lookup_cons.
  destruct (Nat.eqb (fst e) a) eqn:E; [apply Nat.eqb_eq in E; tauto|].
  apply IH. tauto.
Qed.

Lemma release_cons (a : nat) (e : nat * (ImplFontCharMap * nat))
    (t : list (nat * (ImplFontCharMap * nat))) :
  release a (e :: t) =
    if Nat.eqb (fst e) a then
      match snd (snd e) with
      | S (S n) => (fst e, (fst (snd e), S n)) :: release a t
      | _ => release a t
      end
    else e :: release a t.
Proof. reflexivity. Qed.

Lemma lookup_release_other a old h : a <> old -> lookup a (release old h) = lookup a h.
Proof.
  intros Hne. induction h as [|e t IH]; [reflexivity|].
  unfold addr in *. rewrite release_cons, (lookup_cons a e t).
  destruct (Nat.eqb (fst e) old) eqn:E.
  - apply Nat.eqb_eq in E.
    assert (Ea : Nat.eqb (fst e) a = false) by (apply Nat.eqb_neq; congruence).
    rewrite Ea.
    destruct (snd (snd e)) as [|[|n]]; [exact IH | exact IH |].
    rewrite lookup_cons. cbn [fst]. rewrite Ea. exact IH.
  - rewrite lookup_cons. destruct (Nat.eqb (fst e) a); [reflexivity | exact IH].
Qed.

Lemma lookup_release_same old h m n :
  NoDup (keys h) -> lookup old h = Some (m, n) ->
  lookup old (release old h) = match n with S (S k) => Some (m, S k) | _ => None end.
Proof.
  induction h as [|e t IH]; [discriminate|]. intros Hd Hl.
  cbn [keys map] in Hd. inversion Hd as [|x l Hn Hd']; subst.
  unfold addr in *. rewrite release_cons. rewrite lookup_cons in Hl.
  destruct (Nat.eqb (fst e) old) eqn:E.
  - apply Nat.eqb_eq in E. inversion Hl as [Hs].
    assert (Ha : lookup old (release old t) = None).
    { apply lookup_absent. intros C. apply keys_release in C. apply Hn. rewrite E. exact C. }
    rewrite Hs. cbn [snd fst]. destruct n as [|[|k]]; try exact Ha.
    rewrite lookup_cons. cbn [fst snd]. rewrite E, Nat.eqb_refl. reflexivity.
  - rewrite lookup_cons, E. apply IH; assumption.
Qed.

Lemma acquire_cons (a : nat) (e : nat * (ImplFontCharMap * nat))
    (t : list (nat * (ImplFontCharMap * nat))) :
  acquire a (e :: t) =
    (if Nat.eqb (fst e) a then (fst e, (fst (snd e), S (snd (snd e)))) else e) :: acquire a t.
Proof. reflexivity. Qed.

Lemma acquire_absent a h : ~ In a (keys h) -> acquire a h = h.
Proof.
  induction h as [|e t IH]; [reflexivity|]. cbn [keys map In]. intros H.
  unfold addr in *. rewrite acquire_cons.
  destruct (Nat.eqb (fst e) a) eqn:E; [apply Nat.eqb_eq in E; tauto|].
  rewrite IH by tauto. reflexivity.
Qed.

Lemma fresh_not_in h : ~ In (fresh h) (keys h).
Proof. intros C. apply fresh_above in C. lia. Qed.

(** The store after a request: the new object in front of the objects left
    when the global has dropped its reference. *)
Lemma GetDefaultMap_store b w :
  wf_world w ->
  GetDefaultMap b w =
    (mkFontCharMap (fresh (heap w)),
     mkWorld ((fresh (heap w), (default_map b, 2%nat))
                :: match g_pDefaultImplFontCharMap w with
                   | Some old => release old (heap w)
                   | None => heap w
                   end)
             (Some (fresh (heap w)))).
Proof.
  intros W. unfold GetDefaultMap, getDefaultMap, wf_world in *.
  pose proof (fresh_not_in (heap w)) as Hf.
  destruct (g_pDefaultImplFontCharMap w) as [old|].
  - apply fresh_above in W. rewrite release_head_other by lia.
    cbn [heap g_pDefaultImplFontCharMap]. rewrite acquire_cons. cbn [fst snd].
    rewrite Nat.eqb_refl.
    rewrite acquire_absent; [reflexivity|].
    intros C. apply keys_release in C. tauto.
  - cbn [heap g_pDefaultImplFontCharMap]. rewrite acquire_cons. cbn [fst snd].
    rewrite Nat.eqb_refl.
    rewrite acquire_absent by exact Hf. reflexivity.
Qed.

(** X19.  A request for the default map on a store without double
    addresses: the store stays well formed; the returned handle refers to a
    new object, held by the handle and by the global; the object the global
    referred to before loses one reference, and is destroyed when that was
    its last one; every other object is left as it was. *)
Theorem GetDefaultMap_frame b w :
  wf_world w -> NoDup (keys (heap w)) ->
  let '(h, w') := GetDefaultMap b w in
  wf_world w' /\ NoDup (keys (heap w')) /\
  ~ In (mpImplFontCharMap h) (keys (heap w)) /\
  lookup (mpImplFontCharMap h) (heap w') = Some (default_map b, 2%nat) /\
  (forall a, Some a <> g_pDefaultImplFontCharMap w -> a <> mpImplFontCharMap h ->
     lookup a (heap w') = lookup a (heap w)) /\
  (forall old m n,
     g_pDefaultImplFontCharMap w = Some old -> lookup old (heap w) = Some (m, n) ->
     lookup old (heap w') = match n with S (S k) => Some (m, S k) | _ => None end).
Proof.
  intros W Hd. rewrite (GetDefaultMap_store b w W).
  pose proof (fresh_not_in (heap w)) as Hf.
  set (f := fresh (heap w)) in *.
  cbn [mpImplFontCharMap heap g_pDefaultImplFontCharMap].
  split; [unfold wf_world; cbn; auto|].
  split.
  { cbn [keys map fst]. constructor.
    - destruct (g_pDefaultImplFontCharMap w); [|exact Hf].
      intros C. apply keys_release in C. tauto.
    - destruct (g_pDefaultImplFontCharMap w); [apply NoDup_release|]; exact Hd. }
  split; [exact Hf|].
  split; [rewrite lookup_cons; cbn [fst snd]; rewrite Nat.eqb_refl; reflexivity|].
  split.
  - intros a Ha Hne. rewrite lookup_cons. cbn [fst].
    assert (E : Nat.eqb f a = false) by (apply Nat.eqb_neq; congruence).
    rewrite E.
    destruct (g_pDefaultImplFontCharMap w) as [old|]; [|reflexivity].
    apply lookup_release_other. congruence.
  - intros old m n Hg Hl. rewrite Hg.
    assert (Hin : In old (keys (heap w))).
    { unfold wf_world in W. rewrite Hg in W. exact W. }
    assert (E : Nat.eqb f old = false).
    { apply Nat.eqb_neq. intros C. subst old. tauto. }
    rewrite lookup_cons. cbn [fst]. rewrite E.
    apply lookup_release_same; assumption.
Qed.

Lemma GetDefaultMap_frame_witness :
  wf_world (snd (GetDefaultMap true World0)) /\
  NoDup (keys (heap (snd (GetDefaultMap true World0)))) /\
  let '(h, w') := GetDefaultMap false (snd (GetDefaultMap true World0)) in
  wf_world w' /\ NoDup (keys (heap w')) /\
  ~ In (mpImplFontCharMap h) (keys (heap (snd (GetDefaultMap true World0)))) /\
  lookup (mpImplFontCharMap h) (heap w') = Some (default_map false, 2%nat) /\
  (forall a, Some a <> g_pDefaultImplFontCharMap (snd (GetDefaultMap true World0)) ->
     a <> mpImplFontCharMap h ->
     lookup a (heap w') = lookup a (heap (snd (GetDefaultMap true World0)))) /\
  (forall old m n,
     g_pDefaultImplFontCharMap (snd (GetDefaultMap true World0)) = Some old ->
     lookup old (heap (snd (GetDefaultMap true World0))) = Some (m, n) ->
     lookup old (heap w') = match n with S (S k) => Some (m, S k) | _ => None end).
Proof.
  assert (W : wf_world (snd (GetDefaultMap true World0))) by (left; reflexivity).
  assert (D : NoDup (keys (heap (snd (GetDefaultMap true World0))))).
  { constructor; [intros []|constructor]. }
  split; [exact W|]. split; [exact D|].
  exact (GetDefaultMap_frame false (snd (GetDefaultMap true World0)) W D).
Defined.

(** ** The readers, in terms of bytes *)

Lemma byte_at_bounds p off b : byte_at p off = Some b -> 0 <= b < 256.
Proof.
  intros H. pose proof (byte_at_in_bounds _ _ _ H) as I.
  destruct (byte_at_some p off I) as (x & X & B). congruence.
Qed.

Lemma lor_shift8_add b0 b1 :
  0 <= b0 -> 0 <= b1 < 256 -> Z.lor (Z.shiftl b0 8) b1 = 256 * b0 + b1.
Proof.
  intros H0 H1.
  assert (L : Z.land (Z.shiftl b0 8) b1 = 0).
  { replace b1 with (Z.land b1 (Z.ones 8)) at 1
      by (rewrite Z.land_ones by lia; apply Z.mod_small; change (2 ^ 8) with 256; lia).
    rewrite (Z.land_comm b1), Z.land_assoc, Z.land_ones by lia.
    rewrite Z.shiftl_mul_pow2 by lia. rewrite Z.mod_mul by lia. reflexivity. }
  pose proof (Z.add_lor_land (Z.shiftl b0 8) b1) as A. rewrite L in A.
  rewrite Z.shiftl_mul_pow2 in * by lia. change (2 ^ 8) with 256 in *. lia.
Qed.

(** X20.  The readers decode big-endian values.  A read of two bytes gives
    [256 * b0 + b1]; the signed read gives the same value when it is below
    2^15 and 2^16 less otherwise; a read of four bytes is the read of its
    upper half times 2^16 plus the read of its lower half.  A read succeeds
    exactly when all of its bytes lie within the buffer. *)
Theorem readers_big_endian p off :
  (GetUShort p off <> None <-> 0 <= off /\ off + 2 <= Z.of_nat (length p)) /\
  (GetUInt p off <> None <-> 0 <= off /\ off + 4 <= Z.of_nat (length p)) /\
  (forall v, GetUShort p off = Some v ->
     exists b0 b1,
       byte_at p off = Some b0 /\ byte_at p (off + 1) = Some b1 /\
       v = 256 * b0 + b1 /\
       GetSShort p off = Some (if v <? 2 ^ 15 then v else v - 2 ^ 16)) /\
  (forall v, GetUInt p off = Some v ->
     exists hi lo,
       GetUShort p off = Some hi /\ GetUShort p (off + 2) = Some lo /\
       v = 65536 * hi + lo).
Proof.
  split; [|split; [|split]].
  - split.
    + intros H. destruct (GetUShort p off) as [v|] eqn:E; [|congruence].
      unfold GetUShort in E.
      destruct (byte_at p off) as [b0|] eqn:E0; [|discriminate].
      destruct (byte_at p (off + 1)) as [b1|] eqn:E1; [|discriminate].
      apply byte_at_in_bounds in E0, E1. lia.
    + intros (H0 & H1). destruct (GetUShort_some p off H0 H1) as (v & -> & _). discriminate.
  - split.
    + intros H. destruct (GetUInt p off) as [v|] eqn:E; [|congruence].
      unfold GetUInt in E.
      destruct (byte_at p off) as [b0|] eqn:E0; [|discriminate].
      destruct (byte_at p (off + 1)) as [b1|] eqn:E1; [|discriminate].
      destruct (byte_at p (off + 2)) as [b2|] eqn:E2; [|discriminate].
      destruct (byte_at p (off + 3)) as [b3|] eqn:E3; [|discriminate].
      apply byte_at_in_bounds in E0, E3. lia.
    + intros (H0 & H1). destruct (GetUInt_some p off H0 H1) as (v & -> & _). discriminate.
  - intros v H. unfold GetUShort in H. unfold GetSShort.
    destruct (byte_at p off) as [b0|] eqn:E0; [|discriminate].
    destruct (byte_at p (off + 1)) as [b1|] eqn:E1; [|discriminate].
    pose proof (byte_at_bounds _ _ _ E0) as B0. pose proof (byte_at_bounds _ _ _ E1) as B1.
    assert (Hv : v = Z.lor (Z.shiftl b0 8) b1) by congruence. clear H. subst v.
    rewrite lor_shift8_add by lia.
    exists b0, b1. split; [reflexivity|]. split; [reflexivity|]. split; [reflexivity|].
    f_equal. unfold to_s16.
    destruct (256 * b0 + b1 <? 2 ^ 15) eqn:L.
    + apply Z.ltb_lt in L. rewrite Z.mod_small by lia. lia.
    + apply Z.ltb_ge in L.
      replace (256 * b0 + b1 + 2 ^ 15) with (256 * b0 + b1 - 2 ^ 15 + 1 * 2 ^ 16) by lia.
      rewrite Z.mod_add by lia. rewrite Z.mod_small by lia. lia.
  - intros v H. unfold GetUInt in H. unfold GetUShort.
    replace (off + 2 + 1) with (off + 3) by lia.
    destruct (byte_at p off) as [b0|] eqn:E0; [|discriminate].
    destruct (byte_at p (off + 1)) as [b1|] eqn:E1; [|discriminate].
    destruct (byte_at p (off + 2)) as [b2|] eqn:E2; [|discriminate].
    destruct (byte_at p (off + 3)) as [b3|] eqn:E3; [|discriminate].
    pose proof (byte_at_bounds _ _ _ E0) as B0. pose proof (byte_at_bounds _ _ _ E1) as B1.
    pose proof (byte_at_bounds _ _ _ E2) as B2. pose proof (byte_at_bounds _ _ _ E3) as B3.
    assert (Hv : v = to_u32 (Z.shiftl b0 24 + Z.shiftl b1 16 + Z.shiftl b2 8 + b3))
      by congruence.
    clear H. subst v.
    exists (Z.lor (Z.shiftl b0 8) b1), (Z.lor (Z.shiftl b2 8) b3).
    split; [reflexivity|]. split; [reflexivity|].
    rewrite !lor_shift8_add by lia. rewrite !Z.shiftl_mul_pow2 by lia.
    rewrite to_u32_id by lia. lia.
Qed.

(** ** The input of the converter *)

Lemma code_points_S lo n : code_points lo (S n) = lo :: code_points (lo + 1) n.
Proof.
  unfold code_points. cbn [seq map]. rewrite Z.add_0_r. f_equal.
  rewrite <- seq_shift, map_map. apply map_ext. intros i. lia.
Qed.

(** X21.  One filling of the input buffer of the converter takes the next
    code points of the range, at most [j] of them and none from [cEnd] on,
    and appends the bytes of each in turn: the high and the low byte of a
    code point from [0x0100] on, the one byte of a code point below
    [0x00A0], and nothing for a code point in between. *)
Theorem input_loop_bytes :
  forall j cMin cEnd cCharsInp,
    let n := Z.to_nat (Z.min (Z.of_nat j) (cEnd - cMin)) in
    input_loop j cMin cEnd cCharsInp =
      (cMin + Z.of_nat n, cCharsInp ++ flat_map input_bytes (code_points cMin n)).
Proof.
  induction j as [|j IH]; intros cMin cEnd inp n; cbn [input_loop].
  - subst n. replace (Z.to_nat (Z.min (Z.of_nat 0) (cEnd - cMin))) with O by lia.
    cbn. rewrite Z.add_0_r, app_nil_r. reflexivity.
  - destruct (cMin <? cEnd) eqn:E.
    + apply Z.ltb_lt in E. cbv zeta.
      assert (Hn : n = S (Z.to_nat (Z.min (Z.of_nat j) (cEnd - (cMin + 1))))) by (subst n; lia).
      rewrite Hn, IH, code_points_S. cbn [flat_map]. f_equal; [lia|].
      unfold input_bytes at 2.
      destruct (cMin >=? 256) eqn:E1; cbn [orb].
      * rewrite <- !app_assoc. reflexivity.
      * destruct (cMin <? 160); rewrite <- ?app_assoc; reflexivity.
    + apply Z.ltb_ge in E. subst n.
      replace (Z.to_nat (Z.min (Z.of_nat (S j)) (cEnd - cMin))) with O by lia.
      cbn. rewrite Z.add_0_r, app_nil_r. reflexivity.
Qed.
